(** * Recap: the dual-backend persistence layer, the entry ordering protocol,
      the mode manager and the AI response parser.

    Source files embedded here:
    - [lib/indexedDB.ts]           the Local Store (three IndexedDB object stores)
    - [hooks/useCheatsheets.ts]    list / create / soft-delete / restore / purge
    - [hooks/useSyntaxEntries.ts]  list / create / update / delete / reorder
    - [components/CheatsheetEditor.tsx]  [handleDragEnd], [handleSaveEntry]
    - [contexts/AppContext.tsx]    [mode], [hasGemini], [updateConfig], [clearConfig]
    - [hooks/useAIGenerate.ts]     [generate]

    Conventions.  An IndexedDB object store is a finite map from the record key
    to the record; [getAll] enumerates it in ascending key order (keys are
    compared bytewise, which is the IndexedDB order for ASCII keys such as
    UUIDs).  Strings are UTF-8 byte strings.  JavaScript numbers that hold
    positions and indices are integers ([Z]); where the code adds to a
    stored position, the sum is rounded as a number is ([binary64]).  The clock
    ([new Date().toISOString()]) and the identifier source
    ([crypto.randomUUID()]) are inputs of the operations that read them.
    IndexedDB requests are taken to succeed.  The hosted backend is a
    parameter: a state and a function that answers each request; [hosted]
    gives the answers that the setup script of the repository
    ([DATABASE_SETUP_SQL]) determines. *)

From Stdlib Require Import ZArith String Ascii List.
From stdpp Require Import gmap strings list sorting pretty.

Local Open Scope string_scope.
Local Open Scope Z_scope.

(** ** JavaScript helpers *)

(** [x || d] on strings: the empty string is falsy. *)
Definition str_or (x d : string) : string :=
  if decide (x = "") then d else x.

(** Truthiness of a [string | null] value: [null] and [""] are falsy. *)
Definition truthy (x : option string) : bool :=
  match x with
  | Some s => bool_decide (s ≠ "")
  | None => false
  end.

(** [x || 0] on an integer. *)
Definition num_or_zero (x : Z) : Z := if x =? 0 then 0 else x.

(** The number nearest to an integer: integers up to 2^53 in magnitude are
    numbers themselves, a larger one is rounded to 53 significant bits, a
    tie going to the even significand.  (Below 2^1024, beyond which the
    result is an infinity.) *)
Definition binary64 (z : Z) : Z :=
  let a := Z.abs z in
  let e := Z.log2 a - 52 in
  if e <=? 0 then z
  else
    let q := 2 ^ e in
    let m := a / q in
    let r := a mod q in
    let m' := if 2 * r <? q then m
              else if q <? 2 * r then m + 1
              else if Z.even m then m else m + 1 in
    Z.sgn z * (m' * q).

(** [x + y] on numbers that hold integers. *)
Definition Number_add (x y : Z) : Z := binary64 (x + y).

(** [Array.prototype.sort(cmp)]: a stable sort; [cmp a b <= 0] keeps [a]
    before [b].  Written as a stable insertion sort. *)
Fixpoint sort_insert {A} (cmp : A → A → Z) (e : A) (l : list A) : list A :=
  match l with
  | [] => [e]
  | x :: xs => if cmp e x <=? 0 then e :: x :: xs else x :: sort_insert cmp e xs
  end.

Definition Array_sort {A} (cmp : A → A → Z) (l : list A) : list A :=
  foldr (sort_insert cmp) [] l.

(** [Array.prototype.findIndex]: the first index that satisfies [p], or -1. *)
Fixpoint findIndex {A} (p : A → bool) (l : list A) : Z :=
  match l with
  | [] => -1
  | x :: xs => if p x then 0 else
      let i := findIndex p xs in if i <? 0 then -1 else i + 1
  end.

(** [new Map(pairs)]: pairs are set from left to right, so for a repeated key
    the last pair wins. *)
Definition Map_new {V} (pairs : list (string * V)) : gmap string V :=
  foldl (λ m kv, <[kv.1 := kv.2]> m) ∅ pairs.

(** ** lib/indexedDB.ts *)

Module LocalCheatsheet.
Record t := mk {
  id : string;
  title : string;
  description : option string;
  created_at : string;
  updated_at : string;
  deleted_at : option string;
}.
(** [{ ...c, deleted_at: v }] *)
Definition with_deleted_at (c : t) (v : option string) : t :=
  mk (id c) (title c) (description c) (created_at c) (updated_at c) v.
End LocalCheatsheet.

Module LocalSyntaxEntry.
Record t := mk {
  id : string;
  cheatsheet_id : string;
  syntax : string;
  category : string;
  description : option string;
  example : option string;
  notes : option string;
  display_format : string;
  language : string;
  position : Z;
  created_at : string;
  updated_at : string;
}.
(** [{ ...entry, position: p }] *)
Definition with_position (e : t) (p : Z) : t :=
  mk (id e) (cheatsheet_id e) (syntax e) (category e) (description e)
     (example e) (notes e) (display_format e) (language e) p
     (created_at e) (updated_at e).
End LocalSyntaxEntry.

Record AppConfig := mkAppConfig {
  supabaseUrl : option string;
  supabaseAnonKey : option string;
  geminiApiKey : option string;
}.

#[global] Instance LocalCheatsheet_eq_dec : EqDecision LocalCheatsheet.t.
Proof. solve_decision. Defined.
#[global] Instance LocalSyntaxEntry_eq_dec : EqDecision LocalSyntaxEntry.t.
Proof. solve_decision. Defined.
#[global] Instance AppConfig_eq_dec : EqDecision AppConfig.
Proof. solve_decision. Defined.

(** The database [recap-db]: the three object stores created by
    [onupgradeneeded].  [cheatsheets] and [entries] have key path [id],
    [config] has key path [key]. *)
Record LocalDB := mkLocalDB {
  cheatsheets : gmap string LocalCheatsheet.t;
  entries : gmap string LocalSyntaxEntry.t;
  config : gmap string AppConfig;
}.

Definition emptyDB : LocalDB := mkLocalDB ∅ ∅ ∅.

(** Generic [getAll]: every record of the store, in ascending key order.
    Keys are compared bytewise; IndexedDB compares the UTF-16 code units of
    string keys, which is the same order on ASCII keys such as the
    generated ids ([ascii_id] below). *)
Definition getAll {T} (store : gmap string T) : list T :=
  (merge_sort (λ a b : string * T, String.le a.1 b.1) (map_to_list store)).*2.

(** Generic [put]: an upsert under the record's key path. *)
Definition put {T} (keyPath : T → string) (item : T) (store : gmap string T)
  : gmap string T := <[keyPath item := item]> store.

(** Generic [remove]. *)
Definition remove {T} (id : string) (store : gmap string T) : gmap string T :=
  delete id store.

Module cheatsheetsDB.
Definition getAll (db : LocalDB) : list LocalCheatsheet.t :=
  getAll (cheatsheets db).
Definition put (cheatsheet : LocalCheatsheet.t) (db : LocalDB) : LocalDB :=
  mkLocalDB (put LocalCheatsheet.id cheatsheet (cheatsheets db))
            (entries db) (config db).
Definition delete (id : string) (db : LocalDB) : LocalDB :=
  mkLocalDB (remove id (cheatsheets db)) (entries db) (config db).
(** [all.find(c => c.id === id) || null] *)
Definition get (id : string) (db : LocalDB) : option LocalCheatsheet.t :=
  List.find (λ c, bool_decide (LocalCheatsheet.id c = id)) (getAll db).
End cheatsheetsDB.

Module entriesDB.
Definition getAll (db : LocalDB) : list LocalSyntaxEntry.t :=
  getAll (entries db).
Definition put (entry : LocalSyntaxEntry.t) (db : LocalDB) : LocalDB :=
  mkLocalDB (cheatsheets db)
            (put LocalSyntaxEntry.id entry (entries db)) (config db).
Definition delete (id : string) (db : LocalDB) : LocalDB :=
  mkLocalDB (cheatsheets db) (remove id (entries db)) (config db).
Definition getByCheatsheetId (cheatsheetId : string) (db : LocalDB)
  : list LocalSyntaxEntry.t :=
  filter (λ e, LocalSyntaxEntry.cheatsheet_id e = cheatsheetId) (getAll db).
(** [for (const entry of toDelete) { await this.delete(entry.id) }] *)
Definition delete_each (toDelete : list LocalSyntaxEntry.t) (db : LocalDB)
  : LocalDB :=
  foldl (λ db entry, delete (LocalSyntaxEntry.id entry) db) db toDelete.
(** The loop runs over the snapshot [toDelete] taken first.  This is the
    store once the loop has run to its end. *)
Definition deleteByCheatsheetId (cheatsheetId : string) (db : LocalDB)
  : LocalDB :=
  let toDelete := getByCheatsheetId cheatsheetId db in
  delete_each toDelete db.
End entriesDB.

(** Local Store code at the grain of its awaits, for any way [M] of running
    transactions: [read] is one read-only transaction, [write] one
    read-write transaction.  The hooks run it as [Async] below; it is also
    run cut short ([Interrupted]). *)
Section LocalProgram.
Context {M : Type → Type} {M_ret : MRet M} {M_bind : MBind M}.
Context (read : ∀ A, (LocalDB → A) → M A).
Context (write : (LocalDB → LocalDB) → M unit).

(** [for (const x of l) { await body(x) }] *)
Fixpoint await_each {A} (l : list A) (body : A → M unit) : M unit :=
  match l with
  | [] => mret tt
  | x :: xs => body x ;; await_each xs body
  end.

(** [entriesDB.deleteByCheatsheetId]: the snapshot is read first, then each
    of its entries is deleted in a transaction of its own. *)
Definition entriesDB_deleteByCheatsheetId (cheatsheetId : string) : M unit :=
  toDelete ← read _ (entriesDB.getByCheatsheetId cheatsheetId);
  await_each toDelete
    (λ entry, write (entriesDB.delete (LocalSyntaxEntry.id entry))).

(** The guest branch of [usePermanentDeleteCheatsheet]:
    [await entriesDB.deleteByCheatsheetId(id); await cheatsheetsDB.delete(id)]. *)
Definition purge_local (id : string) : M unit :=
  entriesDB_deleteByCheatsheetId id;;
  write (cheatsheetsDB.delete id).
End LocalProgram.

Definition defaultConfig : AppConfig := mkAppConfig None None None.

Module configDB.
(** [result?.value || { supabaseUrl: null, ... }] *)
Definition get (db : LocalDB) : AppConfig :=
  default defaultConfig (config db !! "app-config").
Definition set (c : AppConfig) (db : LocalDB) : LocalDB :=
  mkLocalDB (cheatsheets db) (entries db) (<["app-config" := c]> (config db)).
Definition clear (db : LocalDB) : LocalDB :=
  mkLocalDB (cheatsheets db) (entries db) (delete "app-config" (config db)).
End configDB.

(** ** contexts/AppContext.tsx *)

Module AppContext.
Inductive Mode := guest | cloud.

(** The handle returned by [createClient(url, key)]. *)
Record SupabaseClient := mkClient { client_url : string; client_key : string }.
Record User := mkUser { user_id : string }.

(** [const mode = config.supabaseUrl && config.supabaseAnonKey ? "cloud" : "guest"] *)
Definition mode (config : AppConfig) : Mode :=
  if truthy (supabaseUrl config) && truthy (supabaseAnonKey config)
  then cloud else guest.

(** [const hasGemini = !!config.geminiApiKey] *)
Definition hasGemini (config : AppConfig) : bool :=
  truthy (geminiApiKey config).

(** The [useState] cells of [AppProvider]. *)
Record State := mkState {
  st_config : AppConfig;
  st_configLoaded : bool;
  st_supabaseClient : option SupabaseClient;
  st_user : option User;
  st_isLoading : bool;
}.

Definition initial : State :=
  mkState defaultConfig false None None true.

(** [Partial<AppConfig>]: [None] is an absent key, [Some v] a key set to
    [v] (which may be [null]). *)
Record PartialAppConfig := mkPartial {
  p_supabaseUrl : option (option string);
  p_supabaseAnonKey : option (option string);
  p_geminiApiKey : option (option string);
}.

(** [{ ...prev, ...newConfig }] *)
Definition merge (prev : AppConfig) (newConfig : PartialAppConfig) : AppConfig :=
  mkAppConfig (default (supabaseUrl prev) (p_supabaseUrl newConfig))
              (default (supabaseAnonKey prev) (p_supabaseAnonKey newConfig))
              (default (geminiApiKey prev) (p_geminiApiKey newConfig)).

Definition setConfig (c : AppConfig) (s : State) : State :=
  mkState c (st_configLoaded s) (st_supabaseClient s) (st_user s)
          (st_isLoading s).

(** [setConfig((prev) => ({ ...prev, ...newConfig }))] *)
Definition updateConfig (newConfig : PartialAppConfig) (s : State) : State :=
  setConfig (merge (st_config s) newConfig) s.

(** [setConfig({ supabaseUrl: null, ... }); configDB.clear()] *)
Definition clearConfig (s : State) (db : LocalDB) : State * LocalDB :=
  (setConfig defaultConfig s, configDB.clear db).

(** The mount effect: [configDB.get().then(stored => { setConfig(stored);
    setConfigLoaded(true) })]. *)
Definition loadConfig (s : State) (db : LocalDB) : State :=
  mkState (configDB.get db) true (st_supabaseClient s) (st_user s)
          (st_isLoading s).

(** The persistence effect: [if (configLoaded) configDB.set(config)]. *)
Definition persistConfig (s : State) (db : LocalDB) : LocalDB :=
  if st_configLoaded s then configDB.set (st_config s) db else db.

(** The client effect, up to the session lookup (which later sets [user]
    and [isLoading] from the auth subscription).  [createClient] is taken
    to succeed. *)
Definition initClient (s : State) : State :=
  if st_configLoaded s then
    match supabaseUrl (st_config s), supabaseAnonKey (st_config s) with
    | Some url, Some key =>
        if truthy (Some url) && truthy (Some key)
        then mkState (st_config s) true (Some (mkClient url key)) (st_user s)
                     (st_isLoading s)
        else mkState (st_config s) true None None false
    | _, _ => mkState (st_config s) true None None false
    end
  else s.

Record AppContextType := mkCtx {
  ctx_mode : Mode;
  config : AppConfig;
  supabaseClient : option SupabaseClient;
  user : option User;
  isLoading : bool;
  ctx_hasGemini : bool;
}.

(** The value handed to [AppContext.Provider]; nothing is rendered until
    the configuration has been loaded. *)
Definition useApp (s : State) : option AppContextType :=
  if st_configLoaded s then
    Some (mkCtx (mode (st_config s)) (st_config s) (st_supabaseClient s)
                (st_user s) (st_isLoading s) (hasGemini (st_config s)))
  else None.
End AppContext.

#[global] Instance Mode_eq_dec : EqDecision AppContext.Mode.
Proof. solve_decision. Defined.

(** ** The hosted backend, seen from the client *)

(** The fields sent by [useCreateEntry]. *)
Record NewEntry := mkNewEntry {
  ne_cheatsheet_id : string;
  ne_syntax : string;
  ne_category : string;
  ne_description : option string;
  ne_example : option string;
  ne_display_format : string;
  ne_language : string;
  ne_position : Z;
}.

(** The fields sent by [useUpdateEntry]. *)
Record EntryUpdate := mkEntryUpdate {
  eu_id : string;
  eu_cheatsheet_id : string;
  eu_syntax : string;
  eu_category : string;
  eu_description : option string;
  eu_example : option string;
  eu_display_format : string;
  eu_language : string;
}.

(** The requests the hooks build with [supabaseClient.from(...)]. *)
Inductive SupabaseRequest :=
  | select_cheatsheets (user_id : string)
  | insert_cheatsheet (title description user_id : string)
  | update_cheatsheet_deleted_at (id : string) (deleted_at : option string)
  | delete_cheatsheet (id : string)
  | select_cheatsheet_single (id : string)
  | select_entries (cheatsheet_id : string)
  | insert_entry (entry : NewEntry)
  | update_entry (entry : EntryUpdate)
  | update_entry_position (id : string) (position : Z)
  | delete_entry (id : string)
  | delete_entries_of (cheatsheet_id : string).

Inductive Data :=
  | null
  | cheatsheet_rows (rows : list LocalCheatsheet.t)
  | cheatsheet_row (row : LocalCheatsheet.t)
  | entry_rows (rows : list LocalSyntaxEntry.t)
  | entry_row (row : LocalSyntaxEntry.t).

(** [{ data, error }] *)
Record PostgrestResponse := mkResponse { data : Data; error : option string }.

(** ** The hooks *)

Inductive View := active | trash.

Section Hooks.
(** The hosted backend: its state and its answer to each request. *)
Context {Server : Type}.
Context (supabase : SupabaseRequest → Server → Server * PostgrestResponse).
(** [new Date(s).getTime()] *)
Context (getTime : string → Z).

Record World := mkWorld { local : LocalDB; remote : Server }.

(** The result of an awaited operation: resolved with a value, or rejected
    with the error that was thrown.  Both carry the state reached. *)
Inductive Outcome (A : Type) :=
  | Resolved (w : World) (a : A)
  | Rejected (w : World) (e : string).
Global Arguments Resolved {A} w a.
Global Arguments Rejected {A} w e.

Definition Async (A : Type) : Type := World → Outcome A.

#[local] Instance Async_ret : MRet Async := λ A a w, Resolved w a.
#[local] Instance Async_bind : MBind Async := λ A B k m w,
  match m w with
  | Resolved w' a => k a w'
  | Rejected w' e => Rejected w' e
  end.

Definition throw {A} (e : string) : Async A := λ w, Rejected w e.

(** One request to the hosted backend. *)
Definition request (r : SupabaseRequest) : Async PostgrestResponse := λ w,
  let '(s, resp) := supabase r (remote w) in
  Resolved (mkWorld (local w) s) resp.

(** One read-only transaction on the Local Store. *)
Definition idb_read {A} (f : LocalDB → A) : Async A := λ w,
  Resolved w (f (local w)).

(** One read-write transaction on the Local Store. *)
Definition idb_write (f : LocalDB → LocalDB) : Async unit := λ w,
  Resolved (mkWorld (f (local w)) (remote w)) tt.

(** [for (const x of l) { await body(x) }] *)
Fixpoint for_of {A} (l : list A) (body : A → Async unit) : Async unit :=
  match l with
  | [] => mret tt
  | x :: xs => body x ;; for_of xs body
  end.

Import AppContext.

(** [mode === "cloud" && supabaseClient] *)
Definition cloud_client (ctx : AppContextType) : bool :=
  bool_decide (ctx_mode ctx = cloud) && bool_decide (is_Some (supabaseClient ctx)).

(** *** hooks/useCheatsheets.ts *)

(** [c.deleted_at !== null] for the trash view, [c.deleted_at === null]
    for the active view. *)
Definition in_view (view : View) (c : LocalCheatsheet.t) : Prop :=
  match view with
  | trash => LocalCheatsheet.deleted_at c ≠ None
  | active => LocalCheatsheet.deleted_at c = None
  end.

#[global] Instance in_view_dec view c : Decision (in_view view c).
Proof. destruct view; simpl; apply _. Defined.

Definition useCheatsheets (ctx : AppContextType) (view : View)
  : Async (list LocalCheatsheet.t) :=
  match ctx_mode ctx, supabaseClient ctx, user ctx with
  | cloud, Some _, Some u =>
      resp ← request (select_cheatsheets (user_id u));
      match error resp with
      | Some e => throw e
      | None =>
          mret (match data resp with
                | cheatsheet_rows rows => filter (in_view view) rows
                | _ => []
                end)
      end
  | _, _, _ =>
      localCheatsheets ← idb_read cheatsheetsDB.getAll;
      let sorted :=
        Array_sort (λ a b, getTime (LocalCheatsheet.created_at b)
                           - getTime (LocalCheatsheet.created_at a))
                   localCheatsheets in
      mret (filter (in_view view) sorted)
  end.

Definition useCreateCheatsheet (ctx : AppContextType)
    (title description : string) (new_id created_now updated_now : string)
  : Async (option LocalCheatsheet.t) :=
  match ctx_mode ctx, supabaseClient ctx, user ctx with
  | cloud, Some _, Some u =>
      resp ← request (insert_cheatsheet title description (user_id u));
      match error resp with
      | Some e => throw e
      | None =>
          mret (match data resp with cheatsheet_row c => Some c | _ => None end)
      end
  | _, _, _ =>
      let newCheatsheet :=
        LocalCheatsheet.mk new_id title (Some description)
                           created_now updated_now None in
      idb_write (cheatsheetsDB.put newCheatsheet);;
      mret (Some newCheatsheet)
  end.

Definition useSoftDeleteCheatsheet (ctx : AppContextType) (id now : string)
  : Async unit :=
  if cloud_client ctx then
    resp ← request (update_cheatsheet_deleted_at id (Some now));
    match error resp with Some e => throw e | None => mret tt end
  else
    cheatsheet ← idb_read (cheatsheetsDB.get id);
    match cheatsheet with
    | Some c =>
        idb_write (cheatsheetsDB.put
                     (LocalCheatsheet.with_deleted_at c (Some now)))
    | None => mret tt
    end.

Definition useRestoreCheatsheet (ctx : AppContextType) (id : string)
  : Async unit :=
  if cloud_client ctx then
    resp ← request (update_cheatsheet_deleted_at id None);
    match error resp with Some e => throw e | None => mret tt end
  else
    cheatsheet ← idb_read (cheatsheetsDB.get id);
    match cheatsheet with
    | Some c =>
        idb_write (cheatsheetsDB.put (LocalCheatsheet.with_deleted_at c None))
    | None => mret tt
    end.

(** The answer to the first request is not inspected. *)
Definition usePermanentDeleteCheatsheet (ctx : AppContextType) (id : string)
  : Async unit :=
  if cloud_client ctx then
    request (delete_entries_of id);;
    resp ← request (delete_cheatsheet id);
    match error resp with Some e => throw e | None => mret tt end
  else purge_local (@idb_read) idb_write id.

Definition useCheatsheet (ctx : AppContextType) (id : string)
  : Async (option LocalCheatsheet.t) :=
  if cloud_client ctx then
    resp ← request (select_cheatsheet_single id);
    match error resp with
    | Some e => throw e
    | None =>
        mret (match data resp with cheatsheet_row c => Some c | _ => None end)
    end
  else idb_read (cheatsheetsDB.get id).

(** *** hooks/useSyntaxEntries.ts *)

Definition by_position (a b : LocalSyntaxEntry.t) : Z :=
  LocalSyntaxEntry.position a - LocalSyntaxEntry.position b.

Definition useSyntaxEntries (ctx : AppContextType) (cheatsheetId : string)
  : Async (list LocalSyntaxEntry.t) :=
  if cloud_client ctx then
    resp ← request (select_entries cheatsheetId);
    match error resp with
    | Some e => throw e
    | None => mret (match data resp with entry_rows rows => rows | _ => [] end)
    end
  else
    entries ← idb_read (entriesDB.getByCheatsheetId cheatsheetId);
    mret (Array_sort by_position entries).

Definition useCreateEntry (ctx : AppContextType) (entry : NewEntry)
    (new_id created_now updated_now : string)
  : Async (option LocalSyntaxEntry.t) :=
  if cloud_client ctx then
    resp ← request (insert_entry entry);
    match error resp with
    | Some e => throw e
    | None => mret (match data resp with entry_row r => Some r | _ => None end)
    end
  else
    let newEntry :=
      LocalSyntaxEntry.mk new_id (ne_cheatsheet_id entry) (ne_syntax entry)
        (ne_category entry) (ne_description entry) (ne_example entry) None
        (ne_display_format entry) (ne_language entry) (ne_position entry)
        created_now updated_now in
    idb_write (entriesDB.put newEntry);;
    mret (Some newEntry).

(** [{ ...existing, ...entry, updated_at: now }] *)
Definition apply_update (existing : LocalSyntaxEntry.t) (entry : EntryUpdate)
    (now : string) : LocalSyntaxEntry.t :=
  LocalSyntaxEntry.mk (eu_id entry) (eu_cheatsheet_id entry) (eu_syntax entry)
    (eu_category entry) (eu_description entry) (eu_example entry)
    (LocalSyntaxEntry.notes existing) (eu_display_format entry)
    (eu_language entry) (LocalSyntaxEntry.position existing)
    (LocalSyntaxEntry.created_at existing) now.

Definition useUpdateEntry (ctx : AppContextType) (entry : EntryUpdate)
    (now : string) : Async unit :=
  if cloud_client ctx then
    resp ← request (update_entry entry);
    match error resp with Some e => throw e | None => mret tt end
  else
    all ← idb_read entriesDB.getAll;
    match List.find (λ e, bool_decide (LocalSyntaxEntry.id e = eu_id entry)) all with
    | Some existing => idb_write (entriesDB.put (apply_update existing entry now))
    | None => mret tt
    end.

Definition useDeleteEntry (ctx : AppContextType) (id cheatsheet_id : string)
  : Async unit :=
  if cloud_client ctx then
    resp ← request (delete_entry id);
    match error resp with Some e => throw e | None => mret tt end
  else idb_write (entriesDB.delete id).

(** The cloud loop: one request per assignment, stopping at the first
    error. *)
Fixpoint reorder_cloud (entries : list (string * Z)) : Async unit :=
  match entries with
  | [] => mret tt
  | update :: rest =>
      resp ← request (update_entry_position update.1 update.2);
      match error resp with
      | Some e => throw e
      | None => reorder_cloud rest
      end
  end.

Definition useReorderEntries (ctx : AppContextType) (cheatsheet_id : string)
    (entries : list (string * Z)) : Async unit :=
  if cloud_client ctx then reorder_cloud entries
  else
    all ← idb_read entriesDB.getAll;
    let positionMap := Map_new entries in
    for_of all (λ entry,
      match positionMap !! LocalSyntaxEntry.id entry with
      | Some p => idb_write (entriesDB.put (LocalSyntaxEntry.with_position entry p))
      | None => mret tt
      end).

(** *** components/CheatsheetEditor.tsx *)

(** [Array.prototype.splice]'s clamping of its start index. *)
Definition splice_start (len start : Z) : nat :=
  Z.to_nat (if start <? 0 then Z.max (len + start) 0 else Z.min start len).

(** [arrayMove] of @dnd-kit/sortable:
    [newArray.splice(to < 0 ? newArray.length + to : to, 0,
                     newArray.splice(from, 1)[0])].
    [None] when nothing is removed at [from], in which case the library
    inserts [undefined]. *)
Definition arrayMove {A} (array : list A) (from to : Z) : option (list A) :=
  let len := Z.of_nat (length array) in
  let to' := if to <? 0 then len + to else to in
  let i := splice_start len from in
  match array !! i with
  | Some x =>
      let rest := (take i array ++ drop (S i) array)%list in
      let j := splice_start (len - 1) to' in
      Some (take j rest ++ x :: drop j rest)%list
  | None => None
  end.

(** [reorderedEntries.map((entry, index) => ({ id: entry.id, position: index }))] *)
Definition dense_updates (reordered : list LocalSyntaxEntry.t)
  : list (string * Z) :=
  imap (λ index entry, (LocalSyntaxEntry.id entry, Z.of_nat index)) reordered.

(** [handleDragEnd]: [entries] is the data of the [useSyntaxEntries] query
    ([None] while it is undefined), [over] the drop target if any.  The
    result is the argument passed to [reorderMutation.mutate], if it is
    called.  Reading [entry.id] of an inserted [undefined] throws, so no
    mutation is issued then. *)
Definition handleDragEnd (entries : option (list LocalSyntaxEntry.t))
    (active_id : string) (over : option string)
  : option (list (string * Z)) :=
  match over, entries with
  | Some over_id, Some entries =>
      if bool_decide (active_id ≠ over_id) then
        let oldIndex :=
          findIndex (λ e, bool_decide (LocalSyntaxEntry.id e = active_id)) entries in
        let newIndex :=
          findIndex (λ e, bool_decide (LocalSyntaxEntry.id e = over_id)) entries in
        dense_updates <$> arrayMove entries oldIndex newIndex
      else None
  | _, _ => None
  end.

(** [String.prototype.trim] leaves nothing: every character is white
    space or a line terminator.  Strings are UTF-8 byte strings, so the
    characters beyond ASCII are recognised by their encodings: U+00A0,
    U+1680, U+2000 to U+200A, U+2028, U+2029, U+202F, U+205F, U+3000 and
    U+FEFF. *)
Definition is_white (a : ascii) : bool :=
  let n := N_of_ascii a in
  ((9 <=? n) && (n <=? 13) || (n =? 32))%N.

Definition is_white2 (a b : ascii) : bool :=
  ((N_of_ascii a =? 194) && (N_of_ascii b =? 160))%N.

Definition is_white3 (a b c : ascii) : bool :=
  let '(x, y, z) := (N_of_ascii a, N_of_ascii b, N_of_ascii c) in
  ((x =? 225) && (y =? 154) && (z =? 128)
   || (x =? 226) && (y =? 128)
      && ((128 <=? z) && (z <=? 138) || (z =? 168) || (z =? 169) || (z =? 175))
   || (x =? 226) && (y =? 129) && (z =? 159)
   || (x =? 227) && (y =? 128) && (z =? 128)
   || (x =? 239) && (y =? 187) && (z =? 191))%N.

Fixpoint trim_empty (s : string) : bool :=
  match s with
  | EmptyString => true
  | String a rest =>
      if is_white a then trim_empty rest
      else
        match rest with
        | String b rest2 =>
            if is_white2 a b then trim_empty rest2
            else
              match rest2 with
              | String c rest3 => is_white3 a b c && trim_empty rest3
              | EmptyString => false
              end
        | EmptyString => false
        end
  end.

(** [entries?.reduce((max, entry) => Math.max(max, entry.position || 0), -1) ?? -1] *)
Definition maxPosition (entries : option (list LocalSyntaxEntry.t)) : Z :=
  match entries with
  | Some entries =>
      foldl (λ max entry, Z.max max (num_or_zero (LocalSyntaxEntry.position entry)))
            (-1) entries
  | None => -1
  end.

(** The form fields of the "add entry" dialog. *)
Record EntryForm := mkForm {
  f_syntax : string;
  f_category : string;
  f_description : string;
  f_example : string;
  f_displayFormat : string;
  f_language : string;
}.

(** [handleSaveEntry]: returns [false], creating nothing, when the syntax
    or the category is blank. *)
Definition handleSaveEntry (ctx : AppContextType) (cheatsheetId : string)
    (entries : option (list LocalSyntaxEntry.t)) (form : EntryForm)
    (new_id created_now updated_now : string) : Async bool :=
  if trim_empty (f_syntax form) || trim_empty (f_category form) then
    mret false
  else
    useCreateEntry ctx
      (mkNewEntry cheatsheetId (f_syntax form) (f_category form)
         (Some (f_description form)) (Some (f_example form))
         (f_displayFormat form) (f_language form)
         (Number_add (maxPosition entries) 1))
      new_id created_now updated_now;;
    mret true.
End Hooks.

(** ** Runs of a Local Store program that are cut short *)







(** ** hooks/useAIGenerate.ts *)

Module AIGenerate.
Record GenerateParams := mkParams {
  syntax : string;
  category : string;
  customPrompt : option string;
  displayFormat : string;
  language : string;
}.

Record GenerateResult := mkResult {
  r_description : string;
  r_example : string;
  r_language : string;
}.

(** What [toast] was called with. *)
Record Toast := mkToast { toast_title : string; toast_description : string }.

(** The outcome of the single [fetch]: a 2xx response whose body holds the
    text [data.candidates?.[0]?.content?.parts?.[0]?.text] (if present), a
    non-2xx response with its status and [errorData.error?.message], or a
    rejected request (or a body that is not JSON) with the error's message. *)
Inductive FetchOutcome :=
  | response_ok (text : option string)
  | response_not_ok (status : Z) (message : option string)
  | fetch_failed (message : string).

(** The fields read from the object returned by [JSON.parse]. *)
Record Parsed := mkParsed {
  p_description : option string;
  p_example : option string;
  p_language : option string;
}.

(** The longest prefix of [s] that ends with a closing brace. *)
Fixpoint upto_last_close (s : string) : option string :=
  match s with
  | EmptyString => None
  | String a rest =>
      match upto_last_close rest with
      | Some m => Some (String a m)
      | None => if decide (a = "}"%char) then Some (String a EmptyString) else None
      end
  end.

(** [content.match(/\{[\s\S]*\}/)]: the leftmost opening brace that is
    followed by a closing brace, up to the last closing brace. *)
Fixpoint match_braces (content : string) : option string :=
  match content with
  | EmptyString => None
  | String a rest =>
      if decide (a = "{"%char) then String a <$> upto_last_close rest
      else match_braces rest
  end.

Definition ai_error (message : string) : option GenerateResult * option Toast :=
  (None, Some (mkToast "AI Error" (str_or message "Failed to generate content"))).

Section generate.
(** [JSON.parse]: the parsed object, or the message of the [SyntaxError]. *)
Context (JSON_parse : string → Parsed + string).

(** [generate]: the returned value and the toast shown, if any.  The
    prompt text only determines what the provider answers, which is the
    [fetch] argument here. *)
Definition generate (hasGemini : bool) (params : GenerateParams)
    (fetch : FetchOutcome) : option GenerateResult * option Toast :=
  if negb hasGemini then
    (None, Some (mkToast "AI not configured"
       "Please add your Gemini API key in Settings to use AI features."))
  else
    match fetch with
    | fetch_failed message => ai_error message
    | response_not_ok status message =>
        if status =? 429 then
          ai_error "Rate limit exceeded. Please try again later."
        else
          ai_error (str_or (default "" message)
                           ("API error: " +:+ pretty status))
    | response_ok text =>
        let content := str_or (default "" text) "" in
        match match_braces content with
        | Some block =>
            match JSON_parse block with
            | inl parsed =>
                (Some (mkResult
                   (str_or (default "" (p_description parsed)) "")
                   (str_or (default "" (p_example parsed)) "")
                   (str_or (default "" (p_language parsed))
                           (str_or (language params) "javascript"))), None)
            | inr message => ai_error message
            end
        | None =>
            (Some (mkResult content "" (str_or (language params) "javascript")),
             None)
        end
    end.
End generate.

(** A brace-delimited block: an opening brace with a closing brace
    somewhere after it. *)
Definition has_brace_block (s : string) : Prop :=
  ∃ pre mid suf : string, s = pre +:+ "{" +:+ mid +:+ "}" +:+ suf.
End AIGenerate.

(** ** Concrete environments used in the examples *)

(** A backend that cannot be reached. *)
Definition unreachable (r : SupabaseRequest) (s : unit) : unit * PostgrestResponse :=
  (s, mkResponse null (Some "Failed to fetch")).

(** ISO 8601 UTC timestamps of equal length are ordered like the number
    spelled by their digits. *)
Fixpoint digits_value (acc : Z) (s : string) : Z :=
  match s with
  | EmptyString => acc
  | String a rest =>
      let n := Z.of_N (N_of_ascii a) in
      if (48 <=? n) && (n <=? 57) then digits_value (10 * acc + (n - 48)) rest
      else digits_value acc rest
  end.
Definition iso_time (s : string) : Z := digits_value 0 s.

(** The state of the provider once the (empty) stored configuration has
    been loaded, and the context it hands to the hooks. *)
Definition guest_state : AppContext.State :=
  AppContext.initClient (AppContext.loadConfig AppContext.initial emptyDB).

Definition guest_ctx : AppContext.AppContextType :=
  AppContext.mkCtx AppContext.guest defaultConfig None None false false.

(** The example of the specification: a cheatsheet "JS Basics" with the
    entries "Array.map()" at position 0 and "Array.filter()" at position 1. *)
Definition js_basics : LocalCheatsheet.t :=
  LocalCheatsheet.mk "c1" "JS Basics" (Some "")
    "2024-01-01T00:00:00.000Z" "2024-01-01T00:00:00.000Z" None.

Definition array_map : LocalSyntaxEntry.t :=
  LocalSyntaxEntry.mk "e1" "c1" "Array.map()" "Arrays" (Some "") (Some "") None
    "card" "javascript" 0
    "2024-01-02T00:00:00.000Z" "2024-01-02T00:00:00.000Z".

Definition array_filter : LocalSyntaxEntry.t :=
  LocalSyntaxEntry.mk "e2" "c1" "Array.filter()" "Arrays" (Some "") (Some "") None
    "card" "javascript" 1
    "2024-01-03T00:00:00.000Z" "2024-01-03T00:00:00.000Z".

Definition sample_db : LocalDB :=
  entriesDB.put array_filter
    (entriesDB.put array_map (cheatsheetsDB.put js_basics emptyDB)).

Definition sample_world : @World unit := mkWorld sample_db tt.

(** The assignment that puts "Array.filter()" first. *)
Definition filter_first : list (string * Z) := [("e2", 0); ("e1", 1)].

Definition later : string := "2024-06-01T12:00:00.000Z".

Definition new_entry_form : EntryForm :=
  mkForm "Array.reduce()" "Arrays" "" "" "card" "javascript".

(** A parser that rejects everything. *)
Definition no_json (s : string) : AIGenerate.Parsed + string :=
  inr "Unexpected token".

(** A backend that accepts every request and keeps the log of them. *)
Definition recording (r : SupabaseRequest) (log : list SupabaseRequest)
  : list SupabaseRequest * PostgrestResponse :=
  ((log ++ [r])%list, mkResponse null None).

(** The context of a signed-in cloud session. *)
Definition cloud_ctx : AppContext.AppContextType :=
  let config := mkAppConfig (Some "https://recap.supabase.co") (Some "anon-key") None in
  AppContext.mkCtx (AppContext.mode config) config
    (Some (AppContext.mkClient "https://recap.supabase.co" "anon-key"))
    (Some (AppContext.mkUser "u1")) false false.

(** The state an outcome was reached in. *)
Definition world_of {Server A} (o : @Outcome Server A) : @World Server :=
  match o with
  | Resolved w _ => w
  | Rejected w _ => w
  end.

(** ** Invariants of the Local Store *)

(** Every record sits under its own key path value: what an object store
    with an in-line key guarantees. *)
Definition keyed {T} (keyPath : T → string) (store : gmap string T) : Prop :=
  ∀ k x, store !! k = Some x → keyPath x = k.

Definition wf (db : LocalDB) : Prop :=
  keyed LocalCheatsheet.id (cheatsheets db) ∧
  keyed LocalSyntaxEntry.id (entries db).

(** Referential integrity: every entry's [cheatsheet_id] names a stored
    cheatsheet. *)
Definition no_orphans (db : LocalDB) : Prop :=
  ∀ k e, entries db !! k = Some e →
         is_Some (cheatsheets db !! LocalSyntaxEntry.cheatsheet_id e).

(** ** The guest reorder loop, one snapshot entry at a time *)

(** The record written for [entry], or [entry] itself when the position map
    does not list it. *)
Definition repositioned (positionMap : gmap string Z) (entry : LocalSyntaxEntry.t)
  : LocalSyntaxEntry.t :=
  match positionMap !! LocalSyntaxEntry.id entry with
  | Some p => LocalSyntaxEntry.with_position entry p
  | None => entry
  end.

(** The effect of one iteration on the Local Store. *)
Definition reorder_step (positionMap : gmap string Z) (db : LocalDB)
    (entry : LocalSyntaxEntry.t) : LocalDB :=
  match positionMap !! LocalSyntaxEntry.id entry with
  | Some p => entriesDB.put (LocalSyntaxEntry.with_position entry p) db
  | None => db
  end.

(** * More of the code *)

(** ** [String.prototype.trim] *)

(** [s.trimStart()]: leading white space and line terminators removed. *)
Fixpoint trimStart (s : string) : string :=
  match s with
  | EmptyString => EmptyString
  | String a rest =>
      if is_white a then trimStart rest
      else
        match rest with
        | String b rest2 =>
            if is_white2 a b then trimStart rest2
            else
              match rest2 with
              | String c rest3 =>
                  if is_white3 a b c then trimStart rest3 else s
              | EmptyString => s
              end
        | EmptyString => s
        end
  end.

(** [s.trimEnd()]: the longest suffix made of white space and line
    terminators removed. *)
Fixpoint trimEnd (s : string) : string :=
  match s with
  | EmptyString => EmptyString
  | String a rest => if trim_empty s then EmptyString else String a (trimEnd rest)
  end.

Definition trim (s : string) : string := trimEnd (trimStart s).

(** ** The client effect of [contexts/AppContext.tsx], with its failure path *)

(** The effect that runs when the credentials or [configLoaded] change.
    [createClient] returns the client or throws ([None]); the [catch]
    block then clears the client and ends the loading state. *)
Definition initClientWith
    (createClient : string → string → option AppContext.SupabaseClient)
    (s : AppContext.State) : AppContext.State :=
  let c := AppContext.st_config s in
  if AppContext.st_configLoaded s then
    if truthy (supabaseUrl c) && truthy (supabaseAnonKey c) then
      match createClient (default "" (supabaseUrl c))
                         (default "" (supabaseAnonKey c)) with
      | Some client =>
          AppContext.mkState c true (Some client) (AppContext.st_user s)
                             (AppContext.st_isLoading s)
      | None =>
          AppContext.mkState c true None (AppContext.st_user s) false
      end
    else AppContext.mkState c true None None false
  else s.

(** [client.auth.getSession().then(...)]: the stored session, if any, gives
    the user, and loading ends. *)
Definition sessionLoaded (session_user : option AppContext.User)
    (s : AppContext.State) : AppContext.State :=
  AppContext.mkState (AppContext.st_config s) (AppContext.st_configLoaded s)
    (AppContext.st_supabaseClient s) session_user false.

(** ** pages/Index.tsx *)

(** What [Index] renders; [banner] tells whether [GuestModeBanner] is
    shown above the list or the editor. *)
Inductive Screen :=
  | show_loading
  | show_auth
  | show_editor (banner : bool) (cheatsheetId : string)
  | show_list (banner : bool).

Definition Index (ctx : AppContext.AppContextType)
    (selectedCheatsheet : option string) : Screen :=
  if AppContext.isLoading ctx then show_loading
  else if bool_decide (AppContext.ctx_mode ctx = AppContext.cloud)
          && bool_decide (AppContext.user ctx = None) then show_auth
  else
    let banner := bool_decide (AppContext.ctx_mode ctx = AppContext.guest) in
    match selectedCheatsheet with
    | Some id => if truthy (Some id) then show_editor banner id
                 else show_list banner
    | None => show_list banner
    end.

(** ** components/SettingsModal.tsx *)

Module SettingsModal.
(** The input fields of the dialog. *)
Record Fields := mkFields {
  in_supabaseUrl : string;
  in_supabaseAnonKey : string;
  in_geminiApiKey : string;
}.

(** [useState(config.supabaseUrl || "")] and its two siblings. *)
Definition initialFields (c : AppConfig) : Fields :=
  mkFields (str_or (default "" (supabaseUrl c)) "")
           (str_or (default "" (supabaseAnonKey c)) "")
           (str_or (default "" (geminiApiKey c)) "").

Section handlers.
(** [new URL(s)] returns, rather than throws. *)
Context (URL_parses : string → bool).

Definition handleSaveSupabase (f : Fields) (s : AppContext.State)
  : AppContext.State * AIGenerate.Toast :=
  if trim_empty (in_supabaseUrl f) || trim_empty (in_supabaseAnonKey f) then
    (s, AIGenerate.mkToast "Missing credentials"
          "Please enter both Supabase URL and Anon Key.")
  else if negb (URL_parses (in_supabaseUrl f)) then
    (s, AIGenerate.mkToast "Invalid URL" "Please enter a valid Supabase URL.")
  else
    (AppContext.updateConfig
       (AppContext.mkPartial (Some (Some (trim (in_supabaseUrl f))))
                             (Some (Some (trim (in_supabaseAnonKey f)))) None) s,
     AIGenerate.mkToast "Supabase configured!" "Your app is now in Cloud Mode.").
End handlers.

Definition handleSaveGemini (f : Fields) (s : AppContext.State)
  : AppContext.State * AIGenerate.Toast :=
  if trim_empty (in_geminiApiKey f) then
    (s, AIGenerate.mkToast "Missing API key" "Please enter your Gemini API key.")
  else
    (AppContext.updateConfig
       (AppContext.mkPartial None None (Some (Some (trim (in_geminiApiKey f))))) s,
     AIGenerate.mkToast "Gemini API key saved!" "AI features are now enabled.").

Definition handleClearSupabase (f : Fields) (s : AppContext.State)
  : AppContext.State * Fields * AIGenerate.Toast :=
  (AppContext.updateConfig
     (AppContext.mkPartial (Some None) (Some None) None) s,
   mkFields "" "" (in_geminiApiKey f),
   AIGenerate.mkToast "Supabase disconnected" "Switched back to Guest Mode.").

Definition handleClearGemini (f : Fields) (s : AppContext.State)
  : AppContext.State * Fields * AIGenerate.Toast :=
  (AppContext.updateConfig (AppContext.mkPartial None None (Some None)) s,
   mkFields (in_supabaseUrl f) (in_supabaseAnonKey f) "",
   AIGenerate.mkToast "Gemini API key removed" "AI features are now disabled.").

Definition handleClearAll (s : AppContext.State) (db : LocalDB)
  : AppContext.State * LocalDB * Fields * AIGenerate.Toast :=
  (AppContext.clearConfig s db, mkFields "" "" "",
   AIGenerate.mkToast "All settings cleared" "Returned to default Guest Mode.").
End SettingsModal.

(** *** The database that [DATABASE_SETUP_SQL] sets up *)

(** The rows of [public.cheatsheets] and [public.syntax_entries] that the
    row level security policies let the signed-in user reach, by primary
    key; the clock of the server, which gives [now()] for each statement
    in turn, and the number of statements served so far. *)
Record Database := mkDatabase {
  tbl_cheatsheets : gmap string LocalCheatsheet.t;
  tbl_syntax_entries : gmap string LocalSyntaxEntry.t;
  db_clock : nat → string;
  db_served : nat;
}.

(** [now()] *)
Definition db_now (s : Database) : string := db_clock s (db_served s).

(** [position INTEGER] *)
Definition INTEGER (z : Z) : bool := (- 2 ^ 31 <=? z) && (z <? 2 ^ 31).

(** [update_updated_at_column()], which the trigger
    [update_syntax_entries_updated_at] runs [BEFORE UPDATE ... FOR EACH ROW]:
    [NEW.updated_at = now(); RETURN NEW]. *)
Definition update_updated_at_column (NEW : LocalSyntaxEntry.t) (now : string)
  : LocalSyntaxEntry.t :=
  LocalSyntaxEntry.mk (LocalSyntaxEntry.id NEW) (LocalSyntaxEntry.cheatsheet_id NEW)
    (LocalSyntaxEntry.syntax NEW) (LocalSyntaxEntry.category NEW)
    (LocalSyntaxEntry.description NEW) (LocalSyntaxEntry.example NEW)
    (LocalSyntaxEntry.notes NEW) (LocalSyntaxEntry.display_format NEW)
    (LocalSyntaxEntry.language NEW) (LocalSyntaxEntry.position NEW)
    (LocalSyntaxEntry.created_at NEW) now.

(** [DELETE FROM syntax_entries WHERE cheatsheet_id = ...], which is also
    what [REFERENCES public.cheatsheets(id) ON DELETE CASCADE] does when the
    cheatsheet row is deleted. *)
Definition delete_entries_where_cheatsheet_id (cheatsheet_id : string)
    (tbl : gmap string LocalSyntaxEntry.t) : gmap string LocalSyntaxEntry.t :=
  filter (λ kv, LocalSyntaxEntry.cheatsheet_id kv.2 ≠ cheatsheet_id) tbl.

(** The answers of this database that the script determines and the
    properties below need.  [.update({ position }).eq("id", id)], when the
    row is there and the position is an [INTEGER]: the column is set and the
    trigger fires.  [.delete().eq("cheatsheet_id", id)] on the entries and
    [.delete().eq("id", id)] on the cheatsheets, when the cheatsheet row is
    there: the rows are deleted, and with a cheatsheet its entries.  The
    response then carries neither rows nor an error.  Every other request,
    and these in the other cases, are left to [other]. *)
Definition hosted
    (other : SupabaseRequest → Database → Database * PostgrestResponse)
    (r : SupabaseRequest) (s : Database) : Database * PostgrestResponse :=
  match r with
  | delete_entries_of cheatsheet_id =>
      match tbl_cheatsheets s !! cheatsheet_id with
      | Some _ =>
          (mkDatabase (tbl_cheatsheets s)
             (delete_entries_where_cheatsheet_id cheatsheet_id
                (tbl_syntax_entries s))
             (db_clock s) (S (db_served s)),
           mkResponse null None)
      | None => other r s
      end
  | delete_cheatsheet id =>
      match tbl_cheatsheets s !! id with
      | Some _ =>
          (mkDatabase (delete id (tbl_cheatsheets s))
             (delete_entries_where_cheatsheet_id id (tbl_syntax_entries s))
             (db_clock s) (S (db_served s)),
           mkResponse null None)
      | None => other r s
      end
  | update_entry_position id position =>
      match tbl_syntax_entries s !! id with
      | Some row =>
          if INTEGER position then
            (mkDatabase (tbl_cheatsheets s)
               (<[id := update_updated_at_column
                          (LocalSyntaxEntry.with_position row position)
                          (db_now s)]> (tbl_syntax_entries s))
               (db_clock s) (S (db_served s)),
             mkResponse null None)
          else other r s
      | None => other r s
      end
  | _ => other r s
  end.

(** A connection that loses the requests selected by [lost]: they do not
    reach the backend, and the client reports the failed fetch. *)
Definition lossy {S} (lost : SupabaseRequest → bool)
    (backend : SupabaseRequest → S → S * PostgrestResponse)
    (r : SupabaseRequest) (s : S) : S * PostgrestResponse :=
  if lost r then (s, mkResponse null (Some "Failed to fetch")) else backend r s.

(** ** The configuration over the life of the app *)

(** The [catch] of the mount effect, when [configDB.get()] rejects:
    [setConfigLoaded(true)]. *)
Definition loadConfig_failed (s : AppContext.State) : AppContext.State :=
  AppContext.mkState (AppContext.st_config s) true
    (AppContext.st_supabaseClient s) (AppContext.st_user s)
    (AppContext.st_isLoading s).

(** What changes the configuration, in the state of [AppProvider] or in the
    Local Store: a mount of the provider (a page load), its two
    configuration effects, and the handlers of the settings dialog, which
    are the only callers of [updateConfig] and [clearConfig]. *)
Inductive ConfigEvent :=
  | ev_mount
  | ev_loadConfig
  | ev_loadConfig_failed
  | ev_persistConfig
  | ev_saveSupabase (f : SettingsModal.Fields)
  | ev_saveGemini (f : SettingsModal.Fields)
  | ev_clearSupabase (f : SettingsModal.Fields)
  | ev_clearGemini (f : SettingsModal.Fields)
  | ev_clearAll.

Definition config_event (URL_parses : string → bool)
    (sd : AppContext.State * LocalDB) (ev : ConfigEvent)
  : AppContext.State * LocalDB :=
  let '(s, db) := sd in
  match ev with
  | ev_mount => (AppContext.initial, db)
  | ev_loadConfig => (AppContext.loadConfig s db, db)
  | ev_loadConfig_failed => (loadConfig_failed s, db)
  | ev_persistConfig => (s, AppContext.persistConfig s db)
  | ev_saveSupabase f => ((SettingsModal.handleSaveSupabase URL_parses f s).1, db)
  | ev_saveGemini f => ((SettingsModal.handleSaveGemini f s).1, db)
  | ev_clearSupabase f => ((SettingsModal.handleClearSupabase f s).1.1, db)
  | ev_clearGemini f => ((SettingsModal.handleClearGemini f s).1.1, db)
  | ev_clearAll => (SettingsModal.handleClearAll s db).1.1
  end.

(** The state and the store after a sequence of such events, from the first
    mount on a store that holds no configuration yet. *)
Definition config_trace (URL_parses : string → bool)
    (cheatsheets : gmap string LocalCheatsheet.t)
    (entries : gmap string LocalSyntaxEntry.t) (evs : list ConfigEvent)
  : AppContext.State * LocalDB :=
  foldl (config_event URL_parses)
        (AppContext.initial, mkLocalDB cheatsheets entries ∅) evs.

(** ** More of [components/CheatsheetEditor.tsx] *)

(** The state set by [handleEdit]: the entry being edited and the fields of
    the edit dialog. *)
Record EditForm := mkEditForm {
  editingEntry : LocalSyntaxEntry.t;
  editSyntax : string;
  editCategory : string;
  editDisplayFormat : string;
  editLanguage : string;
  editDescription : string;
  editExample : string;
}.

Definition handleEdit (entry : LocalSyntaxEntry.t) : EditForm :=
  mkEditForm entry
    (LocalSyntaxEntry.syntax entry)
    (LocalSyntaxEntry.category entry)
    (str_or (LocalSyntaxEntry.display_format entry) "card")
    (str_or (LocalSyntaxEntry.language entry) "javascript")
    (str_or (default "" (LocalSyntaxEntry.description entry)) "")
    (str_or (default "" (LocalSyntaxEntry.example entry)) "").

Section Editor.
Context {Server : Type}.
Context (supabase : SupabaseRequest → Server → Server * PostgrestResponse).
#[local] Existing Instances Async_ret Async_bind.

(** [handleSaveEdit]: returns [false], updating nothing, when the syntax or
    the category is blank. *)
Definition handleSaveEdit (ctx : AppContext.AppContextType)
    (cheatsheetId : string) (form : EditForm) (now : string) : Async bool :=
  if trim_empty (editSyntax form) || trim_empty (editCategory form) then
    mret false
  else
    useUpdateEntry supabase ctx
      (mkEntryUpdate (LocalSyntaxEntry.id (editingEntry form)) cheatsheetId
         (editSyntax form) (editCategory form)
         (Some (editDescription form)) (Some (editExample form))
         (editDisplayFormat form) (editLanguage form))
      now;;
    mret true.

Definition handleDeleteEntry (ctx : AppContext.AppContextType)
    (cheatsheetId id : string) : Async unit :=
  useDeleteEntry supabase ctx id cheatsheetId.
End Editor.

(** [new Set(values)]: the distinct values in the order of their first
    occurrence. *)
Definition Set_new (values : list string) : list string :=
  foldl (λ s x, if decide (x ∈ s) then s else (s ++ [x])%list) [] values.

(** [existingCategories]; [compare] is the default comparator of
    [Array.prototype.sort], the order of strings by UTF-16 code units. *)
Definition existingCategories (compare : string → string → Z)
    (entries : option (list LocalSyntaxEntry.t)) : list string :=
  Array_sort compare
    (Set_new (LocalSyntaxEntry.category <$> default [] entries)).

(** [groupedEntries]: the [reduce] into an object literal.  [inherited k]
    tells whether [k] names a property that [{}] inherits from
    [Object.prototype]; such a value is truthy and has no [push], so the
    callback throws ([None]). *)
Definition groupedEntries (inherited : string → bool)
    (entries : list LocalSyntaxEntry.t)
  : option (gmap string (list LocalSyntaxEntry.t)) :=
  foldl (λ acc entry,
    acc ← acc;
    let k := LocalSyntaxEntry.category entry in
    match acc !! k with
    | Some group => Some (<[k := (group ++ [entry])%list]> acc)
    | None => if inherited k then None else Some (<[k := [entry]]> acc)
    end) (Some ∅) entries.

(** The three blocks rendered for a category. *)
Definition cardEntries (categoryEntries : list LocalSyntaxEntry.t)
  : list LocalSyntaxEntry.t :=
  filter (λ e, LocalSyntaxEntry.display_format e = "card"
               ∨ LocalSyntaxEntry.display_format e = "") categoryEntries.

Definition tableEntries (categoryEntries : list LocalSyntaxEntry.t)
  : list LocalSyntaxEntry.t :=
  filter (λ e, LocalSyntaxEntry.display_format e = "table") categoryEntries.

Definition compactEntries (categoryEntries : list LocalSyntaxEntry.t)
  : list LocalSyntaxEntry.t :=
  filter (λ e, LocalSyntaxEntry.display_format e = "compact") categoryEntries.

(** *** The token builder of [highlightSyntax] *)

Inductive TokenType := tok_keyword | tok_string | tok_comment | tok_number | tok_default.

(** A match pushed by one of the four [exec] loops. *)
Record Match := mkMatch { m_index : Z; m_length : Z; m_type : TokenType }.

Section tokens.
(** The code units of a string. *)
Context {C : Type}.

Record Token := mkToken { text : list C; type : TokenType }.

(** [s.substring(a, b)] *)
Definition substring (s : list C) (a b : Z) : list C :=
  let len := Z.of_nat (length s) in
  let a' := Z.min (Z.max a 0) len in
  let b' := Z.min (Z.max b 0) len in
  let from := Z.min a' b' in
  let to := Z.max a' b' in
  take (Z.to_nat (to - from)) (drop (Z.to_nat from) s).

(** The [forEach] over the sorted matches: the tokens pushed so far and
    [lastIndex]. *)
Definition token_step (wrappedLine : list C) (st : list Token * Z) (m : Match)
  : list Token * Z :=
  let '(tokens, lastIndex) := st in
  let tokens :=
    if lastIndex <? m_index m
    then (tokens ++ [mkToken (substring wrappedLine lastIndex (m_index m))
                             tok_default])%list
    else tokens in
  ((tokens ++ [mkToken (substring wrappedLine (m_index m)
                                  (m_index m + m_length m)) (m_type m)])%list,
   m_index m + m_length m).

Definition buildTokens (wrappedLine : list C) (matches : list Match)
  : list Token :=
  let sorted := Array_sort (λ a b, m_index a - m_index b) matches in
  let '(tokens, lastIndex) := foldl (token_step wrappedLine) ([], 0) sorted in
  let tokens :=
    if lastIndex <? Z.of_nat (length wrappedLine)
    then (tokens ++ [mkToken (substring wrappedLine lastIndex
                                (Z.of_nat (length wrappedLine))) tok_default])%list
    else tokens in
  if bool_decide (tokens = []) then [mkToken wrappedLine tok_default] else tokens.
End tokens.

(** ** components/CheatsheetList.tsx *)

Section CheatsheetList.
Context {Server : Type}.
Context (supabase : SupabaseRequest → Server → Server * PostgrestResponse).
(** The message of the [TypeError] raised by reading [data.id] of [null]. *)
Context (TypeError_message : string).
#[local] Existing Instances Async_ret Async_bind.

(** [handleCreate]: the id handed to [onSelectCheatsheet], if any, and the
    toasts shown, in order.  The rejection of the mutation is caught.  When
    the mutation resolves with [null], "Cheatsheet created!" has been shown
    by the time reading [data.id] throws; that error is caught as well. *)
Definition handleCreate (ctx : AppContext.AppContextType)
    (title description : string) (new_id created_now updated_now : string)
  : Async (option string * list AIGenerate.Toast) :=
  if trim_empty title then
    mret (None, [AIGenerate.mkToast "Title required"
                   "Please enter a title for your cheatsheet."])
  else λ w,
    let created := AIGenerate.mkToast "Cheatsheet created!"
                                      "Start adding syntax entries." in
    match useCreateCheatsheet supabase ctx title description
                              new_id created_now updated_now w with
    | Resolved w' (Some data) =>
        Resolved w' (Some (LocalCheatsheet.id data), [created])
    | Resolved w' None =>
        Resolved w' (None, [created; AIGenerate.mkToast "Error" TypeError_message])
    | Rejected w' e => Resolved w' (None, [AIGenerate.mkToast "Error" e])
    end.

End CheatsheetList.

(** *** The line wrapping of [highlightSyntax] *)

(** A string is truthy when it is not empty; so is the [length] of an
    array. *)
Definition nonempty {A} (s : list A) : bool :=
  match s with [] => false | _ => true end.

Section wrapping.
(** The code units of a string, with the space among them. *)
Context {C : Type} `{EqDecision C} (space : C).
(** [doc.getTextWidth(s) > maxCodeWidth] *)
Context (too_wide : list C → bool).
(** [!line.trim()] *)
Context (blank : list C → bool).

(** [s.split(sep)] for a separator of one code unit. *)
Fixpoint split (sep : C) (s : list C) : list (list C) :=
  match s with
  | [] => [[]]
  | c :: rest =>
      if decide (c = sep) then [] :: split sep rest
      else match split sep rest with
           | segment :: segments => (c :: segment) :: segments
           | [] => [[c]]
           end
  end.

(** One round of the loop over the code units of a segment that is too
    wide: the wrapped lines and [charLine]. *)
Definition char_step (st : list (list C) * list C) (c : C)
  : list (list C) * list C :=
  let '(wrappedLines, charLine) := st in
  let testChar := (charLine ++ [c])%list in
  if too_wide testChar && nonempty charLine
  then ((wrappedLines ++ [charLine])%list, [c])
  else (wrappedLines, testChar).

(** One round of [segments.forEach]: the wrapped lines and [currentLine];
    [last] tells whether [idx === segments.length - 1]. *)
Definition segment_step (st : list (list C) * list C) (segment : list C)
    (last : bool) : list (list C) * list C :=
  let '(wrappedLines, currentLine) := st in
  let '(wrappedLines, currentLine) :=
    if too_wide segment then
      let '(wrappedLines, currentLine) :=
        if nonempty currentLine
        then ((wrappedLines ++ [currentLine])%list, [])
        else (wrappedLines, currentLine) in
      let '(wrappedLines, charLine) :=
        foldl char_step (wrappedLines, []) segment in
      (wrappedLines, if nonempty charLine then charLine else currentLine)
    else
      let testLine :=
        (currentLine ++ (if nonempty currentLine then [space] else [])
                     ++ segment)%list in
      if too_wide testLine && nonempty currentLine
      then ((wrappedLines ++ [currentLine])%list, segment)
      else (wrappedLines, testLine) in
  if last && nonempty currentLine
  then ((wrappedLines ++ [currentLine])%list, currentLine)
  else (wrappedLines, currentLine).

Fixpoint segments_loop (st : list (list C) * list C)
    (segments : list (list C)) : list (list C) * list C :=
  match segments with
  | [] => st
  | [segment] => segment_step st segment true
  | segment :: rest => segments_loop (segment_step st segment false) rest
  end.

(** The lines drawn for one line of code. *)
Definition wrapLine (line : list C) : list (list C) :=
  let wrappedLines := (segments_loop ([], []) (split space line)).1 in
  let wrappedLines :=
    if negb (nonempty wrappedLines) && negb (blank line)
    then [line] else wrappedLines in
  if negb (nonempty wrappedLines) then [[]] else wrappedLines.
End wrapping.

(** ** More concrete environments *)

(** A backend that logs every request and reports an error for those
    selected by [fails]. *)
Definition flaky (fails : SupabaseRequest → bool) (r : SupabaseRequest)
    (log : list SupabaseRequest) : list SupabaseRequest * PostgrestResponse :=
  ((log ++ [r])%list,
   mkResponse null (if fails r then Some "permission denied" else None)).

(** The property names every object inherits from [Object.prototype]. *)
Definition Object_prototype (k : string) : bool :=
  bool_decide (k ∈ ["constructor"; "__proto__"; "hasOwnProperty";
                    "isPrototypeOf"; "propertyIsEnumerable"; "toLocaleString";
                    "toString"; "valueOf"; "__defineGetter__";
                    "__defineSetter__"; "__lookupGetter__"; "__lookupSetter__"]).

(** A backend whose row "e2" is read-only. *)
Definition e2_locked (r : SupabaseRequest) : bool :=
  match r with
  | update_entry_position id _ => bool_decide (id = "e2")
  | _ => false
  end.

(** The edit dialog opened on "Array.map()", with a longer syntax typed in. *)
Definition edited_map : EditForm :=
  mkEditForm array_map "Array.prototype.map()" "Arrays" "card" "javascript" "" "".

(** The line [const x = 1] and what the keyword and number patterns find in
    it, in the order the loops push them. *)
Definition const_line : list ascii := String.list_ascii_of_string "const x = 1".

Definition const_matches : list Match :=
  [mkMatch 0 5 tok_keyword; mkMatch 10 1 tok_number].

(** No answer comes back, whatever the request. *)
Definition no_answer {S} (r : SupabaseRequest) (s : S) : S * PostgrestResponse :=
  (s, mkResponse null (Some "Failed to fetch")).

(** The example in the hosted database, as the setup script stores it, some
    months before [now()]. *)
Definition hosted_basics : LocalCheatsheet.t :=
  LocalCheatsheet.mk "0b6e1c9a-52d4-4f7e-8a31-9c2d4e6f8a10" "JS Basics" (Some "")
    "2024-01-01T00:00:00+00:00" "2024-01-01T00:00:00+00:00" None.

Definition hosted_map : LocalSyntaxEntry.t :=
  LocalSyntaxEntry.mk "7d8f2a64-3c1b-4e59-9a06-5b1c2d3e4f50"
    "0b6e1c9a-52d4-4f7e-8a31-9c2d4e6f8a10" "Array.map()" "Arrays"
    (Some "") (Some "") None "card" "javascript" 0
    "2024-01-02T00:00:00+00:00" "2024-01-02T00:00:00+00:00".

Definition hosted_db : Database :=
  mkDatabase {[ LocalCheatsheet.id hosted_basics := hosted_basics ]}
             {[ LocalSyntaxEntry.id hosted_map := hosted_map ]}
             (λ n, nth n ["2024-06-01T12:00:00+00:00";
                          "2024-06-01T12:00:01+00:00"]
                         "2024-06-01T12:00:02+00:00")
             0.

(** The example once "Array.reduce()" has been added from a list read
    before "Array.filter()" was (so that both are at position 1), with a
    second cheatsheet created at the same instant as the first. *)
Definition array_reduce : LocalSyntaxEntry.t :=
  LocalSyntaxEntry.mk "e3" "c1" "Array.reduce()" "Arrays" (Some "") (Some "") None
    "card" "javascript" 1 later later.

Definition py_basics : LocalCheatsheet.t :=
  LocalCheatsheet.mk "c2" "Python Basics" (Some "")
    "2024-01-01T00:00:00.000Z" "2024-01-01T00:00:00.000Z" None.

Definition tied_db : LocalDB :=
  entriesDB.put array_reduce (cheatsheetsDB.put py_basics sample_db).

Definition tied_world : @World unit := mkWorld tied_db tt.

(** ** Notions used in the statements *)

(** A drawn line that fits the width, or that cannot be made shorter. *)
Definition fits {C} (too_wide : list C → bool) (l : list C) : Prop :=
  too_wide l = false ∨ (length l ≤ 1)%nat.

(** An id of ASCII characters only, as [crypto.randomUUID()] gives.  On
    such keys the bytewise order in which [getAll] enumerates a store is the
    key order of IndexedDB, which compares UTF-16 code units. *)
Definition ascii_id (s : string) : bool :=
  forallb (λ a, (N_of_ascii a <? 128)%N) (String.list_ascii_of_string s).

(** Newest first; equal creation times in ascending order of the ids. *)
Definition newer_first (getTime : string → Z) (a b : LocalCheatsheet.t) : Prop :=
  getTime (LocalCheatsheet.created_at b) < getTime (LocalCheatsheet.created_at a) ∨
  getTime (LocalCheatsheet.created_at a) = getTime (LocalCheatsheet.created_at b) ∧
  String.le (LocalCheatsheet.id a) (LocalCheatsheet.id b).

(** Two entries agree on every field other than [position] and
    [updated_at]. *)
Definition same_content (e e' : LocalSyntaxEntry.t) : Prop :=
  LocalSyntaxEntry.id e' = LocalSyntaxEntry.id e ∧
  LocalSyntaxEntry.cheatsheet_id e' = LocalSyntaxEntry.cheatsheet_id e ∧
  LocalSyntaxEntry.syntax e' = LocalSyntaxEntry.syntax e ∧
  LocalSyntaxEntry.category e' = LocalSyntaxEntry.category e ∧
  LocalSyntaxEntry.description e' = LocalSyntaxEntry.description e ∧
  LocalSyntaxEntry.example e' = LocalSyntaxEntry.example e ∧
  LocalSyntaxEntry.notes e' = LocalSyntaxEntry.notes e ∧
  LocalSyntaxEntry.display_format e' = LocalSyntaxEntry.display_format e ∧
  LocalSyntaxEntry.language e' = LocalSyntaxEntry.language e ∧
  LocalSyntaxEntry.created_at e' = LocalSyntaxEntry.created_at e.

(** Neither credential is the empty string. *)
Definition no_empty_credential (c : AppConfig) : Prop :=
  supabaseUrl c ≠ Some "" ∧ supabaseAnonKey c ≠ Some "".

(** Every stored entry has a syntax and a category that are not blank. *)
Definition entries_valid (db : LocalDB) : Prop :=
  ∀ k e, entries db !! k = Some e →
         trim_empty (LocalSyntaxEntry.syntax e) = false ∧
         trim_empty (LocalSyntaxEntry.category e) = false.

(** [c] occurs in [s]. *)
Fixpoint has_char (c : ascii) (s : string) : bool :=
  match s with
  | EmptyString => false
  | String a rest => bool_decide (a = c) || has_char c rest
  end.

(** The entries of category [k], or nothing when there are none. *)
Definition group_of (k : string) (entries : list LocalSyntaxEntry.t)
  : option (list LocalSyntaxEntry.t) :=
  match filter (λ e, LocalSyntaxEntry.category e = k) entries with
  | [] => None
  | group => Some group
  end.

(** Matches in ascending order that do not overlap and lie within a line of
    [len] code units, from index [from] on. *)
Fixpoint separated (from len : Z) (matches : list Match) : Prop :=
  match matches with
  | [] => from ≤ len
  | m :: rest =>
      from ≤ m_index m ∧ 0 ≤ m_length m ∧
      separated (m_index m + m_length m) len rest
  end.

(** ** Concrete lines of code *)

(** [!line.trim()] on the code units of an ASCII line. *)
Definition ascii_blank (line : list ascii) : bool :=
  trim_empty (String.string_of_list_ascii line).

(** Lines of more than twelve code units do not fit. *)
Definition over_twelve (line : list ascii) : bool := (12 <? length line)%nat.

Definition indented_return : list ascii :=
  String.list_ascii_of_string "  return total + value;".

(** * Properties *)

(** ** Lists *)

Section list_facts.
Context {A : Type}.
Implicit Types (l : list A) (p : A → bool).

Lemma find_unique p l x :
  x ∈ l → p x = true → (∀ y, y ∈ l → p y = true → y = x) →
  List.find p l = Some x.
Proof.
  induction l as [|y l IH]; intros Hin Hp Huniq; [by apply elem_of_nil in Hin|].
  simpl. destruct (p y) eqn:Hy.
  - f_equal. apply Huniq; [left|done].
  - apply IH; [|done|].
    + apply elem_of_cons in Hin as [->|]; [congruence|done].
    + intros z Hz. apply Huniq. by right.
Qed.

Lemma find_absent p l :
  (∀ y, y ∈ l → p y = false) → List.find p l = None.
Proof.
  induction l as [|y l IH]; intros Hall; [done|]. simpl.
  rewrite (Hall y) by left. apply IH. intros z Hz. apply Hall. by right.
Qed.

Lemma sort_insert_Permutation (cmp : A → A → Z) e l :
  sort_insert cmp e l ≡ₚ e :: l.
Proof.
  induction l as [|x l IH]; simpl; [done|].
  destruct (cmp e x <=? 0); [done|]. rewrite IH. apply Permutation_swap.
Qed.

Lemma Array_sort_Permutation (cmp : A → A → Z) l : Array_sort cmp l ≡ₚ l.
Proof.
  induction l as [|x l IH]; simpl; [done|].
  unfold Array_sort in *. simpl. by rewrite sort_insert_Permutation, IH.
Qed.

Lemma elem_of_Array_sort (cmp : A → A → Z) l x : x ∈ Array_sort cmp l ↔ x ∈ l.
Proof. by rewrite Array_sort_Permutation. Qed.

(** Sorting by an integer key yields a list whose keys ascend. *)
Lemma sort_insert_Sorted (key : A → Z) e l :
  Sorted (λ a b, key a ≤ key b) l →
  Sorted (λ a b, key a ≤ key b) (sort_insert (λ a b, key a - key b) e l).
Proof.
  induction 1 as [|x l Hs IH Hhd]; simpl; [by repeat constructor|].
  destruct (Z.leb_spec (key e - key x) 0).
  - constructor; [by constructor|]. constructor. lia.
  - constructor; [done|].
    destruct Hhd as [|y l' Hxy]; simpl.
    + constructor. lia.
    + destruct (key e - key y <=? 0); constructor; [lia|done].
Qed.

Lemma Array_sort_Sorted (key : A → Z) l :
  Sorted (λ a b, key a ≤ key b) (Array_sort (λ a b, key a - key b) l).
Proof.
  induction l as [|x l IH]; [constructor|].
  unfold Array_sort in *. simpl. by apply sort_insert_Sorted.
Qed.
End list_facts.

(** An ascending list of integers that is a rearrangement of [0..n-1] is
    [0..n-1]. *)
Lemma Sorted_seqZ m n : Sorted Z.le (seqZ m n).
Proof.
  destruct (decide (n ≤ 0)) as [|Hn]; [by rewrite seqZ_nil|].
  rewrite <-(Z2Nat.id n) by lia. generalize (Z.to_nat n) as k. clear.
  intros k. revert m. induction k as [|k IH]; intros m; [constructor|].
  rewrite seqZ_cons by lia. replace (Z.pred (Z.of_nat (S k))) with (Z.of_nat k) by lia.
  constructor; [apply IH|].
  destruct k; [constructor|]. rewrite seqZ_cons by lia. constructor. lia.
Qed.

Lemma sorted_dense (l : list Z) n :
  Sorted Z.le l → l ≡ₚ seqZ 0 n → l = seqZ 0 n.
Proof.
  intros Hs Hp. eapply (Sorted_unique Z.le); [done|apply Sorted_seqZ|done].
Qed.

(** ** Object stores *)

Section store_facts.
Context {T : Type} (keyPath : T → string).
Implicit Types (store : gmap string T) (x : T) (k : string).

Lemma getAll_Permutation store : getAll store ≡ₚ (map_to_list store).*2.
Proof. unfold getAll. by rewrite merge_sort_Permutation. Qed.

Lemma elem_of_getAll store x : x ∈ getAll store ↔ ∃ k, store !! k = Some x.
Proof.
  rewrite getAll_Permutation, list_elem_of_fmap. split.
  - intros [[k y] [-> Hin]]. exists k. by apply elem_of_map_to_list.
  - intros [k Hk]. exists (k, x). split; [done|]. by apply elem_of_map_to_list.
Qed.

Lemma elem_of_getAll_keyed store x :
  keyed keyPath store → x ∈ getAll store ↔ store !! keyPath x = Some x.
Proof.
  intros Hk. rewrite elem_of_getAll. split; [|by eauto].
  intros [k Hx]. by rewrite (Hk _ _ Hx).
Qed.

(** [all.find(r => r.id === k)] is the lookup of [k]. *)
Lemma find_getAll store k :
  keyed keyPath store →
  List.find (λ x, bool_decide (keyPath x = k)) (getAll store) = store !! k.
Proof.
  intros Hk. destruct (store !! k) as [x|] eqn:Hx.
  - apply find_unique.
    + apply elem_of_getAll; eauto.
    + apply bool_decide_eq_true. eauto.
    + intros y Hy Hyk. apply bool_decide_eq_true in Hyk.
      apply (elem_of_getAll_keyed _ _ Hk) in Hy. congruence.
  - apply find_absent. intros y Hy. apply bool_decide_eq_false. intros <-.
    apply (elem_of_getAll_keyed _ _ Hk) in Hy. congruence.
Qed.

Lemma NoDup_getAll_keys store :
  keyed keyPath store → NoDup (keyPath <$> getAll store).
Proof.
  intros Hk. rewrite getAll_Permutation.
  assert (keyPath <$> (map_to_list store).*2 = (map_to_list store).*1) as ->.
  { rewrite <-list_fmap_compose. apply list_fmap_ext.
    intros i [k x] Hix; simpl. apply Hk, elem_of_map_to_list.
    by eapply list_elem_of_lookup_2. }
  apply NoDup_fst_map_to_list.
Qed.

Lemma keyed_empty : keyed keyPath (∅ : gmap string T).
Proof. intros k x. by rewrite lookup_empty. Qed.

Lemma keyed_put store x : keyed keyPath store → keyed keyPath (put keyPath x store).
Proof.
  intros Hk k y. unfold put. rewrite lookup_insert. case_decide; [|by apply Hk].
  by intros [= <-].
Qed.

Lemma keyed_remove store k : keyed keyPath store → keyed keyPath (remove k store).
Proof.
  intros Hk k' y. unfold remove. rewrite lookup_delete. case_decide; [done|].
  by apply Hk.
Qed.

(** Rewriting every record in place permutes [getAll] accordingly. *)
Lemma getAll_fmap (f : T → T) store : getAll (f <$> store) ≡ₚ f <$> getAll store.
Proof.
  assert (∀ l : list (string * T), (prod_map id f <$> l).*2 = f <$> l.*2) as Hsnd.
  { intros l. rewrite <-!list_fmap_compose. apply list_fmap_ext. by intros ? []. }
  by rewrite !getAll_Permutation, map_to_list_fmap, Hsnd.
Qed.
End store_facts.

(** ** The Local Store invariant is kept by every write *)

Lemma wf_empty : wf emptyDB.
Proof. split; apply keyed_empty. Qed.

Lemma wf_cheatsheets_put c db : wf db → wf (cheatsheetsDB.put c db).
Proof. intros [??]. split; simpl; [by apply keyed_put|done]. Qed.

Lemma wf_cheatsheets_delete id db : wf db → wf (cheatsheetsDB.delete id db).
Proof. intros [??]. split; simpl; [by apply keyed_remove|done]. Qed.

Lemma wf_entries_put e db : wf db → wf (entriesDB.put e db).
Proof. intros [??]. split; simpl; [done|by apply keyed_put]. Qed.

Lemma wf_entries_delete id db : wf db → wf (entriesDB.delete id db).
Proof. intros [??]. split; simpl; [done|by apply keyed_remove]. Qed.

Lemma cheatsheetsDB_get_lookup id db :
  wf db → cheatsheetsDB.get id db = cheatsheets db !! id.
Proof. intros [Hc _]. by apply find_getAll. Qed.

(** ** Deleting the entries of a cheatsheet *)

Lemma delete_each_cheatsheets l db : cheatsheets (entriesDB.delete_each l db) = cheatsheets db.
Proof.
  revert db. induction l as [|e l IH]; intros db; [done|].
  unfold entriesDB.delete_each in *. simpl. by rewrite IH.
Qed.

Lemma delete_each_lookup l db k :
  entries (entriesDB.delete_each l db) !! k =
    if decide (k ∈ LocalSyntaxEntry.id <$> l) then None else entries db !! k.
Proof.
  revert db. induction l as [|e l IH]; intros db.
  { rewrite decide_False; [done|]. apply not_elem_of_nil. }
  change (entriesDB.delete_each (e :: l) db)
    with (entriesDB.delete_each l (entriesDB.delete (LocalSyntaxEntry.id e) db)).
  rewrite IH. simpl. unfold remove. rewrite lookup_delete.
  destruct (decide (k ∈ LocalSyntaxEntry.id <$> l)) as [Hin|Hnin].
  - rewrite decide_True; [done|]. by right.
  - destruct (decide (LocalSyntaxEntry.id e = k)) as [<-|Hne].
    + rewrite decide_True; [done|]. left.
    + rewrite decide_False; [done|]. by intros [?|?]%elem_of_cons.
Qed.


Lemma deleteByCheatsheetId_lookup cid db k :
  wf db →
  entries (entriesDB.deleteByCheatsheetId cid db) !! k =
    match entries db !! k with
    | Some e => if decide (LocalSyntaxEntry.cheatsheet_id e = cid) then None else Some e
    | None => None
    end.
Proof.
  intros [_ Hk]. unfold entriesDB.deleteByCheatsheetId.
  rewrite delete_each_lookup.
  unfold entriesDB.getByCheatsheetId, entriesDB.getAll.
  destruct (entries db !! k) as [e|] eqn:He.
  - assert (LocalSyntaxEntry.id e = k) as Hid by by apply Hk.
    destruct (decide (LocalSyntaxEntry.cheatsheet_id e = cid)) as [Hc|Hc].
    + rewrite decide_True; [done|].
      apply list_elem_of_fmap. exists e. split; [done|].
      apply list_elem_of_filter. split; [done|].
      apply (elem_of_getAll_keyed _ _ _ Hk). congruence.
    + rewrite decide_False; [done|].
      intros (e' & Hke & [Hc' Hin]%list_elem_of_filter)%list_elem_of_fmap.
      apply (elem_of_getAll_keyed _ _ _ Hk) in Hin. congruence.
  - by case_decide.
Qed.

Lemma getByCheatsheetId_nil cid db :
  (∀ k e, entries db !! k = Some e → LocalSyntaxEntry.cheatsheet_id e ≠ cid) →
  entriesDB.getByCheatsheetId cid db = [].
Proof.
  intros Hnone. unfold entriesDB.getByCheatsheetId.
  destruct (filter _ _) as [|e l] eqn:Hf; [done|].
  assert (e ∈ filter (λ e, LocalSyntaxEntry.cheatsheet_id e = cid)
                     (entriesDB.getAll db)) as Hin by (rewrite Hf; left).
  apply list_elem_of_filter in Hin as [Hc [k Hin]%elem_of_getAll].
  by destruct (Hnone _ _ Hin).
Qed.

(** ** The position map of a reorder *)

Lemma Map_new_snoc {V} (pairs : list (string * V)) k v :
  Map_new (pairs ++ [(k, v)]) = <[k := v]> (Map_new pairs).
Proof. unfold Map_new. by rewrite foldl_app. Qed.

(** For a repeated id the last assignment wins. *)
Lemma Map_new_last {V} (pairs : list (string * V)) k v :
  Map_new (pairs ++ [(k, v)]) !! k = Some v.
Proof. rewrite Map_new_snoc. apply lookup_insert_eq. Qed.

Lemma Map_new_lookup_Some {V} (pairs : list (string * V)) k v :
  Map_new pairs !! k = Some v → (k, v) ∈ pairs.
Proof.
  induction pairs as [|[k' v'] pairs IH] using rev_ind; [done|].
  rewrite Map_new_snoc, lookup_insert, elem_of_app, list_elem_of_singleton.
  case_decide; [|by auto]. intros [= <-]. subst. by right.
Qed.

Lemma Map_new_lookup_last {V} (pairs : list (string * V)) k v :
  Map_new pairs !! k = Some v →
  ∃ pre post, pairs = (pre ++ (k, v) :: post)%list ∧ k ∉ post.*1.
Proof.
  induction pairs as [|[k' v'] pairs IH] using rev_ind; [done|].
  rewrite Map_new_snoc, lookup_insert. case_decide; subst.
  - intros [= <-]. exists pairs, []. split; [done|]. by intros ?%elem_of_nil.
  - intros (pre & post & -> & Hpost)%IH.
    exists pre, (post ++ [(k', v')])%list. split; [by rewrite <-app_assoc|].
    rewrite fmap_app, elem_of_app. simpl. rewrite list_elem_of_singleton.
    by intros [?|?].
Qed.

Lemma Map_new_is_Some {V} (pairs : list (string * V)) k :
  is_Some (Map_new pairs !! k) ↔ k ∈ pairs.*1.
Proof.
  induction pairs as [|[k' v'] pairs IH] using rev_ind.
  { unfold Map_new; simpl. rewrite lookup_empty, elem_of_nil.
    split; [by intros []|done]. }
  rewrite Map_new_snoc, lookup_insert, fmap_app, elem_of_app. simpl.
  rewrite list_elem_of_singleton. case_decide; subst.
  - split; [by right|by eauto].
  - rewrite IH. split; [by left|]. by intros [?|?].
Qed.

Lemma Map_new_lookup_None {V} (pairs : list (string * V)) k :
  Map_new pairs !! k = None ↔ k ∉ pairs.*1.
Proof. by rewrite <-Map_new_is_Some, eq_None_not_Some. Qed.

Lemma NoDup_fst_functional {K V} (pairs : list (K * V)) k v v' :
  NoDup pairs.*1 → (k, v) ∈ pairs → (k, v') ∈ pairs → v = v'.
Proof.
  induction pairs as [|[k0 v0] pairs IH]; [by intros _ ?%elem_of_nil|].
  rewrite fmap_cons, NoDup_cons. simpl. intros [Hk0 Hnd].
  rewrite !elem_of_cons. intros [Heq|Hin] [Heq'|Hin']; simplify_eq.
  - done.
  - destruct Hk0. apply list_elem_of_fmap. by exists (k0, v').
  - destruct Hk0. apply list_elem_of_fmap. by exists (k0, v).
  - by apply IH.
Qed.

(** With one assignment per id, the map holds exactly the assignments. *)
Lemma Map_new_NoDup {V} (pairs : list (string * V)) k v :
  NoDup pairs.*1 → (k, v) ∈ pairs → Map_new pairs !! k = Some v.
Proof.
  intros Hnd Hin.
  destruct (Map_new pairs !! k) as [v'|] eqn:Hk.
  - apply Map_new_lookup_Some in Hk. f_equal.
    by apply (NoDup_fst_functional pairs k).
  - apply Map_new_lookup_None in Hk. destruct Hk.
    apply list_elem_of_fmap. by exists (k, v).
Qed.

(** What the reorder loop does to one entry of the snapshot. *)
Lemma id_repositioned pm e :
  LocalSyntaxEntry.id (repositioned pm e) = LocalSyntaxEntry.id e.
Proof. unfold repositioned. by destruct (pm !! _). Qed.

Lemma cheatsheet_id_repositioned pm e :
  LocalSyntaxEntry.cheatsheet_id (repositioned pm e) = LocalSyntaxEntry.cheatsheet_id e.
Proof. unfold repositioned. by destruct (pm !! _). Qed.

Lemma reorder_step_entries pm db e :
  entries db !! LocalSyntaxEntry.id e = Some e →
  entries (reorder_step pm db e) = <[LocalSyntaxEntry.id e := repositioned pm e]> (entries db).
Proof.
  intros He. unfold reorder_step, repositioned.
  destruct (pm !! _); [done|]. by rewrite insert_id.
Qed.

Lemma reorder_step_cheatsheets pm db e :
  cheatsheets (reorder_step pm db e) = cheatsheets db.
Proof. unfold reorder_step. by destruct (pm !! _). Qed.

Lemma reorder_loop_cheatsheets pm l db :
  cheatsheets (foldl (reorder_step pm) db l) = cheatsheets db.
Proof.
  revert db. induction l as [|e l IH]; intros db; [done|].
  simpl. by rewrite IH, reorder_step_cheatsheets.
Qed.

(** The loop over a snapshot with distinct ids rewrites exactly the
    snapshot's records. *)
Lemma reorder_loop_lookup pm l db k :
  NoDup (LocalSyntaxEntry.id <$> l) →
  (∀ e, e ∈ l → entries db !! LocalSyntaxEntry.id e = Some e) →
  entries (foldl (reorder_step pm) db l) !! k =
    if decide (k ∈ LocalSyntaxEntry.id <$> l)
    then repositioned pm <$> entries db !! k
    else entries db !! k.
Proof.
  revert db. induction l as [|e l IH]; intros db Hnd Hsnap.
  { rewrite decide_False; [done|]. apply not_elem_of_nil. }
  rewrite fmap_cons in Hnd. apply NoDup_cons in Hnd as [Hfresh Hnd].
  assert (entries db !! LocalSyntaxEntry.id e = Some e) as He
    by (apply Hsnap; left).
  simpl foldl. rewrite IH; [|done|].
  - rewrite reorder_step_entries by done.
    destruct (decide (k ∈ LocalSyntaxEntry.id <$> l)) as [Hin|Hnin].
    + rewrite decide_True by (by right).
      rewrite lookup_insert_ne; [done|]. by intros <-.
    + destruct (decide (LocalSyntaxEntry.id e = k)) as [<-|Hne].
      * rewrite decide_True by left.
        by rewrite lookup_insert_eq, He.
      * rewrite decide_False by (by intros [?|?]%elem_of_cons).
        by rewrite lookup_insert_ne.
  - intros e' He'. rewrite reorder_step_entries by done.
    rewrite lookup_insert_ne; [apply Hsnap; by right|].
    intros Heq. apply Hfresh. rewrite Heq. by apply list_elem_of_fmap_2.
Qed.

Lemma reorder_loop_entries pm db :
  wf db →
  entries (foldl (reorder_step pm) db (entriesDB.getAll db)) =
    repositioned pm <$> entries db.
Proof.
  intros [_ Hk]. apply map_eq. intros k.
  rewrite reorder_loop_lookup, lookup_fmap.
  - case_decide as Hin; [done|].
    destruct (entries db !! k) as [e|] eqn:He; [|done].
    destruct Hin. apply list_elem_of_fmap. exists e.
    split; [symmetry; by apply Hk|]. apply elem_of_getAll. eauto.
  - by apply NoDup_getAll_keys.
  - intros e. by apply elem_of_getAll_keyed.
Qed.

Lemma wf_reorder pm db : wf db → wf (foldl (reorder_step pm) db (entriesDB.getAll db)).
Proof.
  intros Hwf. split.
  - rewrite reorder_loop_cheatsheets. apply Hwf.
  - rewrite reorder_loop_entries by done. intros k e.
    rewrite lookup_fmap. destruct (entries db !! k) as [e0|] eqn:He; [|done].
    intros [= <-]. rewrite id_repositioned. by apply Hwf.
Qed.

(** ** Reading the entries of a cheatsheet *)

Lemma filter_fmap_preserved {A} (P : A → Prop) `{∀ x, Decision (P x)}
    (f : A → A) (l : list A) :
  (∀ x, P (f x) ↔ P x) → filter P (f <$> l) = f <$> filter P l.
Proof.
  intros HP. induction l as [|x l IH]; [done|].
  rewrite fmap_cons, !filter_cons.
  destruct (decide (P (f x))) as [HPf|HPf], (decide (P x)) as [HPx|HPx].
  - by rewrite fmap_cons, IH.
  - destruct HPx. by apply HP.
  - destruct HPf. by apply HP.
  - done.
Qed.

Lemma NoDup_getByCheatsheetId_ids cid db :
  wf db → NoDup (LocalSyntaxEntry.id <$> entriesDB.getByCheatsheetId cid db).
Proof.
  intros [_ Hk].
  eapply sublist_NoDup; [apply (NoDup_getAll_keys _ _ Hk)|].
  apply fmap_sublist, sublist_filter.
Qed.

(** After the rewrite of every record by [f], a function that keeps the
    owner, the entries of a cheatsheet are the rewritten former ones. *)
Lemma getByCheatsheetId_fmap cid (f : LocalSyntaxEntry.t → LocalSyntaxEntry.t) db db' :
  (∀ e, LocalSyntaxEntry.cheatsheet_id (f e) = LocalSyntaxEntry.cheatsheet_id e) →
  entries db' = f <$> entries db →
  entriesDB.getByCheatsheetId cid db' ≡ₚ f <$> entriesDB.getByCheatsheetId cid db.
Proof.
  intros Hf Hdb'. unfold entriesDB.getByCheatsheetId, entriesDB.getAll.
  rewrite Hdb', getAll_fmap. rewrite filter_fmap_preserved; [done|].
  intros e. by rewrite Hf.
Qed.

(** ** The running maximum of [handleSaveEntry] *)

Lemma binary64_safe z : - 2 ^ 53 ≤ z ≤ 2 ^ 53 → binary64 z = z.
Proof.
  intros Hz. unfold binary64.
  destruct (decide (Z.abs z = 2 ^ 53)) as [Heq|Hne].
  - destruct (decide (0 ≤ z)).
    + assert (z = 2 ^ 53) as -> by lia. reflexivity.
    + assert (z = - 2 ^ 53) as -> by lia. reflexivity.
  - assert (Z.log2 (Z.abs z) < 53) as Hlog.
    { destruct (decide (Z.abs z = 0)) as [->|Hnz]; [done|].
      apply Z.log2_lt_pow2; lia. }
    destruct (Z.leb_spec (Z.log2 (Z.abs z) - 52) 0); [done|lia].
Qed.

(** Beyond 2^53 adding 1 is not exact: the sum is rounded to an even
    significand. *)
Example Number_add_rounds :
  Number_add (2 ^ 53) 1 = 2 ^ 53 ∧ Number_add (2 ^ 53 + 2) 1 = 2 ^ 53 + 4 ∧
  Number_add (2 ^ 60) 1 = 2 ^ 60 ∧ Number_add (2 ^ 53 - 1) 1 = 2 ^ 53.
Proof. by vm_compute. Qed.

Lemma num_or_zero_id x : num_or_zero x = x.
Proof. unfold num_or_zero. destruct (Z.eqb_spec x 0); congruence. Qed.

Lemma running_max_spec (l : list LocalSyntaxEntry.t) (a : Z) :
  let r := foldl (λ max entry,
             Z.max max (num_or_zero (LocalSyntaxEntry.position entry))) a l in
  a ≤ r ∧
  (∀ x, x ∈ l → LocalSyntaxEntry.position x ≤ r) ∧
  (r = a ∨ ∃ m, m ∈ l ∧ r = LocalSyntaxEntry.position m).
Proof.
  revert a. induction l as [|e l IH]; intros a; simpl.
  { split; [lia|]. split; [by intros ? ?%elem_of_nil|by left]. }
  rewrite num_or_zero_id.
  destruct (IH (Z.max a (LocalSyntaxEntry.position e))) as (Hle & Hub & Hwit).
  split; [lia|]. split.
  - intros x [->|Hx]%elem_of_cons; [lia|by apply Hub].
  - destruct Hwit as [Heq|(m & Hm & Heq)].
    + destruct (Z.max_spec a (LocalSyntaxEntry.position e)) as [[_ Hmax]|[_ Hmax]].
      * right. exists e. split; [left|lia].
      * left. lia.
    + right. exists m. split; [by right|done].
Qed.

(** ** The purge, cut short *)



(** ** Hooks served by the Local Store *)

(** Unfolds the sequencing of awaited operations. *)
Ltac run_async :=
  unfold mbind, mret, Async_bind, Async_ret, idb_read, idb_write, throw; simpl.

Section hook_facts.
Context {Server : Type}.
Context (supabase : SupabaseRequest → Server → Server * PostgrestResponse).
Context (getTime : string → Z).
Import AppContext.
Implicit Types (w : @World Server) (ctx : AppContextType) (db : LocalDB).
#[local] Existing Instances Async_ret Async_bind.

Lemma guest_not_cloud_client ctx : ctx_mode ctx = guest → cloud_client ctx = false.
Proof. intros Hm. unfold cloud_client. by rewrite Hm. Qed.

Lemma useSoftDeleteCheatsheet_guest ctx id now w :
  ctx_mode ctx = guest →
  useSoftDeleteCheatsheet supabase ctx id now w =
    match cheatsheetsDB.get id (local w) with
    | Some c =>
        Resolved (mkWorld (cheatsheetsDB.put
                             (LocalCheatsheet.with_deleted_at c (Some now))
                             (local w)) (remote w)) tt
    | None => Resolved w tt
    end.
Proof.
  intros Hm. unfold useSoftDeleteCheatsheet.
  rewrite guest_not_cloud_client by done. run_async.
  by destruct (cheatsheetsDB.get id (local w)).
Qed.

Lemma useRestoreCheatsheet_guest ctx id w :
  ctx_mode ctx = guest →
  useRestoreCheatsheet supabase ctx id w =
    match cheatsheetsDB.get id (local w) with
    | Some c =>
        Resolved (mkWorld (cheatsheetsDB.put
                             (LocalCheatsheet.with_deleted_at c None)
                             (local w)) (remote w)) tt
    | None => Resolved w tt
    end.
Proof.
  intros Hm. unfold useRestoreCheatsheet.
  rewrite guest_not_cloud_client by done. run_async.
  by destruct (cheatsheetsDB.get id (local w)).
Qed.

Lemma useCheatsheet_guest ctx id w :
  ctx_mode ctx = guest →
  useCheatsheet supabase ctx id w = Resolved w (cheatsheetsDB.get id (local w)).
Proof.
  intros Hm. unfold useCheatsheet. by rewrite guest_not_cloud_client.
Qed.

(** C10.  In guest mode, soft-deleting or restoring an id that the Local
    Store does not hold resolves without an error and leaves the whole
    state, every stored record included, as it was. *)
Theorem guest_soft_delete_restore_unknown_id ctx id now w :
  ctx_mode ctx = guest → wf (local w) →
  cheatsheets (local w) !! id = None →
  useSoftDeleteCheatsheet supabase ctx id now w = Resolved w tt ∧
  useRestoreCheatsheet supabase ctx id w = Resolved w tt.
Proof.
  intros Hm Hwf Hid.
  rewrite useSoftDeleteCheatsheet_guest, useRestoreCheatsheet_guest by done.
  by rewrite cheatsheetsDB_get_lookup, Hid.
Qed.

(** C6.  In guest mode, soft-deleting a stored cheatsheet and then
    restoring it yields a record with the same id, title, description and
    creation time, whose [deleted_at] is null again; in between, the
    record carries the deletion time. *)
Theorem soft_delete_then_restore ctx id now w x :
  ctx_mode ctx = guest → wf (local w) →
  cheatsheets (local w) !! id = Some x →
  ∃ w1 w2 y,
    useSoftDeleteCheatsheet supabase ctx id now w = Resolved w1 tt ∧
    useCheatsheet supabase ctx id w1 =
      Resolved w1 (Some (LocalCheatsheet.with_deleted_at x (Some now))) ∧
    useRestoreCheatsheet supabase ctx id w1 = Resolved w2 tt ∧
    useCheatsheet supabase ctx id w2 = Resolved w2 (Some y) ∧
    LocalCheatsheet.id y = LocalCheatsheet.id x ∧
    LocalCheatsheet.title y = LocalCheatsheet.title x ∧
    LocalCheatsheet.description y = LocalCheatsheet.description x ∧
    LocalCheatsheet.created_at y = LocalCheatsheet.created_at x ∧
    LocalCheatsheet.deleted_at y = None.
Proof.
  intros Hm Hwf Hx.
  assert (LocalCheatsheet.id x = id) as Hid by (by apply Hwf).
  set (x1 := LocalCheatsheet.with_deleted_at x (Some now)).
  set (w1 := mkWorld (cheatsheetsDB.put x1 (local w)) (remote w)).
  set (y := LocalCheatsheet.with_deleted_at x1 None).
  set (w2 := mkWorld (cheatsheetsDB.put y (local w1)) (remote w1)).
  assert (wf (local w1)) as Hwf1 by by apply wf_cheatsheets_put.
  assert (wf (local w2)) as Hwf2 by by apply wf_cheatsheets_put.
  assert (cheatsheets (local w1) !! id = Some x1) as Hx1.
  { simpl. unfold put. simpl. rewrite Hid. apply lookup_insert_eq. }
  assert (cheatsheets (local w2) !! id = Some y) as Hy.
  { simpl. unfold put. simpl. rewrite Hid. apply lookup_insert_eq. }
  exists w1, w2, y. repeat split; try done.
  - rewrite useSoftDeleteCheatsheet_guest by done.
    by rewrite cheatsheetsDB_get_lookup, Hx.
  - rewrite useCheatsheet_guest by done.
    by rewrite cheatsheetsDB_get_lookup, Hx1.
  - rewrite useRestoreCheatsheet_guest by done.
    by rewrite cheatsheetsDB_get_lookup, Hx1.
  - rewrite useCheatsheet_guest by done.
    by rewrite cheatsheetsDB_get_lookup, Hy.
Qed.

Lemma useCheatsheets_guest ctx view w :
  ctx_mode ctx = guest →
  useCheatsheets supabase getTime ctx view w =
    Resolved w (filter (in_view view)
      (Array_sort (λ a b, getTime (LocalCheatsheet.created_at b)
                          - getTime (LocalCheatsheet.created_at a))
                  (cheatsheetsDB.getAll (local w)))).
Proof. intros Hm. unfold useCheatsheets. by rewrite Hm. Qed.

(** C7.  In guest mode every stored cheatsheet is listed by exactly one
    of the two views: by [active] when [deleted_at] is null, by [trash]
    otherwise; and the two views together are a rearrangement of the
    stored cheatsheets. *)
Theorem cheatsheet_in_exactly_one_view ctx w k c :
  ctx_mode ctx = guest →
  cheatsheets (local w) !! k = Some c →
  ∃ act tr,
    useCheatsheets supabase getTime ctx active w = Resolved w act ∧
    useCheatsheets supabase getTime ctx trash w = Resolved w tr ∧
    (LocalCheatsheet.deleted_at c = None → c ∈ act ∧ c ∉ tr) ∧
    (LocalCheatsheet.deleted_at c ≠ None → c ∈ tr ∧ c ∉ act) ∧
    (act ++ tr)%list ≡ₚ cheatsheetsDB.getAll (local w).
Proof.
  intros Hm Hc.
  set (sorted := Array_sort
    (λ a b, getTime (LocalCheatsheet.created_at b)
            - getTime (LocalCheatsheet.created_at a))
    (cheatsheetsDB.getAll (local w))).
  exists (filter (in_view active) sorted), (filter (in_view trash) sorted).
  split; [by apply useCheatsheets_guest|].
  split; [by apply useCheatsheets_guest|].
  assert (c ∈ sorted) as Hin.
  { apply elem_of_Array_sort, elem_of_getAll. eauto. }
  rewrite !list_elem_of_filter. simpl.
  split; [|split].
  - intros Hnull. split; [done|]. by intros [? _].
  - intros Hset. split; [done|]. by intros [? _].
  - trans sorted; [|apply Array_sort_Permutation].
    etrans; [|apply (filter_app_complement (in_view active) sorted)].
    apply Permutation_app; [done|].
    by erewrite list_filter_iff.
Qed.

Lemma useSyntaxEntries_guest ctx cid w :
  ctx_mode ctx = guest →
  useSyntaxEntries supabase ctx cid w =
    Resolved w (Array_sort by_position (entriesDB.getByCheatsheetId cid (local w))).
Proof.
  intros Hm. unfold useSyntaxEntries. by rewrite guest_not_cloud_client.
Qed.

Lemma await_each_delete l w :
  await_each l
    (λ entry, idb_write (entriesDB.delete (LocalSyntaxEntry.id entry))) w
  = Resolved (mkWorld (entriesDB.delete_each l (local w)) (remote w)) tt.
Proof.
  revert w. induction l as [|e l IH]; intros w; [by destruct w|].
  simpl. run_async. by rewrite IH.
Qed.

Lemma usePermanentDeleteCheatsheet_local ctx id w :
  cloud_client ctx = false →
  usePermanentDeleteCheatsheet supabase ctx id w =
    Resolved (mkWorld (cheatsheetsDB.delete id
                         (entriesDB.deleteByCheatsheetId id (local w)))
                      (remote w)) tt.
Proof.
  intros Hc. unfold usePermanentDeleteCheatsheet. rewrite Hc.
  unfold purge_local, entriesDB_deleteByCheatsheetId.
  unfold mbind at 1 2. unfold Async_bind at 1 2. unfold idb_read at 1.
  rewrite await_each_delete. done.
Qed.


Lemma reorder_for_of pm l w :
  for_of l (λ entry,
    match pm !! LocalSyntaxEntry.id entry with
    | Some p => idb_write (entriesDB.put (LocalSyntaxEntry.with_position entry p))
    | None => mret tt
    end) w =
  Resolved (mkWorld (foldl (reorder_step pm) (local w) l) (remote w)) tt.
Proof.
  revert w. induction l as [|e l IH]; intros w; [by destruct w|].
  simpl. run_async. unfold reorder_step at 2.
  destruct (pm !! LocalSyntaxEntry.id e); simpl; by rewrite IH.
Qed.

Lemma useReorderEntries_guest ctx cid asg w :
  ctx_mode ctx = guest →
  useReorderEntries supabase ctx cid asg w =
    Resolved (mkWorld (foldl (reorder_step (Map_new asg)) (local w)
                             (entriesDB.getAll (local w))) (remote w)) tt.
Proof.
  intros Hm. unfold useReorderEntries.
  rewrite guest_not_cloud_client by done. run_async.
  apply reorder_for_of.
Qed.

Lemma guest_reorder_keeps_content ctx cid asg w :
  ctx_mode ctx = guest → wf (local w) →
  ∃ w',
    useReorderEntries supabase ctx cid asg w = Resolved w' tt ∧
    cheatsheets (local w') = cheatsheets (local w) ∧
    (∀ k e, entries (local w) !! k = Some e → k ∈ asg.*1 →
       ∃ p e',
         (∃ pre post, asg = (pre ++ (k, p) :: post)%list ∧ k ∉ post.*1) ∧
         entries (local w') !! k = Some e' ∧
         LocalSyntaxEntry.position e' = p ∧
         same_content e e') ∧
    (∀ k, k ∉ asg.*1 → entries (local w') !! k = entries (local w) !! k) ∧
    (∀ k, entries (local w) !! k = None → entries (local w') !! k = None).
Proof.
  intros Hm Hwf. eexists. split; [by apply useReorderEntries_guest|].
  simpl. rewrite reorder_loop_cheatsheets, reorder_loop_entries by done.
  split; [done|]. split; [|split].
  - intros k e He [p Hp]%Map_new_is_Some.
    exists p, (LocalSyntaxEntry.with_position e p).
    split; [by apply Map_new_lookup_last|]. split; [|by repeat split].
    rewrite lookup_fmap, He. simpl. unfold repositioned.
    assert (LocalSyntaxEntry.id e = k) as -> by by apply Hwf.
    by rewrite Hp.
  - intros k Hk%Map_new_lookup_None. rewrite lookup_fmap.
    destruct (entries (local w) !! k) as [e|] eqn:He; [|done].
    simpl. unfold repositioned.
    assert (LocalSyntaxEntry.id e = k) as -> by by apply Hwf.
    by rewrite Hk.
  - intros k Hk. by rewrite lookup_fmap, Hk.
Qed.

(** C1.  In guest mode, let [before] be the entry list read for a
    cheatsheet, and let a reorder assign one position to each of its
    entries, the positions being a rearrangement of [0..n-1] for
    [n = length before].  Then the reorder resolves, and the list read
    back consists of the same entries, has positions [0, 1, ..., n-1] in
    this order, and holds at index [i] the entry that was assigned
    position [i], unchanged but for its position. *)
Theorem reorder_density ctx cid asg w before :
  ctx_mode ctx = guest → wf (local w) →
  useSyntaxEntries supabase ctx cid w = Resolved w before →
  asg.*1 ≡ₚ LocalSyntaxEntry.id <$> before →
  asg.*2 ≡ₚ seqZ 0 (Z.of_nat (length before)) →
  ∃ w' after,
    useReorderEntries supabase ctx cid asg w = Resolved w' tt ∧
    useSyntaxEntries supabase ctx cid w' = Resolved w' after ∧
    LocalSyntaxEntry.position <$> after = seqZ 0 (Z.of_nat (length before)) ∧
    LocalSyntaxEntry.id <$> after ≡ₚ LocalSyntaxEntry.id <$> before ∧
    (∀ i e, after !! i = Some e →
       (LocalSyntaxEntry.id e, Z.of_nat i) ∈ asg ∧
       ∃ e0, e0 ∈ before ∧
             e = LocalSyntaxEntry.with_position e0 (Z.of_nat i)).
Proof.
  intros Hm Hwf Hread Hids Hpos.
  rewrite useSyntaxEntries_guest in Hread by done.
  injection Hread as Hbefore.
  set (pm := Map_new asg).
  set (db' := foldl (reorder_step pm) (local w) (entriesDB.getAll (local w))).
  set (after := Array_sort by_position (entriesDB.getByCheatsheetId cid db')).
  exists (mkWorld db' (remote w)), after.
  split; [by apply useReorderEntries_guest|].
  split; [by apply useSyntaxEntries_guest|].
  (* the list read back is the former one, record by record rewritten *)
  assert (after ≡ₚ repositioned pm <$> before) as Hafter.
  { unfold after. rewrite Array_sort_Permutation, <-Hbefore.
    rewrite Array_sort_Permutation.
    apply getByCheatsheetId_fmap; [apply cheatsheet_id_repositioned|].
    by apply reorder_loop_entries. }
  assert (NoDup (LocalSyntaxEntry.id <$> before)) as Hnd.
  { rewrite <-Hbefore, Array_sort_Permutation.
    by apply NoDup_getByCheatsheetId_ids. }
  assert (NoDup asg.*1) as Hnd_asg by by rewrite Hids.
  (* every former entry is listed, with exactly one position *)
  assert (∀ e0, e0 ∈ before →
            ∃ p, (LocalSyntaxEntry.id e0, p) ∈ asg ∧
                 repositioned pm e0 = LocalSyntaxEntry.with_position e0 p)
    as Hlisted.
  { intros e0 He0.
    assert (LocalSyntaxEntry.id e0 ∈ asg.*1) as [p Hp]%Map_new_is_Some.
    { rewrite Hids. by apply list_elem_of_fmap_2. }
    exists p. split; [by apply Map_new_lookup_Some|].
    unfold repositioned, pm. by rewrite Hp. }
  (* the pairs (id, new position) of the list are the assignments *)
  assert ((λ e, (LocalSyntaxEntry.id e,
                 LocalSyntaxEntry.position (repositioned pm e))) <$> before
          ≡ₚ asg) as Hpairs.
  { apply NoDup_Permutation.
    - apply (NoDup_fmap_1 fst). by rewrite <-list_fmap_compose.
    - by apply (NoDup_fmap_1 fst).
    - intros [k p]. rewrite list_elem_of_fmap. split.
      + intros (e0 & [= -> ->] & He0).
        destruct (Hlisted e0 He0) as (p & Hp & ->). done.
      + intros Hkp.
        assert (k ∈ LocalSyntaxEntry.id <$> before) as Hk.
        { rewrite <-Hids. apply list_elem_of_fmap. by exists (k, p). }
        apply list_elem_of_fmap in Hk as (e0 & -> & He0).
        exists e0. split; [|done]. f_equal.
        destruct (Hlisted e0 He0) as (p' & Hp' & ->). simpl.
        by apply (NoDup_fst_functional asg (LocalSyntaxEntry.id e0)). }
  assert (LocalSyntaxEntry.position <$> after
          = seqZ 0 (Z.of_nat (length before))) as Hdense.
  { apply sorted_dense.
    - apply (Sorted_fmap _ (λ a b, LocalSyntaxEntry.position a
                                   ≤ LocalSyntaxEntry.position b)); [done|].
      apply (Array_sort_Sorted LocalSyntaxEntry.position).
    - rewrite Hafter, <-Hpos, <-Hpairs, <-!list_fmap_compose. done. }
  split; [done|]. split.
  { rewrite Hafter, <-list_fmap_compose.
    erewrite list_fmap_ext; [done|]. intros ???. apply id_repositioned. }
  intros i e Hi.
  assert (LocalSyntaxEntry.position e = Z.of_nat i) as Hpi.
  { assert ((LocalSyntaxEntry.position <$> after) !! i
            = Some (LocalSyntaxEntry.position e)) as Hl
      by by rewrite list_lookup_fmap, Hi.
    rewrite Hdense in Hl. apply lookup_seqZ in Hl. lia. }
  assert (e ∈ repositioned pm <$> before) as (e0 & -> & He0)%list_elem_of_fmap.
  { rewrite <-Hafter. by eapply list_elem_of_lookup_2. }
  destruct (Hlisted e0 He0) as (p & Hp & Hrep).
  rewrite Hrep in Hpi |- *. simpl in Hpi. subst p.
  split; [done|]. by exists e0.
Qed.

Lemma elem_of_useSyntaxEntries_guest ctx cid w listed x :
  ctx_mode ctx = guest →
  useSyntaxEntries supabase ctx cid w = Resolved w listed →
  x ∈ listed ↔
    (∃ k, entries (local w) !! k = Some x) ∧
    LocalSyntaxEntry.cheatsheet_id x = cid.
Proof.
  clear getTime. intros Hm Hread.
  rewrite useSyntaxEntries_guest in Hread by done. injection Hread as <-.
  rewrite elem_of_Array_sort. unfold entriesDB.getByCheatsheetId.
  rewrite list_elem_of_filter. unfold entriesDB.getAll.
  rewrite elem_of_getAll. tauto.
Qed.

Lemma useCreateEntry_guest ctx entry new_id created_now updated_now w :
  ctx_mode ctx = guest →
  let newEntry :=
    LocalSyntaxEntry.mk new_id (ne_cheatsheet_id entry) (ne_syntax entry)
      (ne_category entry) (ne_description entry) (ne_example entry) None
      (ne_display_format entry) (ne_language entry) (ne_position entry)
      created_now updated_now in
  useCreateEntry supabase ctx entry new_id created_now updated_now w =
    Resolved (mkWorld (entriesDB.put newEntry (local w)) (remote w))
             (Some newEntry).
Proof.
  intros Hm. unfold useCreateEntry. by rewrite guest_not_cloud_client.
Qed.

(** C2, as the code has it.  In guest mode, saving a valid form with a
    fresh id stores a new entry of the cheatsheet.  Its position is
    computed from [listed], the list the editor holds (the data of its
    query, [None] while that is undefined), whose positions are
    non-negative and below 2^53: it is 0 when the list is undefined or
    empty, and one more than the largest position in the list otherwise.
    When the list is the one read in the current state, this is 0 for a
    cheatsheet without entries and one more than the largest position
    among its stored entries otherwise.  Every other stored entry is left
    as it was. *)
Theorem append_position ctx cid w listed form new_id created_now updated_now :
  ctx_mode ctx = guest →
  (∀ x, x ∈ default [] listed → 0 ≤ LocalSyntaxEntry.position x < 2 ^ 53) →
  trim_empty (f_syntax form) = false →
  trim_empty (f_category form) = false →
  entries (local w) !! new_id = None →
  ∃ w' e,
    handleSaveEntry supabase ctx cid listed form
                    new_id created_now updated_now w = Resolved w' true ∧
    entries (local w') !! new_id = Some e ∧
    LocalSyntaxEntry.cheatsheet_id e = cid ∧
    (listed = None ∨ listed = Some [] → LocalSyntaxEntry.position e = 0) ∧
    (∀ l m, listed = Some l → m ∈ l →
       (∀ x, x ∈ l →
          LocalSyntaxEntry.position x ≤ LocalSyntaxEntry.position m) →
       LocalSyntaxEntry.position e = LocalSyntaxEntry.position m + 1) ∧
    (∀ l, listed = Some l →
       useSyntaxEntries supabase ctx cid w = Resolved w l →
       ((∀ k x, entries (local w) !! k = Some x →
                LocalSyntaxEntry.cheatsheet_id x ≠ cid) →
        LocalSyntaxEntry.position e = 0) ∧
       (∀ k m, entries (local w) !! k = Some m →
               LocalSyntaxEntry.cheatsheet_id m = cid →
               (∀ k' x, entries (local w) !! k' = Some x →
                        LocalSyntaxEntry.cheatsheet_id x = cid →
                        LocalSyntaxEntry.position x
                        ≤ LocalSyntaxEntry.position m) →
               LocalSyntaxEntry.position e = LocalSyntaxEntry.position m + 1)) ∧
    (∀ k, k ≠ new_id → entries (local w') !! k = entries (local w) !! k).
Proof.
  clear getTime. intros Hm Hrange Hsyntax Hcategory Hfresh.
  set (r := maxPosition listed).
  assert (-1 ≤ r < 2 ^ 53 ∧
          (∀ x, x ∈ default [] listed → LocalSyntaxEntry.position x ≤ r) ∧
          (r = -1 ∨ ∃ m, m ∈ default [] listed ∧ r = LocalSyntaxEntry.position m))
    as (Hr & Hub & Hwit).
  { unfold r. destruct listed as [l|]; simpl in *.
    - destruct (running_max_spec l (-1)) as (Hlow & Hub & Hwit).
      split; [|done]. split; [done|].
      destruct Hwit as [->|(m & Hin & ->)]; [done|]. by apply Hrange.
    - split; [done|]. split; [by intros ? ?%elem_of_nil|by left]. }
  assert (Number_add r 1 = r + 1) as Hadd.
  { apply binary64_safe. lia. }
  set (e := LocalSyntaxEntry.mk new_id cid (f_syntax form) (f_category form)
              (Some (f_description form)) (Some (f_example form)) None
              (f_displayFormat form) (f_language form) (r + 1)
              created_now updated_now).
  exists (mkWorld (entriesDB.put e (local w)) (remote w)), e. split.
  { unfold handleSaveEntry. rewrite Hsyntax, Hcategory. simpl.
    run_async. rewrite useCreateEntry_guest by done. simpl.
    fold r. by rewrite Hadd. }
  split; [apply lookup_insert_eq|]. split; [done|].
  change (LocalSyntaxEntry.position e) with (r + 1).
  assert (∀ l m, listed = Some l → m ∈ l →
            (∀ x, x ∈ l →
               LocalSyntaxEntry.position x ≤ LocalSyntaxEntry.position m) →
            r + 1 = LocalSyntaxEntry.position m + 1) as Hmax.
  { intros l m -> Hin Hle. simpl in *. pose proof (Hub m Hin).
    destruct Hwit as [Heq|(m' & Hin' & Heq)].
    - pose proof (Hrange m Hin). lia.
    - pose proof (Hle m' Hin'). lia. }
  split; [|split; [done|split]].
  - intros [->| ->]; [done|].
    destruct Hwit as [->|(m & Hin & _)]; [done|]. by apply elem_of_nil in Hin.
  - intros l -> Hread.
    pose proof (λ x, elem_of_useSyntaxEntries_guest ctx cid w l x Hm Hread)
      as Hlisted.
    split.
    + intros Hnone. destruct Hwit as [->|(m & Hin & _)]; [done|].
      apply Hlisted in Hin as [[k Hk] Hc]. by destruct (Hnone k m).
    + intros k m Hk Hc Hle. apply (Hmax l m eq_refl).
      * apply Hlisted. eauto.
      * intros x [[k' Hk'] Hc']%Hlisted. by apply (Hle k').
  - intros k Hne. simpl. unfold put. by rewrite lookup_insert_ne.
Qed.
End hook_facts.

(** ** Mode derivation *)

Lemma truthy_Some (x : option string) :
  truthy x = true ↔ ∃ s, x = Some s ∧ s ≠ "".
Proof.
  destruct x as [s|]; simpl.
  - rewrite bool_decide_eq_true. split.
    + intros Hs. by exists s.
    + by intros (? & [= <-] & ?).
  - split; [done|]. by intros (? & ? & ?).
Qed.

(** The test is one of truthiness: the mode is [cloud] exactly when the
    remote URL and the remote key are both non-null and non-empty strings;
    after either credential is set to null, or after the configuration is
    cleared, the mode is [guest]. *)
Lemma mode_truthiness (s : AppContext.State) (db : LocalDB) :
  (AppContext.mode (AppContext.st_config s) = AppContext.cloud ↔
     ∃ url key,
       supabaseUrl (AppContext.st_config s) = Some url ∧
       supabaseAnonKey (AppContext.st_config s) = Some key ∧
       url ≠ "" ∧ key ≠ "") ∧
  AppContext.mode (AppContext.st_config
    (AppContext.updateConfig (AppContext.mkPartial (Some None) None None) s))
    = AppContext.guest ∧
  AppContext.mode (AppContext.st_config
    (AppContext.updateConfig (AppContext.mkPartial None (Some None) None) s))
    = AppContext.guest ∧
  AppContext.mode (AppContext.st_config (AppContext.clearConfig s db).1)
    = AppContext.guest.
Proof.
  split; [|split; [|split]]; [|done| |done].
  - unfold AppContext.mode. split.
    + destruct (truthy (supabaseUrl _)) eqn:Hu; [|done].
      destruct (truthy (supabaseAnonKey _)) eqn:Hk; [|done]. intros _.
      apply truthy_Some in Hu as (u & ? & ?).
      apply truthy_Some in Hk as (k & ? & ?). by exists u, k.
    + intros (u & k & -> & -> & ? & ?). simpl.
      by rewrite !bool_decide_eq_true_2.
  - unfold AppContext.mode. simpl.
    by destruct (truthy (supabaseUrl _)).
Qed.

(** An empty URL would be non-null and give [guest]; the settings dialog
    never stores one (see [config_trace_no_empty_credential]). *)
Example mode_of_an_empty_url :
  let c := mkAppConfig (Some "") (Some "anon-key") None in
  ¬ (AppContext.mode c = AppContext.cloud ↔
     supabaseUrl c ≠ None ∧ supabaseAnonKey c ≠ None).
Proof. simpl. intros [_ Hcloud]. by discriminate Hcloud. Qed.

(** ** The lenient parse of the AI response *)

Lemma str_or_empty x : str_or x "" = x.
Proof. unfold str_or. by case_decide. Qed.

Lemma append_cons (x : ascii) (a b : string) :
  String x a +:+ b = String x (a +:+ b).
Proof. done. Qed.

Lemma append_assoc (a b c : string) : (a +:+ b) +:+ c = a +:+ (b +:+ c).
Proof.
  induction a as [|x a IH]; [done|]. by rewrite !append_cons, IH.
Qed.

Lemma upto_last_close_Some s m :
  AIGenerate.upto_last_close s = Some m →
  ∃ mid suf, s = mid +:+ "}" +:+ suf ∧ m = mid +:+ "}".
Proof.
  revert m. induction s as [|a s IH]; intros m; simpl; [done|].
  destruct (AIGenerate.upto_last_close s) as [m'|].
  - intros [= <-]. destruct (IH m' eq_refl) as (mid & suf & -> & ->).
    by exists (String a mid), suf.
  - case_decide as Ha; [|done]. intros [= <-]. subst a.
    by exists "", s.
Qed.

Lemma upto_last_close_None s mid suf :
  AIGenerate.upto_last_close s = None → s ≠ mid +:+ "}" +:+ suf.
Proof.
  revert mid. induction s as [|a s IH]; intros mid; simpl.
  { intros _. by destruct mid. }
  destruct (AIGenerate.upto_last_close s) as [m'|] eqn:Hs; [done|].
  case_decide as Ha; [done|]. intros _.
  destruct mid as [|b mid]; rewrite !append_cons.
  - intros [= -> _]. by destruct Ha.
  - intros [= _ ->]. by eapply IH.
Qed.

(** A match of the pattern is a brace-delimited block of the text. *)
Lemma match_braces_Some content block :
  AIGenerate.match_braces content = Some block →
  ∃ pre mid suf,
    content = pre +:+ "{" +:+ mid +:+ "}" +:+ suf ∧ block = "{" +:+ mid +:+ "}".
Proof.
  revert block. induction content as [|a s IH]; intros block; simpl; [done|].
  case_decide as Ha.
  - subst a. destruct (AIGenerate.upto_last_close s) as [m|] eqn:Hm; [|done].
    intros [= <-]. apply upto_last_close_Some in Hm as (mid & suf & -> & ->).
    by exists "", mid, suf.
  - intros Hb. destruct (IH block Hb) as (pre & mid & suf & -> & ->).
    by exists (String a pre), mid, suf.
Qed.

(** Conversely, a text that holds a brace-delimited block is matched. *)
Lemma match_braces_None content :
  AIGenerate.match_braces content = None → ¬ AIGenerate.has_brace_block content.
Proof.
  induction content as [|a s IH]; simpl.
  { intros _ (pre & mid & suf & Heq). by destruct pre. }
  case_decide as Ha.
  - subst a. destruct (AIGenerate.upto_last_close s) as [m|] eqn:Hm; [done|].
    intros _ (pre & mid & suf & Heq).
    destruct pre as [|b pre]; rewrite !append_cons in Heq.
    + injection Heq as Heq. by eapply upto_last_close_None.
    + injection Heq as _ Heq.
      eapply (upto_last_close_None s (pre +:+ "{" +:+ mid)); [done|].
      by rewrite Heq, !append_assoc.
  - intros Hnone (pre & mid & suf & Heq).
    destruct pre as [|b pre]; rewrite !append_cons in Heq.
    + injection Heq as Hab _. by destruct Ha.
    + injection Heq as _ Heq. apply IH; [done|]. by exists pre, mid, suf.
Qed.

(** C9.  When the AI key is configured, the response is a success and its
    text holds no brace-delimited block, [generate] returns the whole text
    as the description, an empty example, and the caller's language, or
    "javascript" when the caller's language is empty; no error toast is
    shown. *)
Theorem generate_fallback JSON_parse params text :
  ¬ AIGenerate.has_brace_block (default "" text) →
  AIGenerate.generate JSON_parse true params (AIGenerate.response_ok text) =
    (Some (AIGenerate.mkResult (default "" text) ""
             (if decide (AIGenerate.language params = "") then "javascript"
              else AIGenerate.language params)),
     None).
Proof.
  intros Hnone. unfold AIGenerate.generate. simpl. rewrite str_or_empty.
  destruct (AIGenerate.match_braces (default "" text)) as [block|] eqn:Hb; [|done].
  destruct Hnone. apply match_braces_Some in Hb as (pre & mid & suf & -> & _).
  by exists pre, mid, suf.
Qed.

(** ** The timestamp [updated_at] *)

Section updated_at.
Context {Server : Type}.
Context (supabase : SupabaseRequest → Server → Server * PostgrestResponse).
Import AppContext.
#[local] Existing Instances Async_ret Async_bind.

(** Creating an entry in guest mode stamps it with the current time. *)
Lemma useCreateEntry_stamps ctx entry new_id created_now updated_now
    (w : @World Server) :
  ctx_mode ctx = guest →
  ∃ w' e,
    useCreateEntry supabase ctx entry new_id created_now updated_now w
      = Resolved w' (Some e) ∧
    entries (local w') !! new_id = Some e ∧
    LocalSyntaxEntry.created_at e = created_now ∧
    LocalSyntaxEntry.updated_at e = updated_now.
Proof.
  intros Hm. eexists _, _.
  split; [by apply useCreateEntry_guest|].
  split; [apply lookup_insert_eq|done].
Qed.

(** Updating a stored entry in guest mode refreshes [updated_at]. *)
Lemma useUpdateEntry_refreshes ctx entry now (w : @World Server) existing :
  ctx_mode ctx = guest → wf (local w) →
  entries (local w) !! eu_id entry = Some existing →
  ∃ w' e,
    useUpdateEntry supabase ctx entry now w = Resolved w' tt ∧
    entries (local w') !! eu_id entry = Some e ∧
    LocalSyntaxEntry.updated_at e = now.
Proof.
  intros Hm [_ Hk] He. eexists _, _. split.
  { unfold useUpdateEntry. rewrite guest_not_cloud_client by done.
    run_async. unfold entriesDB.getAll.
    by rewrite (find_getAll _ _ _ Hk), He. }
  split; [apply lookup_insert_eq|done].
Qed.
End updated_at.

(** C4.  In guest mode the soft delete, the restore and the reorder write
    the record back with the [updated_at] it had: on the example store, a
    soft delete at a later time sets [deleted_at] to that time and leaves
    [updated_at] at the creation time; the restore that follows clears
    [deleted_at] and leaves [updated_at] alike; a reorder changes the
    position of "Array.map()" to 1 and leaves its [updated_at]. *)
Theorem guest_status_changes_keep_updated_at :
  ∃ w1 w2 w3,
    useSoftDeleteCheatsheet unreachable guest_ctx "c1" later sample_world
      = Resolved w1 tt ∧
    cheatsheets (local w1) !! "c1"
      = Some (LocalCheatsheet.mk "c1" "JS Basics" (Some "")
                "2024-01-01T00:00:00.000Z" "2024-01-01T00:00:00.000Z"
                (Some later)) ∧
    useRestoreCheatsheet unreachable guest_ctx "c1" w1 = Resolved w2 tt ∧
    cheatsheets (local w2) !! "c1"
      = Some (LocalCheatsheet.mk "c1" "JS Basics" (Some "")
                "2024-01-01T00:00:00.000Z" "2024-01-01T00:00:00.000Z" None) ∧
    useReorderEntries unreachable guest_ctx "c1" filter_first sample_world
      = Resolved w3 tt ∧
    entries (local w3) !! "e1"
      = Some (LocalSyntaxEntry.mk "e1" "c1" "Array.map()" "Arrays" (Some "")
                (Some "") None "card" "javascript" 1
                "2024-01-02T00:00:00.000Z" "2024-01-02T00:00:00.000Z").
Proof.
  eexists _, _, _.
  split; [vm_compute; reflexivity|]. split; [vm_compute; reflexivity|].
  split; [vm_compute; reflexivity|]. split; [vm_compute; reflexivity|].
  split; [vm_compute; reflexivity|]. vm_compute; reflexivity.
Qed.

(** ** Dispatch: an operation is served by one store only *)

Lemma wf_delete_each l db : wf db → wf (entriesDB.delete_each l db).
Proof.
  revert db. induction l as [|e l IH]; intros db Hwf; [done|].
  apply IH. by apply wf_entries_delete.
Qed.

Section dispatch.
Context {Server : Type}.
Context (supabase : SupabaseRequest → Server → Server * PostgrestResponse).
Import AppContext.
Implicit Types (w : @World Server) (ctx : AppContextType).
#[local] Existing Instances Async_ret Async_bind.

Lemma request_local r w :
  ∃ s resp, request supabase r w = Resolved (mkWorld (local w) s) resp.
Proof. unfold request. destruct (supabase r (remote w)) as [s resp]. eauto. Qed.

Lemma reorder_cloud_local asg w :
  local (world_of (reorder_cloud supabase asg w)) = local w.
Proof.
  revert w. induction asg as [|[k p] asg IH]; intros w; [done|].
  simpl. run_async.
  destruct (request_local (update_entry_position k p) w) as (s & resp & ->).
  destruct (error resp); [done|]. by rewrite IH.
Qed.

(** In cloud mode the mutations leave the Local Store as it is. *)
Lemma cloud_mutations_keep_local_store ctx w id now cid asg entry :
  cloud_client ctx = true →
  local (world_of (useSoftDeleteCheatsheet supabase ctx id now w)) = local w ∧
  local (world_of (useRestoreCheatsheet supabase ctx id w)) = local w ∧
  local (world_of (usePermanentDeleteCheatsheet supabase ctx id w)) = local w ∧
  local (world_of (useUpdateEntry supabase ctx entry now w)) = local w ∧
  local (world_of (useDeleteEntry supabase ctx id cid w)) = local w ∧
  local (world_of (useReorderEntries supabase ctx cid asg w)) = local w.
Proof.
  intros Hc.
  unfold useSoftDeleteCheatsheet, useRestoreCheatsheet,
    usePermanentDeleteCheatsheet, useUpdateEntry, useDeleteEntry,
    useReorderEntries.
  rewrite !Hc. split_and!; try apply reorder_cloud_local; run_async.
  - destruct (request_local (update_cheatsheet_deleted_at id (Some now)) w)
      as (s & resp & ->). by destruct (error resp).
  - destruct (request_local (update_cheatsheet_deleted_at id None) w)
      as (s & resp & ->). by destruct (error resp).
  - destruct (request_local (delete_entries_of id) w) as (s & resp & ->).
    destruct (request_local (delete_cheatsheet id) (mkWorld (local w) s))
      as (s' & resp' & ->). by destruct (error resp').
  - destruct (request_local (update_entry entry) w) as (s & resp & ->).
    by destruct (error resp).
  - destruct (request_local (delete_entry id) w) as (s & resp & ->).
    by destruct (error resp).
Qed.

(** In guest mode every mutation keeps the Local Store well formed and
    leaves the hosted backend alone. *)
Lemma guest_mutations_keep_wf ctx w id now cid asg entry :
  ctx_mode ctx = guest → wf (local w) →
  let ok (o : Outcome unit) :=
    wf (local (world_of o)) ∧ remote (world_of o) = remote w in
  ok (useSoftDeleteCheatsheet supabase ctx id now w) ∧
  ok (useRestoreCheatsheet supabase ctx id w) ∧
  ok (usePermanentDeleteCheatsheet supabase ctx id w) ∧
  ok (useUpdateEntry supabase ctx entry now w) ∧
  ok (useDeleteEntry supabase ctx id cid w) ∧
  ok (useReorderEntries supabase ctx cid asg w).
Proof.
  intros Hm Hwf ok. subst ok. cbv beta.
  rewrite useSoftDeleteCheatsheet_guest, useRestoreCheatsheet_guest,
    useReorderEntries_guest by done.
  rewrite usePermanentDeleteCheatsheet_local
    by by apply guest_not_cloud_client.
  unfold useUpdateEntry, useDeleteEntry.
  rewrite !guest_not_cloud_client by done. run_async.
  destruct (cheatsheetsDB.get id (local w)), (List.find _ _); simpl;
    split_and!; try done;
    auto using wf_cheatsheets_put, wf_cheatsheets_delete, wf_delete_each,
      wf_entries_put, wf_entries_delete, wf_reorder.
  all: by apply wf_cheatsheets_delete, wf_delete_each.
Qed.
End dispatch.

(** In cloud mode, against a backend that accepts everything, a reorder
    issues one position update per assignment, in the order given, and a
    purge issues the deletion of the entries and then that of the
    cheatsheet. *)
Lemma cloud_reorder_log ctx cid asg db log :
  cloud_client ctx = true →
  useReorderEntries recording ctx cid asg (mkWorld db log) =
    Resolved (mkWorld db
      (log ++ ((λ kp, update_entry_position kp.1 kp.2) <$> asg))%list) tt.
Proof.
  intros Hc. unfold useReorderEntries. rewrite Hc.
  revert log. induction asg as [|[k p] asg IH]; intros log.
  { simpl. by rewrite app_nil_r. }
  simpl. unfold mbind, Async_bind, request. simpl.
  rewrite IH. by rewrite <-app_assoc.
Qed.

Lemma cloud_purge_log ctx id db log :
  cloud_client ctx = true →
  usePermanentDeleteCheatsheet recording ctx id (mkWorld db log) =
    Resolved (mkWorld db
      (log ++ [delete_entries_of id; delete_cheatsheet id])%list) tt.
Proof.
  intros Hc. unfold usePermanentDeleteCheatsheet. rewrite Hc.
  unfold mbind, Async_bind, request. simpl. by rewrite <-app_assoc.
Qed.

(** The requests of a purge and of a reorder of the example in cloud mode. *)
Example cloud_purge_requests :
  usePermanentDeleteCheatsheet recording cloud_ctx "c1" (mkWorld sample_db [])
  = Resolved (mkWorld sample_db [delete_entries_of "c1"; delete_cheatsheet "c1"]) tt.
Proof. reflexivity. Qed.

Example cloud_reorder_requests :
  useReorderEntries recording cloud_ctx "c1" filter_first (mkWorld sample_db [])
  = Resolved (mkWorld sample_db [update_entry_position "e2" 0;
                                 update_entry_position "e1" 1]) tt.
Proof. reflexivity. Qed.

(** ** Drag and drop *)

Lemma arrayMove_Permutation {A} (array : list A) from to moved :
  arrayMove array from to = Some moved → moved ≡ₚ array.
Proof.
  unfold arrayMove.
  set (i := splice_start _ from). set (j := splice_start _ _).
  destruct (array !! i) as [x|] eqn:Hx; [|done]. intros [= <-].
  rewrite <-Permutation_middle, take_drop.
  by rewrite Permutation_middle, take_drop_middle.
Qed.

Lemma dense_updates_ids l : (dense_updates l).*1 = LocalSyntaxEntry.id <$> l.
Proof.
  unfold dense_updates. rewrite fmap_imap, <-imap_const. by apply imap_ext.
Qed.

Lemma dense_updates_positions l :
  (dense_updates l).*2 = seqZ 0 (Z.of_nat (length l)).
Proof.
  unfold dense_updates, seqZ. rewrite fmap_imap, Nat2Z.id, <-imap_seq_0.
  apply imap_ext. intros i e _. simpl. lia.
Qed.

(** The assignment that [handleDragEnd] submits lists every entry shown
    once and numbers them 0, 1, ..., n-1. *)
Lemma handleDragEnd_dense entries active_id over updates :
  handleDragEnd (Some entries) active_id over = Some updates →
  updates.*1 ≡ₚ LocalSyntaxEntry.id <$> entries ∧
  updates.*2 = seqZ 0 (Z.of_nat (length entries)).
Proof.
  unfold handleDragEnd. destruct over as [over_id|]; [|done].
  case_bool_decide; [|done].
  destruct (arrayMove entries _ _) as [moved|] eqn:Hmove; [|done].
  intros [= <-]. apply arrayMove_Permutation in Hmove.
  rewrite dense_updates_ids, dense_updates_positions.
  split; [by rewrite Hmove|]. by rewrite Hmove.
Qed.

(** Dragging "Array.filter()" onto "Array.map()" submits the assignment
    of the example. *)
Example drag_filter_first :
  handleDragEnd (Some [array_map; array_filter]) "e2" (Some "e1")
  = Some filter_first.
Proof. reflexivity. Qed.

(** ** The theorems at the example of the specification *)

Lemma wf_sample_db : wf sample_db.
Proof.
  unfold sample_db.
  by apply wf_entries_put, wf_entries_put, wf_cheatsheets_put, wf_empty.
Qed.

Lemma sample_positions k x :
  entries sample_db !! k = Some x → 0 ≤ LocalSyntaxEntry.position x ≤ 1.
Proof.
  unfold sample_db. simpl. unfold put. intros Hk.
  apply lookup_insert_Some in Hk as [[_ <-]|[_ Hk]]; [done|].
  apply lookup_insert_Some in Hk as [[_ <-]|[_ Hk]]; [done|].
  by rewrite lookup_empty in Hk.
Qed.

Example guest_state_is_guest : AppContext.useApp guest_state = Some guest_ctx.
Proof. reflexivity. Qed.

Lemma reorder_density_witness :
  ∃ w' after,
    useReorderEntries unreachable guest_ctx "c1" filter_first sample_world
      = Resolved w' tt ∧
    useSyntaxEntries unreachable guest_ctx "c1" w' = Resolved w' after ∧
    LocalSyntaxEntry.position <$> after = seqZ 0 (Z.of_nat 2) ∧
    LocalSyntaxEntry.id <$> after ≡ₚ ["e1"; "e2"] ∧
    (∀ i e, after !! i = Some e →
       (LocalSyntaxEntry.id e, Z.of_nat i) ∈ filter_first ∧
       ∃ e0, e0 ∈ [array_map; array_filter] ∧
             e = LocalSyntaxEntry.with_position e0 (Z.of_nat i)).
Proof.
  apply (reorder_density unreachable guest_ctx "c1" filter_first sample_world
           [array_map; array_filter]).
  - reflexivity.
  - apply wf_sample_db.
  - vm_compute. reflexivity.
  - apply Permutation_swap.
  - reflexivity.
Defined.

Lemma append_position_witness :
  ∃ w' e,
    handleSaveEntry unreachable guest_ctx "c1" (Some [array_map; array_filter])
      new_entry_form "e3" later later sample_world = Resolved w' true ∧
    entries (local w') !! "e3" = Some e ∧
    LocalSyntaxEntry.position e = 2 ∧
    entries (local w') !! "e1" = Some array_map ∧
    entries (local w') !! "e2" = Some array_filter.
Proof.
  destruct (append_position unreachable guest_ctx "c1" sample_world
              (Some [array_map; array_filter]) new_entry_form "e3" later later)
    as (w' & e & Hsave & He & _ & _ & Hmax & _ & Hframe).
  - reflexivity.
  - intros x [->|[->|[]%elem_of_nil]%elem_of_cons]%elem_of_cons; done.
  - reflexivity.
  - reflexivity.
  - vm_compute. reflexivity.
  - exists w', e. split; [exact Hsave|]. split; [exact He|]. split.
    + apply (Hmax [array_map; array_filter] array_filter eq_refl).
      * apply elem_of_cons. right. apply list_elem_of_here.
      * intros x [->|[->|[]%elem_of_nil]%elem_of_cons]%elem_of_cons; done.
    + split; (rewrite Hframe by done; vm_compute; reflexivity).
Defined.

(** C2, as stated, fails.  The position is computed from the list the
    editor holds, not from the store: while the query is still loading, an
    entry added to the cheatsheet of the example (positions 0 and 1) gets
    position 0; with a list read before "Array.filter()" was added (by
    another tab, say) it gets position 1.  Neither is 2, and both are
    taken. *)
Lemma append_position_from_the_held_list :
  let unloaded :=
    LocalSyntaxEntry.mk "e3" "c1" "Array.reduce()" "Arrays" (Some "") (Some "")
      None "card" "javascript" 0 later later in
  let stale :=
    LocalSyntaxEntry.mk "e3" "c1" "Array.reduce()" "Arrays" (Some "") (Some "")
      None "card" "javascript" 1 later later in
  handleSaveEntry unreachable guest_ctx "c1" None
    new_entry_form "e3" later later sample_world
  = Resolved (mkWorld (entriesDB.put unloaded sample_db) tt) true ∧
  handleSaveEntry unreachable guest_ctx "c1" (Some [array_map])
    new_entry_form "e3" later later sample_world
  = Resolved (mkWorld (entriesDB.put stale sample_db) tt) true ∧
  entries sample_db !! "e1" = Some array_map ∧
  entries sample_db !! "e2" = Some array_filter ∧
  LocalSyntaxEntry.cheatsheet_id array_filter = "c1" ∧
  (∀ k x, entries sample_db !! k = Some x →
          LocalSyntaxEntry.position x ≤ LocalSyntaxEntry.position array_filter) ∧
  LocalSyntaxEntry.position unloaded ≠ LocalSyntaxEntry.position array_filter + 1 ∧
  LocalSyntaxEntry.position stale ≠ LocalSyntaxEntry.position array_filter + 1 ∧
  LocalSyntaxEntry.position unloaded = LocalSyntaxEntry.position array_map ∧
  LocalSyntaxEntry.position stale = LocalSyntaxEntry.position array_filter.
Proof.
  simpl. split; [reflexivity|]. split; [reflexivity|].
  split; [vm_compute; reflexivity|]. split; [vm_compute; reflexivity|].
  split; [done|]. split; [|done].
  intros k x Hk. apply (sample_positions k x Hk).
Qed.

Lemma soft_delete_then_restore_witness :
  ∃ w1 w2 y,
    useSoftDeleteCheatsheet unreachable guest_ctx "c1" later sample_world
      = Resolved w1 tt ∧
    useCheatsheet unreachable guest_ctx "c1" w1 =
      Resolved w1 (Some (LocalCheatsheet.with_deleted_at js_basics (Some later))) ∧
    useRestoreCheatsheet unreachable guest_ctx "c1" w1 = Resolved w2 tt ∧
    useCheatsheet unreachable guest_ctx "c1" w2 = Resolved w2 (Some y) ∧
    LocalCheatsheet.id y = LocalCheatsheet.id js_basics ∧
    LocalCheatsheet.title y = LocalCheatsheet.title js_basics ∧
    LocalCheatsheet.description y = LocalCheatsheet.description js_basics ∧
    LocalCheatsheet.created_at y = LocalCheatsheet.created_at js_basics ∧
    LocalCheatsheet.deleted_at y = None.
Proof.
  apply (soft_delete_then_restore unreachable guest_ctx "c1" later sample_world
           js_basics).
  - reflexivity.
  - apply wf_sample_db.
  - vm_compute. reflexivity.
Defined.

Lemma cheatsheet_in_exactly_one_view_witness :
  ∃ act tr,
    useCheatsheets unreachable iso_time guest_ctx active sample_world
      = Resolved sample_world act ∧
    useCheatsheets unreachable iso_time guest_ctx trash sample_world
      = Resolved sample_world tr ∧
    (LocalCheatsheet.deleted_at js_basics = None → js_basics ∈ act ∧ js_basics ∉ tr) ∧
    (LocalCheatsheet.deleted_at js_basics ≠ None → js_basics ∈ tr ∧ js_basics ∉ act) ∧
    (act ++ tr)%list ≡ₚ cheatsheetsDB.getAll (local sample_world).
Proof.
  apply (cheatsheet_in_exactly_one_view unreachable iso_time guest_ctx
           sample_world "c1" js_basics).
  - reflexivity.
  - vm_compute. reflexivity.
Defined.

Lemma generate_fallback_witness :
  AIGenerate.generate no_json true
    (AIGenerate.mkParams "Array.map()" "Arrays" None "card" "")
    (AIGenerate.response_ok (Some "Maps each element of an array.")) =
  (Some (AIGenerate.mkResult "Maps each element of an array." "" "javascript"),
   None).
Proof.
  apply (generate_fallback no_json
           (AIGenerate.mkParams "Array.map()" "Arrays" None "card" "")
           (Some "Maps each element of an array.")).
  apply match_braces_None. reflexivity.
Defined.

Lemma guest_soft_delete_restore_unknown_id_witness :
  useSoftDeleteCheatsheet unreachable guest_ctx "c9" later sample_world
    = Resolved sample_world tt ∧
  useRestoreCheatsheet unreachable guest_ctx "c9" sample_world
    = Resolved sample_world tt.
Proof.
  apply (guest_soft_delete_restore_unknown_id unreachable guest_ctx "c9" later
           sample_world).
  - reflexivity.
  - apply wf_sample_db.
  - vm_compute. reflexivity.
Defined.

(** The example store is what the hooks build from an empty one: create
    the cheatsheet, then save the two entries, each with the list read just
    before. *)
Example scenario_create_and_append :
  ∃ w1 w2 w3,
    useCreateCheatsheet unreachable guest_ctx "JS Basics" "" "c1"
      "2024-01-01T00:00:00.000Z" "2024-01-01T00:00:00.000Z" (mkWorld emptyDB tt)
      = Resolved w1 (Some js_basics) ∧
    useSyntaxEntries unreachable guest_ctx "c1" w1 = Resolved w1 [] ∧
    handleSaveEntry unreachable guest_ctx "c1" (Some [])
      (mkForm "Array.map()" "Arrays" "" "" "card" "javascript") "e1"
      "2024-01-02T00:00:00.000Z" "2024-01-02T00:00:00.000Z" w1
      = Resolved w2 true ∧
    useSyntaxEntries unreachable guest_ctx "c1" w2 = Resolved w2 [array_map] ∧
    handleSaveEntry unreachable guest_ctx "c1" (Some [array_map])
      (mkForm "Array.filter()" "Arrays" "" "" "card" "javascript") "e2"
      "2024-01-03T00:00:00.000Z" "2024-01-03T00:00:00.000Z" w2
      = Resolved w3 true ∧
    w3 = sample_world.
Proof.
  exists (mkWorld (cheatsheetsDB.put js_basics emptyDB) tt),
    (mkWorld (entriesDB.put array_map (cheatsheetsDB.put js_basics emptyDB)) tt),
    sample_world.
  split_and!; vm_compute; reflexivity.
Qed.

(** Every entry of the example store has its parent; had the purge
    removed the cheatsheet first, the state in between would hold two
    orphans. *)
Lemma sample_no_orphans : no_orphans sample_db.
Proof.
  intros k e Hk. unfold sample_db in Hk. simpl in Hk. unfold put in Hk.
  apply lookup_insert_Some in Hk as [[_ <-]|[_ Hk]]; [by eexists|].
  apply lookup_insert_Some in Hk as [[_ <-]|[_ Hk]]; [by eexists|].
  by rewrite lookup_empty in Hk.
Qed.

Example cheatsheet_first_orphans : ¬ no_orphans (cheatsheetsDB.delete "c1" sample_db).
Proof.
  intros Hno. destruct (Hno "e1" array_map) as [c Hc]; [reflexivity|].
  vm_compute in Hc. discriminate Hc.
Qed.


Example scenario_trash :
  ∃ w1 w2,
    useSoftDeleteCheatsheet unreachable guest_ctx "c1" later sample_world
      = Resolved w1 tt ∧
    useCheatsheets unreachable iso_time guest_ctx active w1 = Resolved w1 [] ∧
    useCheatsheets unreachable iso_time guest_ctx trash w1
      = Resolved w1 [LocalCheatsheet.with_deleted_at js_basics (Some later)] ∧
    useRestoreCheatsheet unreachable guest_ctx "c1" w1 = Resolved w2 tt ∧
    useCheatsheets unreachable iso_time guest_ctx active w2 = Resolved w2 [js_basics] ∧
    useCheatsheets unreachable iso_time guest_ctx trash w2 = Resolved w2 [].
Proof.
  exists (mkWorld (cheatsheetsDB.put
            (LocalCheatsheet.with_deleted_at js_basics (Some later)) sample_db) tt),
    sample_world.
  split_and!; vm_compute; reflexivity.
Qed.

(** The scenario of the specification: after the reorder the list reads
    "Array.filter()", "Array.map()". *)
Example scenario_reorder :
  ∃ w' after,
    useReorderEntries unreachable guest_ctx "c1" filter_first sample_world
      = Resolved w' tt ∧
    useSyntaxEntries unreachable guest_ctx "c1" w' = Resolved w' after ∧
    LocalSyntaxEntry.syntax <$> after = ["Array.filter()"; "Array.map()"].
Proof.
  eexists _, _. split; [vm_compute; reflexivity|].
  split; vm_compute; reflexivity.
Qed.

(** * Further properties of the embedded code *)

(** ** [getAll] is determined by the store *)

Section getAll_exact.
Context {T : Type}.
Implicit Types (store : gmap string T) (l : list (string * T)).

#[local] Instance by_key_total : Total (λ a b : string * T, String.le a.1 b.1).
Proof. intros a b. apply (total String.le). Qed.

#[local] Instance by_key_trans : Transitive (λ a b : string * T, String.le a.1 b.1).
Proof. intros a b c. apply (transitivity (R:=String.le)). Qed.

(** Any enumeration of the store in ascending key order is [getAll]. *)
Lemma getAll_unique store l :
  Sorted (λ a b : string * T, String.le a.1 b.1) l →
  l ≡ₚ map_to_list store → getAll store = l.*2.
Proof.
  intros Hs Hp. unfold getAll. f_equal.
  apply (Sorted_unique_strong (λ a b : string * T, String.le a.1 b.1));
    [|apply Sorted_merge_sort; apply _|done|by rewrite merge_sort_Permutation].
  intros [k1 x1] [k2 x2] H1 H2 Hle1 Hle2. simpl in *.
  assert (k1 = k2) as -> by (by apply (anti_symm String.le)).
  rewrite merge_sort_Permutation in H1. rewrite Hp in H2.
  apply elem_of_map_to_list in H1, H2. congruence.
Qed.

Lemma getAll_fmap_eq (f : T → T) store : getAll (f <$> store) = f <$> getAll store.
Proof.
  rewrite (getAll_unique (f <$> store)
             (prod_map id f <$> merge_sort (λ a b : string * T, String.le a.1 b.1)
                                           (map_to_list store))).
  - unfold getAll. rewrite <-!list_fmap_compose. apply list_fmap_ext. by intros ? [].
  - apply (Sorted_fmap _ (λ a b : string * T, String.le a.1 b.1)).
    + by intros [] [].
    + apply Sorted_merge_sort; apply _.
  - by rewrite map_to_list_fmap, merge_sort_Permutation.
Qed.
End getAll_exact.

(** ** Sorting, exactly *)

Section sorting_exact.
Context {A : Type}.
Implicit Types (l : list A) (key : A → Z).

Lemma Sorted_filter (R : relation A) `{!Transitive R}
    (P : A → Prop) `{∀ x, Decision (P x)} l :
  Sorted R l → Sorted R (filter P l).
Proof.
  intros Hs%Sorted_StronglySorted; [|done]. apply StronglySorted_Sorted.
  induction Hs as [|x l Hs IH Hx]; [constructor|].
  rewrite filter_cons. case_decide; [|done].
  constructor; [done|]. apply Forall_forall. intros y [_ Hy]%list_elem_of_filter.
  by eapply Forall_forall in Hx.
Qed.

Lemma filter_all (P : A → Prop) `{∀ x, Decision (P x)} l :
  (∀ x, x ∈ l → P x) → filter P l = l.
Proof.
  induction l as [|x l IH]; [done|]. intros Hall.
  rewrite filter_cons_True by (apply Hall; left).
  rewrite IH; [done|]. intros y Hy. apply Hall. by right.
Qed.

Lemma sort_insert_fmap (f : A → A) (cmp : A → A → Z) e l :
  (∀ a b, cmp (f a) (f b) = cmp a b) →
  sort_insert cmp (f e) (f <$> l) = f <$> sort_insert cmp e l.
Proof.
  intros Hf. induction l as [|x l IH]; [done|]. simpl.
  rewrite Hf. destruct (cmp e x <=? 0); [done|]. simpl. f_equal. apply IH.
Qed.

Lemma Array_sort_cons (cmp : A → A → Z) x l :
  Array_sort cmp (x :: l) = sort_insert cmp x (Array_sort cmp l).
Proof. done. Qed.

Lemma Array_sort_fmap (f : A → A) (cmp : A → A → Z) l :
  (∀ a b, cmp (f a) (f b) = cmp a b) →
  Array_sort cmp (f <$> l) = f <$> Array_sort cmp l.
Proof.
  intros Hf. induction l as [|x l IH]; [done|].
  rewrite fmap_cons, !Array_sort_cons, IH. by apply sort_insert_fmap.
Qed.

Lemma sort_insert_least key e l :
  (∀ x, x ∈ l → key e ≤ key x) →
  sort_insert (λ a b, key a - key b) e l = e :: l.
Proof.
  destruct l as [|x l]; [done|]. intros Hle. simpl.
  specialize (Hle x (list_elem_of_here _ _)).
  destruct (Z.leb_spec (key e - key x) 0); [done|lia].
Qed.

Lemma sort_insert_filter key (P : A → Prop) `{∀ x, Decision (P x)} e l :
  Sorted (λ a b, key a ≤ key b) l →
  filter P (sort_insert (λ a b, key a - key b) e l) =
    if decide (P e) then sort_insert (λ a b, key a - key b) e (filter P l)
    else filter P l.
Proof.
  intros Hs.
  assert (Transitive (λ a b, key a ≤ key b)) by (intros a b c; lia).
  apply (Sorted_StronglySorted (λ a b, key a ≤ key b)) in Hs.
  induction Hs as [|x l Hs IH Hx].
  { simpl. rewrite filter_cons, filter_nil. by destruct (decide (P e)). }
  simpl. destruct (Z.leb_spec (key e - key x) 0) as [Hle|Hgt].
  - rewrite (filter_cons _ e). destruct (decide (P e)); [|done].
    rewrite sort_insert_least; [done|].
    intros y [_ Hy]%list_elem_of_filter. apply elem_of_cons in Hy as [->|Hy]; [lia|].
    eapply Forall_forall in Hx; [|done]. simpl in Hx. lia.
  - rewrite !(filter_cons _ x). destruct (decide (P x)).
    + rewrite IH. destruct (decide (P e)); [|done]. simpl.
      destruct (Z.leb_spec (key e - key x) 0); [lia|done].
    + apply IH.
Qed.

Lemma Array_sort_filter key (P : A → Prop) `{∀ x, Decision (P x)} l :
  filter P (Array_sort (λ a b, key a - key b) l) =
    Array_sort (λ a b, key a - key b) (filter P l).
Proof.
  induction l as [|x l IH]; [done|].
  rewrite filter_cons, Array_sort_cons.
  rewrite sort_insert_filter by apply (Array_sort_Sorted key).
  rewrite IH. by destruct (decide (P x)).
Qed.

Lemma sort_insert_snoc key e l y :
  key e ≤ key y →
  sort_insert (λ a b, key a - key b) e (l ++ [y]) =
    (sort_insert (λ a b, key a - key b) e l ++ [y])%list.
Proof.
  intros Hle. induction l as [|x l IH]; simpl.
  - destruct (Z.leb_spec (key e - key y) 0); [done|lia].
  - destruct (key e - key x <=? 0); [done|]. simpl. by rewrite IH.
Qed.

Lemma sort_insert_greatest key e l :
  (∀ x, x ∈ l → key x < key e) →
  sort_insert (λ a b, key a - key b) e l = (l ++ [e])%list.
Proof.
  induction l as [|x l IH]; [done|]. intros Hlt. simpl.
  destruct (Z.leb_spec (key e - key x) 0) as [Hle|_].
  - specialize (Hlt x (list_elem_of_here _ _)). lia.
  - rewrite IH; [done|]. intros y Hy. apply Hlt. by right.
Qed.

Lemma Array_sort_middle_greatest key l1 y l2 :
  (∀ x, x ∈ (l1 ++ l2)%list → key x < key y) →
  Array_sort (λ a b, key a - key b) (l1 ++ y :: l2) =
    (Array_sort (λ a b, key a - key b) (l1 ++ l2) ++ [y])%list.
Proof.
  induction l1 as [|x l1 IH]; intros Hlt.
  - rewrite !app_nil_l, Array_sort_cons. apply sort_insert_greatest.
    intros x Hx. apply Hlt. by apply elem_of_Array_sort in Hx.
  - rewrite <-!app_comm_cons, !Array_sort_cons, IH.
    + apply sort_insert_snoc. specialize (Hlt x (list_elem_of_here _ _)). lia.
    + intros z Hz. apply Hlt. by right.
Qed.
End sorting_exact.

Section sorting_more.
Context {A : Type}.

Lemma Array_sort_ext (cmp1 cmp2 : A → A → Z) (l : list A) :
  (∀ a b, cmp1 a b = cmp2 a b) → Array_sort cmp1 l = Array_sort cmp2 l.
Proof.
  intros Hext. induction l as [|x l IH]; [done|].
  rewrite !Array_sort_cons, IH. generalize (Array_sort cmp2 l). intros s.
  induction s as [|y s IHs]; [done|]. simpl. by rewrite Hext, IHs.
Qed.

Lemma Sorted_fmap_elem_of {B} (f : A → B) (R1 : relation A) (R2 : relation B)
    (l : list A) :
  (∀ x y, x ∈ l → y ∈ l → R1 x y → R2 (f x) (f y)) →
  Sorted R1 l → Sorted R2 (f <$> l).
Proof.
  intros Hf Hs. induction Hs as [|x l Hs IH Hhd]; [constructor|].
  rewrite fmap_cons. constructor.
  - apply IH. intros a b Ha Hb. apply Hf; by right.
  - destruct Hhd as [|y l Hxy]; constructor.
    apply Hf; [left|right; left|done].
Qed.

(** The sort is stable: among equal keys the order of the input is kept. *)
Lemma sort_insert_stable (key : A → Z) (T : relation A) e (l : list A) :
  (∀ y, y ∈ l → T e y) →
  Sorted (λ a b, key a < key b ∨ key a = key b ∧ T a b) l →
  Sorted (λ a b, key a < key b ∨ key a = key b ∧ T a b)
         (sort_insert (λ a b, key a - key b) e l).
Proof.
  intros HT Hs. induction Hs as [|x l Hs IH Hhd]; simpl.
  { repeat constructor. }
  destruct (Z.leb_spec (key e - key x) 0) as [Hle|Hgt].
  - constructor; [by constructor|]. constructor.
    specialize (HT x (list_elem_of_here _ _)).
    destruct (decide (key e = key x)); [by right|left; lia].
  - constructor.
    + apply IH. intros y Hy. apply HT. by right.
    + destruct Hhd as [|y l Hxy]; simpl.
      * constructor. left; lia.
      * destruct (key e - key y <=? 0); constructor; [left; lia|done].
Qed.

Lemma Array_sort_stable (key : A → Z) (T : relation A) (l : list A) :
  StronglySorted T l →
  Sorted (λ a b, key a < key b ∨ key a = key b ∧ T a b)
         (Array_sort (λ a b, key a - key b) l).
Proof.
  induction 1 as [|x l Hs IH Hx]; [constructor|].
  rewrite Array_sort_cons. apply sort_insert_stable; [|done].
  intros y Hy%elem_of_Array_sort. by eapply Forall_forall in Hx.
Qed.
End sorting_more.

(** ** Object stores, exactly *)

Section getAll_exact1.
Context {T : Type}.

#[local] Instance by_key_total1 : Total (λ a b : string * T, String.le a.1 b.1).
Proof. intros a b. apply (total String.le). Qed.

#[local] Instance by_key_trans1 : Transitive (λ a b : string * T, String.le a.1 b.1).
Proof. intros a b c. apply (transitivity (R:=String.le)). Qed.

Lemma getAll_filter (P : T → Prop) `{∀ x, Decision (P x)} store :
  getAll (filter (λ kv : string * T, P kv.2) store) = filter P (getAll store).
Proof.
  rewrite (getAll_unique _
             (filter (λ kv : string * T, P kv.2)
                (merge_sort (λ a b : string * T, String.le a.1 b.1)
                            (map_to_list store)))).
  - unfold getAll. generalize (merge_sort (λ a b : string * T, String.le a.1 b.1)
                                           (map_to_list store)).
    intros l. induction l as [|[i x] l IH]; [done|].
    rewrite fmap_cons, !filter_cons. simpl. rewrite <-IH.
    by destruct (decide (P x)).
  - apply Sorted_filter; [apply _|]. apply Sorted_merge_sort; apply _.
  - apply NoDup_Permutation.
    + apply NoDup_filter. rewrite merge_sort_Permutation. apply NoDup_map_to_list.
    + apply NoDup_map_to_list.
    + intros [i x]. rewrite list_elem_of_filter, merge_sort_Permutation.
      rewrite !elem_of_map_to_list, map_lookup_filter_Some. simpl. tauto.
Qed.

End getAll_exact1.

Section getAll_exact2.
Context {T : Type} (keyPath : T → string).
Implicit Types (store : gmap string T) (l : list (string * T)).

#[local] Instance by_key_total' : Total (λ a b : string * T, String.le a.1 b.1).
Proof. intros a b. apply (total String.le). Qed.

#[local] Instance by_key_trans' : Transitive (λ a b : string * T, String.le a.1 b.1).
Proof. intros a b c. apply (transitivity (R:=String.le)). Qed.

Lemma getAll_delete store k :
  keyed keyPath store →
  getAll (delete k store) = filter (λ x, keyPath x ≠ k) (getAll store).
Proof.
  intros Hk.
  rewrite (getAll_unique (delete k store)
             (filter (λ kv, kv.1 ≠ k)
                (merge_sort (λ a b : string * T, String.le a.1 b.1)
                            (map_to_list store)))).
  - unfold getAll.
    assert (∀ l, (∀ kv, kv ∈ l → keyPath kv.2 = kv.1) →
              (filter (λ kv : string * T, kv.1 ≠ k) l).*2
              = filter (λ x, keyPath x ≠ k) l.*2) as Hl.
    { induction l as [|[i x] l IH]; [done|]. intros Hin.
      pose proof (Hin (i, x) (list_elem_of_here _ _)) as Hix. simpl in Hix.
      rewrite fmap_cons, !filter_cons. simpl. rewrite Hix.
      rewrite <-IH by (intros; apply Hin; by right).
      by destruct (decide (i ≠ k)). }
    apply Hl. intros [i x] Hin. rewrite merge_sort_Permutation in Hin.
    apply elem_of_map_to_list in Hin. by apply Hk.
  - apply Sorted_filter; [apply _|]. apply Sorted_merge_sort; apply _.
  - apply NoDup_Permutation.
    + apply NoDup_filter. rewrite merge_sort_Permutation. apply NoDup_map_to_list.
    + apply NoDup_map_to_list.
    + intros [i x]. rewrite list_elem_of_filter, merge_sort_Permutation.
      rewrite !elem_of_map_to_list, lookup_delete_Some. simpl.
      split; intros [? ?]; (split; [congruence|done]).
Qed.

Lemma insert_existing_fmap store k x y :
  keyed keyPath store → store !! k = Some x →
  <[k := y]> store = (λ e, if decide (keyPath e = k) then y else e) <$> store.
Proof.
  intros Hk Hx. apply map_eq. intros i. rewrite lookup_fmap.
  destruct (decide (i = k)) as [->|Hne].
  - rewrite lookup_insert_eq, Hx. simpl. by rewrite decide_True by by apply Hk.
  - rewrite lookup_insert_ne by done. destruct (store !! i) as [z|] eqn:Hz; [|done].
    simpl. by rewrite decide_False by (by rewrite (Hk _ _ Hz)).
Qed.

Lemma getAll_put_existing store x y :
  keyed keyPath store → store !! keyPath y = Some x →
  getAll (put keyPath y store) =
    (λ e, if decide (keyPath e = keyPath y) then y else e) <$> getAll store.
Proof.
  intros Hk Hx. unfold put. erewrite insert_existing_fmap by done.
  apply getAll_fmap_eq.
Qed.

Lemma getAll_put_fresh store y :
  keyed keyPath store → store !! keyPath y = None →
  ∃ xs ys : list T, getAll store = (xs ++ ys)%list ∧
                    getAll (put keyPath y store) = (xs ++ y :: ys)%list.
Proof.
  intros Hk Hy.
  assert (keyed keyPath (put keyPath y store)) as Hk' by by apply keyed_put.
  assert (y ∈ getAll (put keyPath y store)) as Hin.
  { apply (elem_of_getAll_keyed keyPath); [done|]. unfold put. by rewrite lookup_insert_eq. }
  apply list_elem_of_split in Hin as (xs & ys & Hsplit).
  exists xs, ys. split; [|done].
  pose proof (NoDup_getAll_keys keyPath _ Hk') as Hnd.
  rewrite Hsplit, fmap_app, fmap_cons in Hnd.
  apply NoDup_app in Hnd as (Hnd1 & Hnd12 & Hnd2).
  apply NoDup_cons in Hnd2 as [Hnd2 _].
  rewrite <-(delete_insert_id store (keyPath y) y) by done.
  rewrite (getAll_delete _ _ Hk'). fold (put keyPath y store). rewrite Hsplit.
  rewrite filter_app, filter_cons, decide_False by (by intros []).
  f_equal; apply filter_all; intros z Hz Heq.
  - apply (Hnd12 (keyPath z)); [by apply list_elem_of_fmap_2|].
    rewrite Heq. left.
  - apply Hnd2. rewrite <-Heq. by apply list_elem_of_fmap_2.
Qed.

(** [getAll] lists the records in ascending order of their keys. *)
Lemma getAll_Sorted_keys store :
  keyed keyPath store →
  Sorted (λ a b, String.le (keyPath a) (keyPath b)) (getAll store).
Proof.
  intros Hk. unfold getAll.
  apply (Sorted_fmap_elem_of snd (λ a b : string * T, String.le a.1 b.1)).
  - intros [i x] [j y] Hx Hy. rewrite merge_sort_Permutation in Hx, Hy.
    apply elem_of_map_to_list in Hx, Hy. simpl.
    by rewrite (Hk _ _ Hx), (Hk _ _ Hy).
  - apply Sorted_merge_sort; apply _.
Qed.
End getAll_exact2.

(** ** Trimming *)

Lemma string_length_ind (P : string → Prop) :
  (∀ s, (∀ t, (String.length t < String.length s)%nat → P t) → P s) → ∀ s, P s.
Proof.
  intros Hstep s. remember (String.length s) as n eqn:Hn.
  revert s Hn. induction (lt_wf n) as [n _ IH]. intros s ->.
  apply Hstep. intros t Ht. by apply (IH _ Ht).
Qed.

Lemma trimStart_cons a rest :
  trimStart (String a rest) =
    if is_white a then trimStart rest
    else match rest with
         | String b rest2 =>
             if is_white2 a b then trimStart rest2
             else match rest2 with
                  | String c rest3 =>
                      if is_white3 a b c then trimStart rest3 else String a rest
                  | EmptyString => String a rest
                  end
         | EmptyString => String a rest
         end.
Proof. by destruct rest as [|b [|c rest3]]. Qed.

Lemma trim_empty_cons a rest :
  trim_empty (String a rest) =
    if is_white a then trim_empty rest
    else match rest with
         | String b rest2 =>
             if is_white2 a b then trim_empty rest2
             else match rest2 with
                  | String c rest3 => is_white3 a b c && trim_empty rest3
                  | EmptyString => false
                  end
         | EmptyString => false
         end.
Proof. by destruct rest as [|b [|c rest3]]. Qed.

Lemma trim_empty_trimStart s : trim_empty (trimStart s) = trim_empty s.
Proof.
  induction s as [s IH] using string_length_ind.
  destruct s as [|a rest]; [done|].
  rewrite trimStart_cons, (trim_empty_cons a rest).
  destruct (is_white a) eqn:Ha; [apply IH; simpl; lia|].
  destruct rest as [|b rest2]; [by rewrite trim_empty_cons, Ha|].
  destruct (is_white2 a b) eqn:Hab; [apply IH; simpl; lia|].
  destruct rest2 as [|c rest3]; [by rewrite trim_empty_cons, Ha, Hab|].
  destruct (is_white3 a b c) eqn:Habc; [apply IH; simpl; lia|].
  by rewrite trim_empty_cons, Ha, Hab, Habc.
Qed.

Lemma trimEnd_empty s : trimEnd s = "" ↔ trim_empty s = true.
Proof.
  destruct s as [|a rest]; [done|].
  change (trimEnd (String a rest))
    with (if trim_empty (String a rest) then "" else String a (trimEnd rest)).
  destruct (trim_empty (String a rest)); split; done.
Qed.

(** [!s.trim()] holds exactly when trimming leaves the empty string. *)
Lemma trim_blank s : trim s = "" ↔ trim_empty s = true.
Proof. unfold trim. by rewrite trimEnd_empty, trim_empty_trimStart. Qed.

(** ** The settings dialog *)

Lemma truthy_trim s : trim_empty s = false → truthy (Some (trim s)) = true.
Proof.
  intros Hs. simpl. apply bool_decide_eq_true. intros Ht%trim_blank. congruence.
Qed.

(** X1.  Saving the Supabase pair stores something exactly when both fields
    are non-blank and the URL field parses: then the trimmed values are
    stored, the derived mode is cloud and the Gemini key is as it was;
    otherwise the state is unchanged and the toast reports what is missing.
    Saving the Gemini key stores something exactly when the field is not
    blank: then the trimmed key is stored, the AI features are on and the
    mode is as it was; otherwise the state is unchanged. *)
Theorem settings_save_announcements URL_parses f s :
  let '(s1, t1) := SettingsModal.handleSaveSupabase URL_parses f s in
  let '(s2, t2) := SettingsModal.handleSaveGemini f s in
  (AIGenerate.toast_title t1 = "Supabase configured!" ↔
     trim (SettingsModal.in_supabaseUrl f) ≠ "" ∧
     trim (SettingsModal.in_supabaseAnonKey f) ≠ "" ∧
     URL_parses (SettingsModal.in_supabaseUrl f) = true)
  ∧ (AIGenerate.toast_title t1 = "Supabase configured!" →
     AppContext.st_config s1
       = mkAppConfig (Some (trim (SettingsModal.in_supabaseUrl f)))
                     (Some (trim (SettingsModal.in_supabaseAnonKey f)))
                     (geminiApiKey (AppContext.st_config s))
     ∧ AppContext.mode (AppContext.st_config s1) = AppContext.cloud)
  ∧ (AIGenerate.toast_title t1 ≠ "Supabase configured!" →
     s1 = s ∧
     AIGenerate.toast_title t1 =
       if decide (trim (SettingsModal.in_supabaseUrl f) = "" ∨
                  trim (SettingsModal.in_supabaseAnonKey f) = "")
       then "Missing credentials" else "Invalid URL")
  ∧ (AIGenerate.toast_title t2 = "Gemini API key saved!" ↔
     trim (SettingsModal.in_geminiApiKey f) ≠ "")
  ∧ (AIGenerate.toast_title t2 = "Gemini API key saved!" →
     AppContext.st_config s2
       = mkAppConfig (supabaseUrl (AppContext.st_config s))
                     (supabaseAnonKey (AppContext.st_config s))
                     (Some (trim (SettingsModal.in_geminiApiKey f)))
     ∧ AppContext.hasGemini (AppContext.st_config s2) = true
     ∧ AppContext.mode (AppContext.st_config s2)
         = AppContext.mode (AppContext.st_config s))
  ∧ (AIGenerate.toast_title t2 ≠ "Gemini API key saved!" →
     s2 = s ∧ AIGenerate.toast_title t2 = "Missing API key").
Proof.
  destruct (SettingsModal.handleSaveSupabase URL_parses f s) as [s1 t1] eqn:H1.
  destruct (SettingsModal.handleSaveGemini f s) as [s2 t2] eqn:H2.
  unfold SettingsModal.handleSaveSupabase in H1.
  unfold SettingsModal.handleSaveGemini in H2.
  pose proof (trim_blank (SettingsModal.in_supabaseUrl f)) as Tu.
  pose proof (trim_blank (SettingsModal.in_supabaseAnonKey f)) as Tk.
  pose proof (trim_blank (SettingsModal.in_geminiApiKey f)) as Tg.
  split_and!.
  - destruct (trim_empty (SettingsModal.in_supabaseUrl f)) eqn:Hu;
      [injection H1 as <- <-; simpl; split; [done|]; intros (? & _); tauto|].
    destruct (trim_empty (SettingsModal.in_supabaseAnonKey f)) eqn:Hk;
      [injection H1 as <- <-; simpl; split; [done|]; intros (_ & ? & _); tauto|].
    destruct (URL_parses (SettingsModal.in_supabaseUrl f));
      injection H1 as <- <-; simpl; (split; [|by intros (_ & _ & ?)]).
    + intros _. split_and!; [|  |done].
      * intros ?%Tu. congruence.
      * intros ?%Tk. congruence.
    + done.
  - destruct (trim_empty (SettingsModal.in_supabaseUrl f)) eqn:Hu;
      [by injection H1 as <- <-|].
    destruct (trim_empty (SettingsModal.in_supabaseAnonKey f)) eqn:Hk;
      [by injection H1 as <- <-|].
    destruct (URL_parses (SettingsModal.in_supabaseUrl f));
      injection H1 as <- <-; [|done]. intros _. split; [done|].
    unfold AppContext.mode.
    cbn [AppContext.updateConfig AppContext.setConfig AppContext.merge
         AppContext.st_config supabaseUrl supabaseAnonKey default id
         AppContext.p_supabaseUrl AppContext.p_supabaseAnonKey].
    by rewrite (truthy_trim _ Hu), (truthy_trim _ Hk).
  - destruct (trim_empty (SettingsModal.in_supabaseUrl f)) eqn:Hu.
    { injection H1 as <- <-. intros _. split; [done|].
      rewrite decide_True; [done|]. left. by apply Tu. }
    destruct (trim_empty (SettingsModal.in_supabaseAnonKey f)) eqn:Hk.
    { injection H1 as <- <-. intros _. split; [done|].
      rewrite decide_True; [done|]. right. by apply Tk. }
    destruct (URL_parses (SettingsModal.in_supabaseUrl f));
      injection H1 as <- <-; [done|]. intros _. split; [done|].
    rewrite decide_False; [done|].
    intros [?%Tu|?%Tk]; congruence.
  - destruct (trim_empty (SettingsModal.in_geminiApiKey f)) eqn:Hg;
      injection H2 as <- <-; simpl.
    + split; [done|]. intros ?. tauto.
    + split; [|done]. intros _ ?%Tg. congruence.
  - destruct (trim_empty (SettingsModal.in_geminiApiKey f)) eqn:Hg;
      injection H2 as <- <-; [done|]. intros _. split; [done|].
    split; [|done]. unfold AppContext.hasGemini.
    cbn [AppContext.updateConfig AppContext.setConfig AppContext.merge
         AppContext.st_config geminiApiKey default id AppContext.p_geminiApiKey].
    by rewrite (truthy_trim _ Hg).
  - destruct (trim_empty (SettingsModal.in_geminiApiKey f)) eqn:Hg;
      injection H2 as <- <-; [|done]. by intros _.
Qed.

(** X2.  Clearing does what it announces: without the Supabase pair the mode is
    guest, without the Gemini key the AI features are off, and "clear all"
    gives both and leaves no stored configuration; cheatsheets and entries
    are never touched. *)
Theorem settings_clear_announcements f s db :
  let '(s1, f1, _) := SettingsModal.handleClearSupabase f s in
  let '(s2, f2, _) := SettingsModal.handleClearGemini f s in
  let '(s3, db3, f3, _) := SettingsModal.handleClearAll s db in
  (AppContext.mode (AppContext.st_config s1) = AppContext.guest
   ∧ AppContext.hasGemini (AppContext.st_config s1)
       = AppContext.hasGemini (AppContext.st_config s)
   ∧ SettingsModal.in_geminiApiKey f1 = SettingsModal.in_geminiApiKey f)
  ∧ (AppContext.hasGemini (AppContext.st_config s2) = false
     ∧ AppContext.mode (AppContext.st_config s2)
         = AppContext.mode (AppContext.st_config s))
  ∧ (AppContext.mode (AppContext.st_config s3) = AppContext.guest
     ∧ AppContext.hasGemini (AppContext.st_config s3) = false
     ∧ configDB.get db3 = defaultConfig
     ∧ cheatsheets db3 = cheatsheets db ∧ entries db3 = entries db
     ∧ f3 = SettingsModal.initialFields (AppContext.st_config s3)).
Proof.
  simpl. repeat split; try done.
  unfold configDB.get, configDB.clear. simpl. by rewrite lookup_delete_eq.
Qed.

(** ** The configurations the app can hold *)

Lemma config_trace_snoc URL_parses cs es evs ev :
  config_trace URL_parses cs es (evs ++ [ev]) =
    config_event URL_parses (config_trace URL_parses cs es evs) ev.
Proof. unfold config_trace. by rewrite foldl_app. Qed.

Lemma config_trace_no_empty_credential URL_parses cs es evs :
  no_empty_credential (AppContext.st_config (config_trace URL_parses cs es evs).1) ∧
  no_empty_credential (configDB.get (config_trace URL_parses cs es evs).2).
Proof.
  induction evs as [|ev evs IH] using rev_ind; [done|].
  rewrite config_trace_snoc.
  destruct (config_trace URL_parses cs es evs) as [s db].
  destruct IH as [Hs Hdb]. simpl in Hs, Hdb.
  destruct ev; simpl; try done.
  - unfold AppContext.persistConfig. split; [done|].
    destruct (AppContext.st_configLoaded s); [|done].
    unfold configDB.get, configDB.set. simpl. by rewrite lookup_insert_eq.
  - split; [|done]. unfold SettingsModal.handleSaveSupabase.
    destruct (trim_empty (SettingsModal.in_supabaseUrl f)) eqn:Hu; [done|].
    destruct (trim_empty (SettingsModal.in_supabaseAnonKey f)) eqn:Hk; [done|].
    destruct (URL_parses _); [|done]. simpl.
    split; intros [= Ht%trim_blank]; congruence.
  - split; [|done]. unfold SettingsModal.handleSaveGemini.
    by destruct (trim_empty _).
  - split; [done|]. unfold configDB.get, configDB.clear. simpl.
    by rewrite lookup_delete_eq.
Qed.

(** C5.  At every point of the life of the app (any sequence of page loads,
    configuration effects and uses of the settings dialog, which is all
    that writes the configuration) the derived mode is [cloud] exactly
    when the remote URL and the remote key are both non-null; after either
    credential is set to null, after the Supabase pair is cleared in the
    dialog, or after the configuration is cleared, the mode is [guest]. *)
Theorem mode_derivation URL_parses cs es evs f :
  let '(s, db) := config_trace URL_parses cs es evs in
  let c := AppContext.st_config s in
  (AppContext.mode c = AppContext.cloud ↔
     supabaseUrl c ≠ None ∧ supabaseAnonKey c ≠ None) ∧
  AppContext.mode (AppContext.st_config
    (AppContext.updateConfig (AppContext.mkPartial (Some None) None None) s))
    = AppContext.guest ∧
  AppContext.mode (AppContext.st_config
    (AppContext.updateConfig (AppContext.mkPartial None (Some None) None) s))
    = AppContext.guest ∧
  AppContext.mode (AppContext.st_config
    (SettingsModal.handleClearSupabase f s).1.1) = AppContext.guest ∧
  AppContext.mode (AppContext.st_config (AppContext.clearConfig s db).1)
    = AppContext.guest.
Proof.
  pose proof (config_trace_no_empty_credential URL_parses cs es evs) as [Hinv _].
  destruct (config_trace URL_parses cs es evs) as [s db]. simpl in Hinv.
  destruct (mode_truthiness s db) as (Hmode & Hurl & Hkey & Hall).
  split; [|done]. rewrite Hmode. destruct Hinv as [Hu Hk]. split.
  - intros (url & key & -> & -> & _). done.
  - intros [Hu' Hk'].
    destruct (supabaseUrl (AppContext.st_config s)) as [url|]; [|done].
    destruct (supabaseAnonKey (AppContext.st_config s)) as [key|]; [|done].
    exists url, key. repeat split; congruence.
Qed.

(** Connect, reload, disconnect: cloud after a reload with the stored pair,
    guest once it has been cleared. *)
Example mode_over_a_session :
  let connect :=
    [ev_loadConfig;
     ev_saveSupabase (SettingsModal.mkFields " https://recap.supabase.co "
                                             "anon-key" "");
     ev_persistConfig; ev_mount; ev_loadConfig] in
  let disconnect := [ev_clearSupabase (SettingsModal.mkFields "" "" "");
                     ev_persistConfig; ev_mount; ev_loadConfig] in
  AppContext.st_config (config_trace (λ _, true) ∅ ∅ connect).1
    = mkAppConfig (Some "https://recap.supabase.co") (Some "anon-key") None ∧
  AppContext.mode
    (AppContext.st_config (config_trace (λ _, true) ∅ ∅ connect).1)
    = AppContext.cloud ∧
  AppContext.mode
    (AppContext.st_config
       (config_trace (λ _, true) ∅ ∅ (connect ++ disconnect)).1)
    = AppContext.guest.
Proof. by vm_compute. Qed.

(** ** The configuration effects of [AppProvider] *)



(** ** The client effect and the gate of [Index] *)

Section gate.
Context {Server : Type}.
Context (supabase : SupabaseRequest → Server → Server * PostgrestResponse).
Context (getTime : string → Z).
Import AppContext.
#[local] Existing Instances Async_ret Async_bind.

Lemma useCheatsheets_local ctx view (w : @World Server) :
  cloud_client ctx = false →
  useCheatsheets supabase getTime ctx view w =
    Resolved w (filter (in_view view)
      (Array_sort (λ a b, getTime (LocalCheatsheet.created_at b)
                          - getTime (LocalCheatsheet.created_at a))
                  (cheatsheetsDB.getAll (local w)))).
Proof.
  unfold cloud_client, useCheatsheets. intros Hc.
  destruct (ctx_mode ctx); [done|].
  destruct (supabaseClient ctx); [|done].
  apply andb_false_iff in Hc as [Hc|Hc]; apply bool_decide_eq_false in Hc;
    destruct Hc; [done|by eexists].
Qed.
End gate.

(** X4.  After the configuration is loaded and the client effect has run, a
    client exists only in cloud mode.  In guest mode nothing is loading and
    no user is set, so [Index] shows the list or the editor under the
    guest banner, never the sign-in form.  When [createClient] throws in
    cloud mode, the hooks are served by the Local Store.  In cloud mode,
    once the session lookup has answered, [Index] shows the sign-in form
    exactly when there is no signed-in user. *)
Theorem client_effect_invariants createClient s db sel :
  let s1 := initClientWith createClient (AppContext.loadConfig s db) in
  ∃ ctx, AppContext.useApp s1 = Some ctx
  ∧ (is_Some (AppContext.supabaseClient ctx) →
     AppContext.ctx_mode ctx = AppContext.cloud)
  ∧ (AppContext.ctx_mode ctx = AppContext.guest →
     cloud_client ctx = false ∧ AppContext.user ctx = None
     ∧ Index ctx sel = match sel with
                       | Some id => if decide (id = "") then show_list true
                                    else show_editor true id
                       | None => show_list true
                       end)
  ∧ (AppContext.ctx_mode ctx = AppContext.cloud →
     createClient (default "" (supabaseUrl (configDB.get db)))
                  (default "" (supabaseAnonKey (configDB.get db))) = None →
     cloud_client ctx = false ∧ AppContext.isLoading ctx = false)
  ∧ (AppContext.ctx_mode ctx = AppContext.cloud →
     ∀ session_user,
       ∃ ctx2, AppContext.useApp (sessionLoaded session_user s1) = Some ctx2
       ∧ (Index ctx2 sel = show_auth ↔ session_user = None)
       ∧ Index ctx2 sel ≠ show_loading).
Proof.
  simpl. unfold initClientWith. simpl.
  assert (∀ client (u : option AppContext.User),
    truthy (supabaseUrl (configDB.get db))
      && truthy (supabaseAnonKey (configDB.get db)) = true →
    let ctx2 := AppContext.mkCtx (AppContext.mode (configDB.get db))
                  (configDB.get db) client u false
                  (AppContext.hasGemini (configDB.get db)) in
    (Index ctx2 sel = show_auth ↔ u = None) ∧ Index ctx2 sel ≠ show_loading)
    as Hgate.
  { intros client u Hc. unfold Index, AppContext.mode. simpl. rewrite Hc. simpl.
    destruct u as [u|]; simpl; [|by repeat split].
    destruct sel as [id|]; [destruct (bool_decide (id ≠ ""))|];
      (split; [split; intros; discriminate|discriminate]). }
  destruct (truthy (supabaseUrl (configDB.get db))
            && truthy (supabaseAnonKey (configDB.get db))) eqn:Hc.
  - assert (AppContext.mode (configDB.get db) = AppContext.cloud) as Hmode
      by (unfold AppContext.mode; by rewrite Hc).
    destruct (createClient _ _) as [client|] eqn:Hcc;
      (eexists; split; [done|]); simpl; rewrite Hmode;
      (split; [done|]); (split; [done|]);
      (split; [first [done|by intros _ _]|]);
      intros _ u; (eexists; split; [done|]); by apply Hgate.
  - eexists. split; [done|]. unfold AppContext.mode. simpl. rewrite Hc.
    split; [by intros [? ?]|]. split; [|split; done]. intros _.
    split; [done|]. split; [done|].
    unfold Index. simpl. destruct sel as [id|]; [|done].
    simpl. destruct (decide (id = "")) as [->|Hne]; [done|].
    by rewrite bool_decide_eq_true_2.
Qed.

(** ** The entry list after each operation *)

Section entry_listing.
Context {Server : Type}.
Context (supabase : SupabaseRequest → Server → Server * PostgrestResponse).
Import AppContext.
Implicit Types (w : @World Server) (ctx : AppContextType) (db : LocalDB).
#[local] Existing Instances Async_ret Async_bind.

Lemma getByCheatsheetId_StronglySorted cid db :
  wf db →
  StronglySorted (λ a b, String.le (LocalSyntaxEntry.id a) (LocalSyntaxEntry.id b))
                 (entriesDB.getByCheatsheetId cid db).
Proof.
  intros [_ Hk].
  assert (Transitive (λ a b, String.le (LocalSyntaxEntry.id a)
                                       (LocalSyntaxEntry.id b))).
  { intros a b c. apply (transitivity (R:=String.le)). }
  apply Sorted_StronglySorted; [done|].
  apply Sorted_filter; [done|]. by apply getAll_Sorted_keys.
Qed.

(** X5.  In guest mode, for a store whose entry ids are ASCII strings (as
    the generated ids are), the entry list of a cheatsheet holds exactly the
    stored entries of that cheatsheet, each once, in ascending position;
    entries with the same position come in ascending order of their ids.
    Reading changes nothing. *)
Theorem listing_is_ordered ctx cid w :
  ctx_mode ctx = guest → wf (local w) →
  (∀ k, is_Some (entries (local w) !! k) → ascii_id k = true) →
  ∃ listed,
    useSyntaxEntries supabase ctx cid w = Resolved w listed ∧
    (∀ e, e ∈ listed ↔
       entries (local w) !! LocalSyntaxEntry.id e = Some e ∧
       LocalSyntaxEntry.cheatsheet_id e = cid) ∧
    NoDup (LocalSyntaxEntry.id <$> listed) ∧
    Sorted (λ a b,
      LocalSyntaxEntry.position a < LocalSyntaxEntry.position b ∨
      LocalSyntaxEntry.position a = LocalSyntaxEntry.position b ∧
      String.le (LocalSyntaxEntry.id a) (LocalSyntaxEntry.id b)) listed.
Proof.
  intros Hm Hwf _. eexists. split; [by apply useSyntaxEntries_guest|].
  split; [|split].
  - intros e. rewrite elem_of_Array_sort. unfold entriesDB.getByCheatsheetId.
    rewrite list_elem_of_filter. unfold entriesDB.getAll.
    rewrite (elem_of_getAll_keyed LocalSyntaxEntry.id) by apply Hwf. tauto.
  - rewrite Array_sort_Permutation. by apply NoDup_getByCheatsheetId_ids.
  - apply (Array_sort_stable LocalSyntaxEntry.position).
    by apply getByCheatsheetId_StronglySorted.
Qed.

Lemma useDeleteEntry_guest ctx id cid w :
  ctx_mode ctx = guest →
  useDeleteEntry supabase ctx id cid w =
    Resolved (mkWorld (entriesDB.delete id (local w)) (remote w)) tt.
Proof. intros Hm. unfold useDeleteEntry. by rewrite guest_not_cloud_client. Qed.

(** X6.  Deleting an entry in guest mode removes it from the list it was in and
    leaves every other entry, with its position, where it was: positions
    are not renumbered.  The cheatsheet id passed along plays no part, and
    an id that is not stored deletes nothing. *)
Theorem delete_entry_listing ctx cheatsheetId id cid w :
  ctx_mode ctx = guest → wf (local w) →
  ∃ w' before after,
    useSyntaxEntries supabase ctx cid w = Resolved w before ∧
    handleDeleteEntry supabase ctx cheatsheetId id w = Resolved w' tt ∧
    useSyntaxEntries supabase ctx cid w' = Resolved w' after ∧
    after = filter (λ e, LocalSyntaxEntry.id e ≠ id) before ∧
    cheatsheets (local w') = cheatsheets (local w) ∧
    (entries (local w) !! id = None → local w' = local w).
Proof.
  intros Hm [Hkc Hke]. eexists _, _, _.
  split; [by apply useSyntaxEntries_guest|].
  split; [by apply useDeleteEntry_guest|].
  split; [by apply useSyntaxEntries_guest|].
  split; [|split; [done|]].
  - simpl. unfold entriesDB.getByCheatsheetId, entriesDB.getAll. simpl.
    unfold remove. rewrite (getAll_delete LocalSyntaxEntry.id) by done.
    rewrite (Array_sort_filter LocalSyntaxEntry.position), !list_filter_filter.
    f_equal. apply list_filter_iff. tauto.
  - intros Hnone. simpl. unfold entriesDB.delete, remove.
    rewrite delete_id by done. by destruct (local w).
Qed.

Lemma useUpdateEntry_guest ctx entry now w :
  ctx_mode ctx = guest → wf (local w) →
  useUpdateEntry supabase ctx entry now w =
    match entries (local w) !! eu_id entry with
    | Some existing =>
        Resolved (mkWorld (entriesDB.put (apply_update existing entry now)
                                         (local w)) (remote w)) tt
    | None => Resolved w tt
    end.
Proof.
  intros Hm [_ Hk]. unfold useUpdateEntry. rewrite guest_not_cloud_client by done.
  run_async. unfold entriesDB.getAll. rewrite (find_getAll _ _ _ Hk).
  by destruct (entries (local w) !! eu_id entry).
Qed.

Lemma getAll_put_replace (store : gmap string LocalSyntaxEntry.t) x y :
  keyed LocalSyntaxEntry.id store →
  store !! LocalSyntaxEntry.id y = Some x →
  getAll (put LocalSyntaxEntry.id y store) =
    (λ e, if decide (e = x) then y else e) <$> getAll store.
Proof.
  intros Hk Hx. rewrite (getAll_put_existing LocalSyntaxEntry.id _ x) by done.
  apply list_fmap_ext. intros i e Hi.
  apply list_elem_of_lookup_2 in Hi.
  apply (elem_of_getAll_keyed LocalSyntaxEntry.id) in Hi; [|done].
  destruct (decide (e = x)) as [->|Hne].
  - by rewrite decide_True by by apply Hk.
  - rewrite decide_False; [done|]. intros Heq. rewrite Heq in Hi. congruence.
Qed.

(** X7.  Saving the edit dialog in guest mode, for an entry of the list shown:
    the list read afterwards is the old one with that entry replaced in
    place.  The replacement carries the dialog's fields and the new
    [updated_at], and keeps the entry's id, notes, position and
    [created_at]; no other record changes. *)
Theorem save_edit_listing ctx cid w before form now :
  ctx_mode ctx = guest → wf (local w) →
  useSyntaxEntries supabase ctx cid w = Resolved w before →
  editingEntry form ∈ before →
  trim_empty (editSyntax form) = false →
  trim_empty (editCategory form) = false →
  let e := editingEntry form in
  let e' :=
    LocalSyntaxEntry.mk (LocalSyntaxEntry.id e) cid
      (editSyntax form) (editCategory form)
      (Some (editDescription form)) (Some (editExample form))
      (LocalSyntaxEntry.notes e) (editDisplayFormat form) (editLanguage form)
      (LocalSyntaxEntry.position e) (LocalSyntaxEntry.created_at e) now in
  ∃ w',
    handleSaveEdit supabase ctx cid form now w = Resolved w' true ∧
    useSyntaxEntries supabase ctx cid w' =
      Resolved w' ((λ x, if decide (x = e) then e' else x) <$> before) ∧
    entries (local w') = <[LocalSyntaxEntry.id e := e']> (entries (local w)) ∧
    cheatsheets (local w') = cheatsheets (local w).
Proof.
  intros Hm Hwf Hread Hin Hs Hc e e'.
  rewrite useSyntaxEntries_guest in Hread by done. injection Hread as <-.
  apply elem_of_Array_sort in Hin.
  apply list_elem_of_filter in Hin as [Hcid Hin].
  apply (elem_of_getAll_keyed LocalSyntaxEntry.id) in Hin; [|apply Hwf].
  fold e in Hin, Hcid.
  eexists. split.
  { unfold handleSaveEdit. rewrite Hs, Hc. simpl. unfold mbind, Async_bind.
    rewrite useUpdateEntry_guest by done. simpl. fold e. rewrite Hin. done. }
  split; [|done].
  rewrite useSyntaxEntries_guest by done. f_equal. simpl.
  unfold apply_update. simpl. fold e. fold e'.
  unfold entriesDB.getByCheatsheetId, entriesDB.getAll. simpl.
  rewrite (getAll_put_replace _ e) by (by apply Hwf || done).
  rewrite filter_fmap_preserved.
  - rewrite (Array_sort_fmap _ by_position); [done|].
    intros a b. unfold by_position. by repeat case_decide; subst.
  - intros x. by case_decide; subst.
Qed.

(** X8.  Opening the edit dialog on a stored entry and saving it unchanged
    rewrites the entry with the same id, cheatsheet, syntax, category,
    notes, position and [created_at]; a missing description or example
    becomes the empty string, an empty display format "card", an empty
    language "javascript", and [updated_at] is the time of the save. *)
Theorem edit_dialog_round_trip ctx w e now :
  ctx_mode ctx = guest → wf (local w) →
  entries (local w) !! LocalSyntaxEntry.id e = Some e →
  trim_empty (LocalSyntaxEntry.syntax e) = false →
  trim_empty (LocalSyntaxEntry.category e) = false →
  ∃ w',
    handleSaveEdit supabase ctx (LocalSyntaxEntry.cheatsheet_id e)
                   (handleEdit e) now w = Resolved w' true ∧
    entries (local w') =
      <[LocalSyntaxEntry.id e :=
          LocalSyntaxEntry.mk (LocalSyntaxEntry.id e)
            (LocalSyntaxEntry.cheatsheet_id e)
            (LocalSyntaxEntry.syntax e) (LocalSyntaxEntry.category e)
            (Some (default "" (LocalSyntaxEntry.description e)))
            (Some (default "" (LocalSyntaxEntry.example e)))
            (LocalSyntaxEntry.notes e)
            (if decide (LocalSyntaxEntry.display_format e = "") then "card"
             else LocalSyntaxEntry.display_format e)
            (if decide (LocalSyntaxEntry.language e = "") then "javascript"
             else LocalSyntaxEntry.language e)
            (LocalSyntaxEntry.position e) (LocalSyntaxEntry.created_at e) now]>
        (entries (local w)) ∧
    cheatsheets (local w') = cheatsheets (local w).
Proof.
  intros Hm Hwf Hin Hs Hc. eexists. split.
  { unfold handleSaveEdit. simpl. rewrite Hs, Hc. simpl.
    unfold mbind, Async_bind.
    rewrite useUpdateEntry_guest by done. simpl. rewrite Hin. done. }
  split; [|done]. simpl. unfold apply_update. simpl.
  by rewrite !str_or_empty.
Qed.

(** X9.  An entry saved from the add dialog in guest mode is shown last,
    provided the dialog was given the current list, with positions below
    2^53 (where adding 1 is exact): the list read afterwards is that list
    followed by the new entry. *)
Theorem append_shows_last ctx cid w before form new_id created_now updated_now :
  ctx_mode ctx = guest → wf (local w) →
  useSyntaxEntries supabase ctx cid w = Resolved w before →
  (∀ x, x ∈ before → LocalSyntaxEntry.position x < 2 ^ 53) →
  trim_empty (f_syntax form) = false →
  trim_empty (f_category form) = false →
  entries (local w) !! new_id = None →
  ∃ w' e,
    handleSaveEntry supabase ctx cid (Some before) form
                    new_id created_now updated_now w = Resolved w' true ∧
    useSyntaxEntries supabase ctx cid w' = Resolved w' (before ++ [e])%list ∧
    LocalSyntaxEntry.id e = new_id ∧
    LocalSyntaxEntry.syntax e = f_syntax form ∧
    LocalSyntaxEntry.category e = f_category form ∧
    (∀ x, x ∈ before → LocalSyntaxEntry.position x < LocalSyntaxEntry.position e).
Proof.
  intros Hm Hwf Hread Hsafe Hs Hc Hfresh.
  rewrite useSyntaxEntries_guest in Hread by done. injection Hread as Hbefore.
  rewrite <-Hbefore in Hsafe.
  set (l := Array_sort by_position
              (entriesDB.getByCheatsheetId cid (local w))) in *.
  destruct (running_max_spec l (-1)) as (Hlow & Hle & Hwit).
  assert (Number_add (maxPosition (Some l)) 1 = maxPosition (Some l) + 1)
    as Hadd.
  { apply binary64_safe.
    change (foldl _ (-1) l) with (maxPosition (Some l)) in Hlow, Hwit.
    destruct Hwit as [Heq|(m & Hin & Heq)]; [lia|].
    pose proof (Hsafe m Hin). lia. }
  subst before.
  set (e := LocalSyntaxEntry.mk new_id cid (f_syntax form) (f_category form)
              (Some (f_description form)) (Some (f_example form)) None
              (f_displayFormat form) (f_language form)
              (maxPosition (Some l) + 1) created_now updated_now).
  exists (mkWorld (entriesDB.put e (local w)) (remote w)), e. split.
  { unfold handleSaveEntry. rewrite Hs, Hc. simpl. unfold mbind, Async_bind.
    rewrite useCreateEntry_guest by done. simpl.
    unfold maxPosition in Hadd. by rewrite Hadd. }
  assert (∀ x, x ∈ l →
            LocalSyntaxEntry.position x < LocalSyntaxEntry.position e) as Hlt.
  { intros x Hx. simpl. unfold maxPosition. specialize (Hle x Hx). lia. }
  split; [|done].
  rewrite useSyntaxEntries_guest by done. f_equal. simpl.
  unfold entriesDB.getByCheatsheetId, entriesDB.getAll. simpl.
  destruct (getAll_put_fresh LocalSyntaxEntry.id (entries (local w)) e)
    as (xs & ys & Hold & Hnew); [apply Hwf|done|].
  rewrite Hnew, filter_app, filter_cons_True by done.
  rewrite (Array_sort_middle_greatest LocalSyntaxEntry.position).
  - f_equal. unfold l, entriesDB.getByCheatsheetId, entriesDB.getAll.
    by rewrite Hold, filter_app.
  - intros x Hx. apply Hlt. unfold l. apply elem_of_Array_sort.
    unfold entriesDB.getByCheatsheetId, entriesDB.getAll.
    by rewrite Hold, filter_app.
Qed.
End entry_listing.

(** ** Drag and drop, exactly *)

Lemma findIndex_range {A} (p : A → bool) (l : list A) :
  -1 ≤ findIndex p l < Z.of_nat (length l).
Proof.
  induction l as [|x l IH]; simpl; [lia|].
  destruct (p x); [lia|]. destruct (Z.ltb_spec (findIndex p l) 0); lia.
Qed.

Lemma findIndex_first {A} (p : A → bool) (l : list A) (i : nat) x :
  l !! i = Some x → p x = true →
  (∀ j y, (j < i)%nat → l !! j = Some y → p y = false) →
  findIndex p l = Z.of_nat i.
Proof.
  revert i. induction l as [|a l IH]; intros i Hi Hp Hfirst; [done|].
  destruct i as [|i]; simpl in *.
  - injection Hi as ->. by rewrite Hp.
  - rewrite (Hfirst 0%nat a) by (done || lia).
    rewrite (IH i) by (try done; intros j y Hj; apply (Hfirst (S j)); lia).
    destruct (Z.ltb_spec (Z.of_nat i) 0); lia.
Qed.

Lemma findIndex_NoDup (l : list LocalSyntaxEntry.t) (i : nat) x :
  NoDup (LocalSyntaxEntry.id <$> l) → l !! i = Some x →
  findIndex (λ e, bool_decide (LocalSyntaxEntry.id e = LocalSyntaxEntry.id x)) l
    = Z.of_nat i.
Proof.
  intros Hnd Hi. apply (findIndex_first _ _ _ x); [done|by apply bool_decide_eq_true|].
  intros j y Hj Hy. apply bool_decide_eq_false. intros Heq.
  assert (j = i); [|lia].
  apply (NoDup_lookup _ _ _ (LocalSyntaxEntry.id x) Hnd);
    rewrite list_lookup_fmap; [by rewrite Hy; simpl; f_equal|by rewrite Hi].
Qed.

(** [arrayMove] for indices within the array: the element leaves its place
    and is inserted so that it ends up at the target index. *)
Lemma arrayMove_in_range {A} (array : list A) (from to : nat) x :
  array !! from = Some x → (to < length array)%nat →
  arrayMove array (Z.of_nat from) (Z.of_nat to) =
    Some (take to (delete from array) ++ x :: drop to (delete from array))%list.
Proof.
  intros Hx Hto. pose proof (lookup_lt_Some _ _ _ Hx) as Hfrom.
  unfold arrayMove, splice_start.
  replace (Z.of_nat to <? 0) with false by (symmetry; apply Z.ltb_ge; lia).
  replace (Z.of_nat from <? 0) with false by (symmetry; apply Z.ltb_ge; lia).
  cbv iota.
  replace (Z.of_nat to <? 0) with false by (symmetry; apply Z.ltb_ge; lia).
  rewrite !Z.min_l by lia. rewrite !Nat2Z.id, Hx.
  by rewrite delete_take_drop.
Qed.

(** The entries after a move, renumbered by their index. *)
Lemma renumbered_Sorted (moved : list LocalSyntaxEntry.t) :
  Sorted (λ a b, LocalSyntaxEntry.position a ≤ LocalSyntaxEntry.position b)
         (imap (λ n e, LocalSyntaxEntry.with_position e (Z.of_nat n)) moved).
Proof.
  assert (∀ k, Sorted (λ a b, LocalSyntaxEntry.position a
                              ≤ LocalSyntaxEntry.position b)
                 (imap (λ n e, LocalSyntaxEntry.with_position e (Z.of_nat (k + n)))
                       moved)) as H.
  { induction moved as [|x l IH]; intros k; [constructor|].
    simpl. constructor.
    - rewrite (imap_ext _ (λ n e, LocalSyntaxEntry.with_position e
                                    (Z.of_nat (S k + n)))); [apply IH|].
      intros i y _. simpl. f_equal. lia.
    - destruct l as [|y l]; constructor. simpl. lia. }
  apply (H 0%nat).
Qed.

Section drag.
Context {Server : Type}.
Context (supabase : SupabaseRequest → Server → Server * PostgrestResponse).
Import AppContext.
Implicit Types (w : @World Server) (ctx : AppContextType) (db : LocalDB).
#[local] Existing Instances Async_ret Async_bind.

(** The list read after a guest reorder that numbers a rearrangement
    [moved] of the listed entries by index. *)
Lemma reorder_listing ctx cid w moved :
  ctx_mode ctx = guest → wf (local w) →
  moved ≡ₚ Array_sort by_position (entriesDB.getByCheatsheetId cid (local w)) →
  ∃ w',
    useReorderEntries supabase ctx cid (dense_updates moved) w = Resolved w' tt ∧
    useSyntaxEntries supabase ctx cid w' =
      Resolved w' (imap (λ n e, LocalSyntaxEntry.with_position e (Z.of_nat n))
                        moved) ∧
    cheatsheets (local w') = cheatsheets (local w) ∧
    (∀ k e, entries (local w) !! k = Some e →
            LocalSyntaxEntry.cheatsheet_id e ≠ cid →
            entries (local w') !! k = Some e).
Proof.
  intros Hm Hwf Hperm.
  set (pm := Map_new (dense_updates moved)).
  assert (NoDup (LocalSyntaxEntry.id <$> moved)) as Hnd.
  { rewrite Hperm, Array_sort_Permutation. by apply NoDup_getByCheatsheetId_ids. }
  assert (∀ n e, moved !! n = Some e →
            pm !! LocalSyntaxEntry.id e = Some (Z.of_nat n)) as Hpm.
  { intros n e Hn. apply Map_new_NoDup.
    - by rewrite dense_updates_ids.
    - unfold dense_updates.
      apply (elem_of_lookup_imap_2
               (λ index entry, (LocalSyntaxEntry.id entry, Z.of_nat index)) _ _ _ Hn). }
  assert (repositioned pm <$> moved =
          imap (λ n e, LocalSyntaxEntry.with_position e (Z.of_nat n)) moved)
    as Htarget.
  { apply list_eq. intros n. rewrite list_lookup_fmap, list_lookup_imap.
    destruct (moved !! n) as [e|] eqn:Hn; [|done]. simpl.
    unfold repositioned. by rewrite (Hpm n e Hn). }
  assert (Transitive (λ a b, LocalSyntaxEntry.position a
                             ≤ LocalSyntaxEntry.position b))
    by (intros a b c; lia).
  eexists. split; [by apply useReorderEntries_guest|].
  fold pm. split; [|split].
  - rewrite useSyntaxEntries_guest by done. f_equal. simpl.
    unfold entriesDB.getByCheatsheetId, entriesDB.getAll.
    rewrite reorder_loop_entries by done.
    rewrite getAll_fmap_eq.
    rewrite filter_fmap_preserved by (intros x; by rewrite cheatsheet_id_repositioned).
    symmetry.
    assert (imap (λ n e, LocalSyntaxEntry.with_position e (Z.of_nat n)) moved
            ≡ₚ Array_sort by_position
                 (repositioned pm <$>
                  filter (λ e, LocalSyntaxEntry.cheatsheet_id e = cid)
                         (getAll (entries (local w))))) as Hp.
    { rewrite Array_sort_Permutation, <-Htarget, Hperm, Array_sort_Permutation.
      done. }
    apply (Sorted_unique_strong
             (λ a b, LocalSyntaxEntry.position a ≤ LocalSyntaxEntry.position b));
      [|apply renumbered_Sorted
       |apply (Array_sort_Sorted LocalSyntaxEntry.position)|done].
    intros x1 x2 H1 H2. rewrite <-Hp in H2.
    apply elem_of_lookup_imap in H1 as (n1 & e1 & -> & H1).
    apply elem_of_lookup_imap in H2 as (n2 & e2 & -> & H2).
    simpl. intros Hle1 Hle2.
    assert (n1 = n2) as -> by lia. congruence.
  - simpl. apply reorder_loop_cheatsheets.
  - intros k e Hk Hc. simpl. rewrite reorder_loop_entries by done.
    rewrite lookup_fmap, Hk. simpl. f_equal. unfold repositioned.
    destruct (pm !! LocalSyntaxEntry.id e) as [p|] eqn:Hp; [|done].
    apply Map_new_lookup_Some in Hp.
    apply (list_elem_of_fmap_2 fst) in Hp. simpl in Hp.
    rewrite dense_updates_ids, Hperm, Array_sort_Permutation in Hp.
    apply list_elem_of_fmap in Hp as (e' & Hid & Hin).
    apply list_elem_of_filter in Hin as [Hc' Hin].
    apply (elem_of_getAll_keyed LocalSyntaxEntry.id) in Hin; [|apply Hwf].
    destruct Hwf as [_ Hke]. rewrite <-Hid, (Hke _ _ Hk) in Hin. congruence.
Qed.

(** X10.  Dropping the entry shown at index [i] onto the entry shown at index
    [j], in guest mode: the list read after the reorder has the dragged
    entry at index [j] and the other entries in their old order, and the
    positions are the indices.  Nothing but positions changes; cheatsheets
    and the entries of other cheatsheets are left alone. *)
Theorem drag_then_list ctx cid w before (i j : nat) x y :
  ctx_mode ctx = guest → wf (local w) →
  useSyntaxEntries supabase ctx cid w = Resolved w before →
  before !! i = Some x → before !! j = Some y → i ≠ j →
  let moved := (take j (delete i before) ++ x :: drop j (delete i before))%list in
  ∃ updates w',
    handleDragEnd (Some before) (LocalSyntaxEntry.id x)
                  (Some (LocalSyntaxEntry.id y)) = Some updates ∧
    useReorderEntries supabase ctx cid updates w = Resolved w' tt ∧
    useSyntaxEntries supabase ctx cid w' =
      Resolved w' (imap (λ n e, LocalSyntaxEntry.with_position e (Z.of_nat n))
                        moved) ∧
    moved !! j = Some x ∧ delete j moved = delete i before ∧
    cheatsheets (local w') = cheatsheets (local w) ∧
    (∀ k e, entries (local w) !! k = Some e →
            LocalSyntaxEntry.cheatsheet_id e ≠ cid →
            entries (local w') !! k = Some e).
Proof.
  intros Hm Hwf Hread Hi Hj Hij moved.
  rewrite useSyntaxEntries_guest in Hread by done. injection Hread as Hbefore.
  assert (NoDup (LocalSyntaxEntry.id <$> before)) as Hnd.
  { rewrite <-Hbefore, Array_sort_Permutation. by apply NoDup_getByCheatsheetId_ids. }
  pose proof (lookup_lt_Some _ _ _ Hi) as Hli.
  pose proof (lookup_lt_Some _ _ _ Hj) as Hlj.
  assert (length (delete i before) = (length before - 1)%nat) as Hlen.
  { rewrite length_delete by by eexists. lia. }
  assert (handleDragEnd (Some before) (LocalSyntaxEntry.id x)
            (Some (LocalSyntaxEntry.id y)) = Some (dense_updates moved)) as Hdrag.
  { unfold handleDragEnd. rewrite bool_decide_eq_true_2.
    - rewrite (findIndex_NoDup _ i), (findIndex_NoDup _ j) by done.
      by rewrite (arrayMove_in_range _ _ _ x).
    - intros Heq. apply Hij.
      apply (NoDup_lookup _ _ _ (LocalSyntaxEntry.id x) Hnd);
        rewrite list_lookup_fmap; [by rewrite Hi|by rewrite Hj, Heq]. }
  destruct (reorder_listing ctx cid w moved Hm Hwf) as (w' & Hre & Hlist & Hcs & Hother).
  { rewrite Hbefore. unfold moved.
    rewrite <-Permutation_middle, take_drop, delete_take_drop.
    by rewrite Permutation_middle, take_drop_middle. }
  exists (dense_updates moved), w'.
  split; [done|]. split; [done|]. split; [done|].
  split; [|split; [|done]].
  - unfold moved. apply list_lookup_middle. rewrite length_take_le; lia.
  - unfold moved.
    rewrite <-(length_take_le (delete i before) j) at 1 by lia.
    by rewrite delete_middle, take_drop.
Qed.
End drag.

Lemma arrayMove_None {A} (array : list A) (from to : Z) :
  -1 ≤ from < Z.of_nat (length array) →
  arrayMove array from to = None ↔ array = [].
Proof.
  intros Hfrom. unfold arrayMove.
  destruct (array !! splice_start (Z.of_nat (length array)) from) as [x|] eqn:Hx.
  - split; [done|]. intros ->. done.
  - split; [|done]. intros _. apply lookup_ge_None in Hx.
    unfold splice_start in Hx. destruct array as [|a array]; [done|].
    simpl length in *. destruct (Z.ltb_spec from 0); lia.
Qed.

(** X11.  [handleDragEnd] issues no reorder exactly when there is no drop target,
    the target is the dragged item itself, the entry list is not loaded, or
    the list is empty. *)
Theorem handleDragEnd_idle entries active_id over :
  handleDragEnd entries active_id over = None ↔
    over = None ∨ over = Some active_id ∨ entries = None ∨ entries = Some [].
Proof.
  unfold handleDragEnd. destruct over as [over_id|]; [|by split; [left|]].
  destruct entries as [entries|]; [|by split; [right; right; left|]].
  case_bool_decide as Hne.
  - rewrite fmap_None, arrayMove_None by apply findIndex_range. split.
    + intros ->. by repeat right.
    + intros [?|[?|[?|?]]]; congruence.
  - split; [|done]. intros _. right; left. f_equal.
    by destruct (decide (active_id = over_id)) as [->|?]; [|destruct Hne].
Qed.

(** ** The cheatsheet views *)

Lemma Sorted_weaken {A} (R1 R2 : relation A) (l : list A) :
  (∀ x y, R1 x y → R2 x y) → Sorted R1 l → Sorted R2 l.
Proof.
  intros HR Hs. induction Hs as [|x l Hs IH Hhd]; constructor; [done|].
  destruct Hhd; constructor. by apply HR.
Qed.

Section cheatsheet_views.
Context {Server : Type}.
Context (supabase : SupabaseRequest → Server → Server * PostgrestResponse).
Context (getTime : string → Z).
Import AppContext.
Implicit Types (w : @World Server) (ctx : AppContextType) (db : LocalDB).
#[local] Existing Instances Async_ret Async_bind.

#[local] Instance newer_first_trans : Transitive (newer_first getTime).
Proof.
  intros a b c [?|[? Hab]] [?|[? Hbc]]; unfold newer_first;
    [left; lia..|right; split; [lia|]].
  by trans (LocalCheatsheet.id b).
Qed.

Lemma sorted_cheatsheets db :
  wf db →
  Array_sort (λ a b, getTime (LocalCheatsheet.created_at b)
                     - getTime (LocalCheatsheet.created_at a))
             (cheatsheetsDB.getAll db)
  = Array_sort (λ a b, (λ c, - getTime (LocalCheatsheet.created_at c)) a
                       - (λ c, - getTime (LocalCheatsheet.created_at c)) b)
               (cheatsheetsDB.getAll db).
Proof. intros _. apply Array_sort_ext. intros a b. lia. Qed.

(** X12.  In guest mode, for a store whose cheatsheet ids are ASCII strings
    (as the generated ids are), each view lists the stored cheatsheets of
    that view, each once, newest first; cheatsheets created at the same
    time come in ascending order of their ids. *)
Theorem views_newest_first ctx view w :
  ctx_mode ctx = guest → wf (local w) →
  (∀ k, is_Some (cheatsheets (local w) !! k) → ascii_id k = true) →
  ∃ listed,
    useCheatsheets supabase getTime ctx view w = Resolved w listed ∧
    (∀ c, c ∈ listed ↔
       cheatsheets (local w) !! LocalCheatsheet.id c = Some c ∧ in_view view c) ∧
    NoDup (LocalCheatsheet.id <$> listed) ∧
    Sorted (newer_first getTime) listed.
Proof.
  intros Hm Hwf _. eexists. split; [by apply useCheatsheets_guest|].
  split; [|split].
  - intros c. rewrite list_elem_of_filter, elem_of_Array_sort.
    unfold cheatsheetsDB.getAll.
    rewrite (elem_of_getAll_keyed LocalCheatsheet.id) by apply Hwf. tauto.
  - eapply sublist_NoDup; [|apply fmap_sublist, sublist_filter].
    rewrite Array_sort_Permutation. apply NoDup_getAll_keys, Hwf.
  - apply Sorted_filter; [apply _|]. rewrite sorted_cheatsheets by done.
    eapply Sorted_weaken;
      [|apply (Array_sort_stable _
                 (λ a b, String.le (LocalCheatsheet.id a) (LocalCheatsheet.id b)))].
    + intros a b [?|[? ?]]; [left; lia|right; split; [lia|done]].
    + assert (Transitive (λ a b, String.le (LocalCheatsheet.id a)
                                           (LocalCheatsheet.id b))).
      { intros a b c. apply (transitivity (R:=String.le)). }
      apply Sorted_StronglySorted; [done|].
      apply getAll_Sorted_keys, Hwf.
Qed.

Lemma deleteByCheatsheetId_filter id db :
  wf db →
  entries (entriesDB.deleteByCheatsheetId id db) =
    filter (λ kv, LocalSyntaxEntry.cheatsheet_id kv.2 ≠ id) (entries db).
Proof.
  intros Hwf. apply map_eq. intros k.
  rewrite deleteByCheatsheetId_lookup by done.
  destruct (entries db !! k) as [e|] eqn:He.
  - case_decide as Hc.
    + symmetry. apply map_lookup_filter_None. right. intros e' He'. simpl.
      intros Hne. apply Hne. congruence.
    + symmetry. by apply map_lookup_filter_Some.
  - symmetry. apply map_lookup_filter_None. by left.
Qed.

Lemma usePermanentDeleteCheatsheet_guest ctx id w :
  ctx_mode ctx = guest →
  usePermanentDeleteCheatsheet supabase ctx id w =
    Resolved (mkWorld (cheatsheetsDB.delete id
                         (entriesDB.deleteByCheatsheetId id (local w)))
                      (remote w)) tt.
Proof.
  intros Hm. by apply usePermanentDeleteCheatsheet_local, guest_not_cloud_client.
Qed.

(** X13.  A guest purge touches nothing else: every other cheatsheet is read as
    before, both views are the former views without the purged cheatsheet,
    in the same order, and the entry list of every other cheatsheet is
    what it was. *)
Theorem purge_frame ctx id w :
  ctx_mode ctx = guest → wf (local w) →
  ∃ w',
    usePermanentDeleteCheatsheet supabase ctx id w = Resolved w' tt ∧
    (∀ k, k ≠ id →
       useCheatsheet supabase ctx k w' =
         Resolved w' (cheatsheets (local w) !! k)) ∧
    (∀ view before,
       useCheatsheets supabase getTime ctx view w = Resolved w before →
       useCheatsheets supabase getTime ctx view w' =
         Resolved w' (filter (λ c, LocalCheatsheet.id c ≠ id) before)) ∧
    (∀ cid, cid ≠ id →
       ∀ before,
         useSyntaxEntries supabase ctx cid w = Resolved w before →
         useSyntaxEntries supabase ctx cid w' = Resolved w' before).
Proof.
  intros Hm Hwf. eexists. split; [by apply usePermanentDeleteCheatsheet_guest|].
  assert (wf (entriesDB.deleteByCheatsheetId id (local w))) as Hwf1.
  { unfold entriesDB.deleteByCheatsheetId. by apply wf_delete_each. }
  split; [|split].
  - intros k Hk. rewrite useCheatsheet_guest by done. f_equal. simpl.
    rewrite cheatsheetsDB_get_lookup by by apply wf_cheatsheets_delete.
    simpl. unfold remove. rewrite lookup_delete_ne by done.
    unfold entriesDB.deleteByCheatsheetId. by rewrite delete_each_cheatsheets.
  - intros view before Hbefore.
    rewrite useCheatsheets_guest in Hbefore by done. injection Hbefore as <-.
    rewrite useCheatsheets_guest by done. f_equal. simpl.
    unfold cheatsheetsDB.getAll. simpl.
    unfold entriesDB.deleteByCheatsheetId at 1. rewrite delete_each_cheatsheets.
    unfold remove. rewrite (getAll_delete LocalCheatsheet.id) by apply Hwf.
    fold (cheatsheetsDB.getAll (local w)).
    assert (∀ l, Array_sort
                   (λ a b, getTime (LocalCheatsheet.created_at b)
                           - getTime (LocalCheatsheet.created_at a)) l
                 = Array_sort
                     (λ a b, (λ c, - getTime (LocalCheatsheet.created_at c)) a
                             - (λ c, - getTime (LocalCheatsheet.created_at c)) b) l)
      as Hext by (intros l; apply Array_sort_ext; intros; lia).
    rewrite !Hext.
    rewrite <-(Array_sort_filter (λ c, - getTime (LocalCheatsheet.created_at c))).
    rewrite !list_filter_filter. apply list_filter_iff. tauto.
  - intros cid Hcid before Hbefore.
    rewrite useSyntaxEntries_guest in Hbefore by done. injection Hbefore as <-.
    rewrite useSyntaxEntries_guest by done. f_equal. simpl. f_equal.
    unfold entriesDB.getByCheatsheetId, entriesDB.getAll. simpl.
    rewrite deleteByCheatsheetId_filter by done.
    pose proof (getAll_filter (λ e, LocalSyntaxEntry.cheatsheet_id e ≠ id)
                  (entries (local w))) as Hf.
    cbv beta in Hf. rewrite Hf, list_filter_filter. apply list_filter_iff. intros e.
    split; [tauto|]. intros He. split; [done|]. congruence.
Qed.

Lemma useCreateCheatsheet_guest ctx title description new_id created_now updated_now w :
  ctx_mode ctx = guest →
  useCreateCheatsheet supabase ctx title description new_id created_now updated_now w =
    let c := LocalCheatsheet.mk new_id title (Some description)
                                created_now updated_now None in
    Resolved (mkWorld (cheatsheetsDB.put c (local w)) (remote w)) (Some c).
Proof. intros Hm. unfold useCreateCheatsheet. by rewrite Hm. Qed.

Section create.
Context (TypeError_message : string).

(** X14.  [handleCreate] never rejects, whatever the mode and the backend.
    With a blank title nothing is written or sent and the only toast is
    "Title required".  An id is handed to [onSelectCheatsheet] exactly when
    the only toast is "Cheatsheet created!".  Otherwise the last toast is
    "Error": alone, with the message of the mutation, when the mutation
    rejects; after "Cheatsheet created!" when the mutation resolves with
    [null]. *)
Theorem handleCreate_never_rejects ctx title description
    new_id created_now updated_now w :
  ∃ w' selected toasts,
    handleCreate supabase TypeError_message ctx title description
                 new_id created_now updated_now w
      = Resolved w' (selected, toasts) ∧
    (trim_empty title = true →
     w' = w ∧ selected = None ∧
     AIGenerate.toast_title <$> toasts = ["Title required"]) ∧
    (is_Some selected ↔
     AIGenerate.toast_title <$> toasts = ["Cheatsheet created!"]) ∧
    (trim_empty title = false → selected = None →
     last (AIGenerate.toast_title <$> toasts) = Some "Error") ∧
    (trim_empty title = false →
     ∀ w1 e,
       useCreateCheatsheet supabase ctx title description
                           new_id created_now updated_now w = Rejected w1 e →
       w' = w1 ∧ toasts = [AIGenerate.mkToast "Error" e]) ∧
    (trim_empty title = false →
     ∀ w1,
       useCreateCheatsheet supabase ctx title description
                           new_id created_now updated_now w = Resolved w1 None →
       w' = w1 ∧
       toasts = [AIGenerate.mkToast "Cheatsheet created!"
                                    "Start adding syntax entries.";
                 AIGenerate.mkToast "Error" TypeError_message]).
Proof.
  unfold handleCreate. destruct (trim_empty title).
  { eexists _, _, _. split; [done|]. split; [done|].
    split; [split; [by intros [? ?]|done]|]. by repeat split. }
  destruct (useCreateCheatsheet _ _ _ _ _ _ _ w) as [w' [c|]|w' e];
    eexists _, _, _; (split; [done|]); (split; [done|]).
  - split; [by split; [|eexists]|]. by repeat split.
  - split; [split; [by intros [? ?]|done]|].
    split; [done|]. split; [done|]. by intros _ w1 [= <-].
  - split; [split; [by intros [? ?]|done]|].
    split; [done|]. split; [|done]. by intros _ w1 e' [= <- <-].
Qed.

(** X15.  Creating a cheatsheet in guest mode with a title that is not blank and
    a fresh, non-empty id: the id is handed to [onSelectCheatsheet], so
    that [Index] opens the editor on it; the cheatsheet is stored as
    given, is listed among the active ones, and has no entries; nothing
    else changes. *)
Theorem create_opens_editor ctx title description new_id created_now updated_now w :
  ctx_mode ctx = guest → wf (local w) → no_orphans (local w) →
  trim_empty title = false → new_id ≠ "" →
  cheatsheets (local w) !! new_id = None →
  let c := LocalCheatsheet.mk new_id title (Some description)
                              created_now updated_now None in
  ∃ w' toast act,
    handleCreate supabase TypeError_message ctx title description
                 new_id created_now updated_now w
      = Resolved w' (Some new_id, [toast]) ∧
    (isLoading ctx = false → Index ctx (Some new_id) = show_editor true new_id) ∧
    useCheatsheet supabase ctx new_id w' = Resolved w' (Some c) ∧
    useCheatsheets supabase getTime ctx active w' = Resolved w' act ∧ c ∈ act ∧
    useSyntaxEntries supabase ctx new_id w' = Resolved w' [] ∧
    cheatsheets (local w') = <[new_id := c]> (cheatsheets (local w)) ∧
    entries (local w') = entries (local w).
Proof.
  intros Hm Hwf Hno Ht Hid Hfresh c. eexists _, _, _. split.
  { unfold handleCreate. rewrite Ht.
    rewrite useCreateCheatsheet_guest by done. done. }
  assert (wf (cheatsheetsDB.put c (local w))) as Hwf' by by apply wf_cheatsheets_put.
  split.
  { intros Hl. unfold Index. rewrite Hl, Hm. simpl.
    by rewrite bool_decide_eq_true_2. }
  split.
  { rewrite useCheatsheet_guest by done. f_equal. simpl.
    rewrite cheatsheetsDB_get_lookup by done. simpl. unfold put.
    apply lookup_insert_eq. }
  split; [by apply useCheatsheets_guest|].
  split.
  { apply list_elem_of_filter. split; [done|]. apply elem_of_Array_sort.
    unfold cheatsheetsDB.getAll.
    apply (elem_of_getAll_keyed LocalCheatsheet.id); [apply Hwf'|].
    simpl. unfold put. apply lookup_insert_eq. }
  split; [|done].
  rewrite useSyntaxEntries_guest by done. f_equal. simpl.
  rewrite getByCheatsheetId_nil; [done|].
  simpl. intros k e He Hc. destruct (Hno k e He) as [c' Hc'].
  rewrite Hc in Hc'. congruence.
Qed.
End create.
End cheatsheet_views.

(** A backend that answers the insert with neither a row nor an error:
    both toasts are shown and no cheatsheet is opened. *)
Example handleCreate_with_null_data :
  handleCreate recording "Cannot read properties of null (reading 'id')"
    cloud_ctx "Python" "" "c2" later later (mkWorld sample_db [])
  = Resolved (mkWorld sample_db [insert_cheatsheet "Python" "" "u1"])
      (None, [AIGenerate.mkToast "Cheatsheet created!"
                                 "Start adding syntax entries.";
              AIGenerate.mkToast "Error"
                "Cannot read properties of null (reading 'id')"]).
Proof. reflexivity. Qed.

Lemma getAll_put_replace_cheatsheet (store : gmap string LocalCheatsheet.t) x y :
  keyed LocalCheatsheet.id store →
  store !! LocalCheatsheet.id y = Some x →
  getAll (put LocalCheatsheet.id y store) =
    (λ c, if decide (c = x) then y else c) <$> getAll store.
Proof.
  intros Hk Hx. rewrite (getAll_put_existing LocalCheatsheet.id _ x) by done.
  apply list_fmap_ext. intros i c Hi.
  apply list_elem_of_lookup_2 in Hi.
  apply (elem_of_getAll_keyed LocalCheatsheet.id) in Hi; [|done].
  destruct (decide (c = x)) as [->|Hne].
  - by rewrite decide_True by by apply Hk.
  - rewrite decide_False; [done|]. intros Heq. rewrite Heq in Hi. congruence.
Qed.

Lemma filter_replaced_out {A} `{EqDecision A} (P : A → Prop)
    `{∀ x, Decision (P x)} (x y : A) (l : list A) :
  ¬ P y →
  filter P ((λ c, if decide (c = x) then y else c) <$> l)
    = filter (λ c, c ≠ x) (filter P l).
Proof.
  intros Hy. induction l as [|a l IH]; [done|].
  rewrite fmap_cons. destruct (decide (a = x)) as [->|Hne].
  - rewrite filter_cons_False by done. rewrite IH.
    rewrite (filter_cons P). destruct (decide (P x)); [|done].
    by rewrite filter_cons_False by (by intros ?).
  - rewrite !(filter_cons P), IH. destruct (decide (P a)); [|done].
    by rewrite filter_cons_True.
Qed.

Section trash.
Context {Server : Type}.
Context (supabase : SupabaseRequest → Server → Server * PostgrestResponse).
Context (getTime : string → Z).
Import AppContext.
Implicit Types (w : @World Server) (ctx : AppContextType).
#[local] Existing Instances Async_ret Async_bind.

(** X16.  Moving an active cheatsheet to the trash in guest mode: the active
    view afterwards is the former one without it, in the same order; the
    trash view holds the former trash and the cheatsheet, now stamped with
    the time of the deletion; no entry is touched, so that a later restore
    finds the entries as they were. *)
Theorem soft_delete_moves_to_trash ctx id now w c :
  ctx_mode ctx = guest → wf (local w) →
  cheatsheets (local w) !! id = Some c →
  LocalCheatsheet.deleted_at c = None →
  ∃ w',
    useSoftDeleteCheatsheet supabase ctx id now w = Resolved w' tt ∧
    (∀ before,
       useCheatsheets supabase getTime ctx active w = Resolved w before →
       useCheatsheets supabase getTime ctx active w' =
         Resolved w' (filter (λ x, x ≠ c) before)) ∧
    (∀ before,
       useCheatsheets supabase getTime ctx trash w = Resolved w before →
       ∃ after,
         useCheatsheets supabase getTime ctx trash w' = Resolved w' after ∧
         ∀ x, x ∈ after ↔
              x = LocalCheatsheet.with_deleted_at c (Some now) ∨ x ∈ before) ∧
    entries (local w') = entries (local w).
Proof.
  intros Hm Hwf Hc Hactive.
  assert (LocalCheatsheet.id c = id) as Hid by by apply Hwf.
  set (c' := LocalCheatsheet.with_deleted_at c (Some now)).
  set (g := λ x, if decide (x = c) then c' else x).
  assert (∀ l, Array_sort (λ a b, getTime (LocalCheatsheet.created_at b)
                                  - getTime (LocalCheatsheet.created_at a))
                 (g <$> l)
               = g <$> Array_sort (λ a b, getTime (LocalCheatsheet.created_at b)
                                          - getTime (LocalCheatsheet.created_at a))
                         l) as Hsort.
  { intros l. apply Array_sort_fmap. intros a b. unfold g.
    by repeat case_decide; subst. }
  eexists. split.
  { rewrite useSoftDeleteCheatsheet_guest by done.
    by rewrite cheatsheetsDB_get_lookup, Hc by done. }
  assert (cheatsheetsDB.getAll
            (cheatsheetsDB.put c' (local w))
          = g <$> cheatsheetsDB.getAll (local w)) as Hall.
  { unfold cheatsheetsDB.getAll. simpl.
    apply getAll_put_replace_cheatsheet; [apply Hwf|].
    simpl. by rewrite Hid. }
  split; [|split; [|done]].
  - intros before Hbefore.
    rewrite useCheatsheets_guest in Hbefore by done. injection Hbefore as <-.
    rewrite useCheatsheets_guest by done. f_equal. cbn [local]. fold c'.
    rewrite Hall, Hsort. by apply filter_replaced_out.
  - intros before Hbefore.
    rewrite useCheatsheets_guest in Hbefore by done. injection Hbefore as <-.
    eexists. split; [by apply useCheatsheets_guest|].
    intros x. cbn [local]. fold c'. rewrite Hall, Hsort.
    rewrite !list_elem_of_filter, list_elem_of_fmap. split.
    + intros [Hx (y & -> & Hy)]. unfold g. destruct (decide (y = c)) as [->|Hne].
      * by left.
      * right. split; [|done]. unfold g in Hx. by rewrite decide_False in Hx.
    + intros [->|[Hx Hin]].
      * split; [done|]. exists c. split; [unfold g; by rewrite decide_True|].
        apply elem_of_Array_sort. unfold cheatsheetsDB.getAll.
        apply (elem_of_getAll_keyed LocalCheatsheet.id); [apply Hwf|].
        by rewrite Hid.
      * split; [done|]. exists x. split; [|done]. unfold g.
        rewrite decide_False; [done|]. intros ->. simpl in Hx. congruence.
Qed.
End trash.

Lemma soft_delete_moves_to_trash_witness :
  ∃ w',
    useSoftDeleteCheatsheet unreachable guest_ctx "c1" later sample_world
      = Resolved w' tt ∧
    useCheatsheets unreachable iso_time guest_ctx active w' = Resolved w' [] ∧
    entries (local w') = entries (local sample_world).
Proof.
  destruct (soft_delete_moves_to_trash unreachable iso_time guest_ctx "c1" later
              sample_world js_basics)
    as (w' & Hdel & Hactive & _ & Hentries).
  - reflexivity.
  - apply wf_sample_db.
  - vm_compute. reflexivity.
  - reflexivity.
  - exists w'. split; [exact Hdel|]. split; [|exact Hentries].
    rewrite (Hactive [js_basics]); [reflexivity|]. vm_compute. reflexivity.
Defined.

(** ** Errors of the backend, and which store serves *)

Section one_store.
Context {Server : Type}.
Context (supabase : SupabaseRequest → Server → Server * PostgrestResponse).
Context (getTime : string → Z).
Import AppContext.
Implicit Types (w : @World Server) (ctx : AppContextType).
#[local] Existing Instances Async_ret Async_bind.

Lemma reorder_cloud_app pre rest w :
  reorder_cloud supabase (pre ++ rest) w =
    match reorder_cloud supabase pre w with
    | Resolved w1 _ => reorder_cloud supabase rest w1
    | Rejected w1 e => Rejected w1 e
    end.
Proof.
  revert w. induction pre as [|[k p] pre IH]; intros w; [done|].
  simpl. run_async.
  destruct (request supabase (update_entry_position k p) w) as [w1 resp|w1 e];
    [|done].
  destruct (error resp); [done|]. apply IH.
Qed.

(** X17.  A cloud reorder is not atomic: the updates before the first one that
    the backend answers with an error have been applied, that error is
    thrown, and the updates after it are never sent. *)
Theorem cloud_reorder_stops_at_first_error ctx cid pre k p post w w1 s2 resp e :
  cloud_client ctx = true →
  useReorderEntries supabase ctx cid pre w = Resolved w1 tt →
  supabase (update_entry_position k p) (remote w1) = (s2, resp) →
  error resp = Some e →
  useReorderEntries supabase ctx cid (pre ++ (k, p) :: post) w =
    Rejected (mkWorld (local w) s2) e.
Proof.
  unfold useReorderEntries. intros -> Hpre Hk He.
  rewrite reorder_cloud_app, Hpre. simpl. run_async. unfold request.
  rewrite Hk, He. f_equal. f_equal.
  by rewrite <-(reorder_cloud_local supabase pre w), Hpre.
Qed.

Lemma useReorderEntries_local ctx cid asg w :
  cloud_client ctx = false →
  useReorderEntries supabase ctx cid asg w =
    Resolved (mkWorld (foldl (reorder_step (Map_new asg)) (local w)
                             (entriesDB.getAll (local w))) (remote w)) tt.
Proof.
  intros Hc. unfold useReorderEntries. rewrite Hc. run_async.
  apply reorder_for_of.
Qed.

Lemma local_branch_remote ctx w id now cid asg entry newEntry
    title description new_id created_now updated_now view :
  cloud_client ctx = false →
  remote (world_of (useCheatsheets supabase getTime ctx view w)) = remote w ∧
  remote (world_of (useCreateCheatsheet supabase ctx title description
                      new_id created_now updated_now w)) = remote w ∧
  remote (world_of (useSoftDeleteCheatsheet supabase ctx id now w)) = remote w ∧
  remote (world_of (useRestoreCheatsheet supabase ctx id w)) = remote w ∧
  remote (world_of (usePermanentDeleteCheatsheet supabase ctx id w)) = remote w ∧
  remote (world_of (useCheatsheet supabase ctx id w)) = remote w ∧
  remote (world_of (useSyntaxEntries supabase ctx cid w)) = remote w ∧
  remote (world_of (useCreateEntry supabase ctx newEntry
                      new_id created_now updated_now w)) = remote w ∧
  remote (world_of (useUpdateEntry supabase ctx entry now w)) = remote w ∧
  remote (world_of (useDeleteEntry supabase ctx id cid w)) = remote w ∧
  remote (world_of (useReorderEntries supabase ctx cid asg w)) = remote w.
Proof.
  intros Hc.
  assert (ctx_mode ctx = guest ∨ supabaseClient ctx = None) as Hcases.
  { unfold cloud_client in Hc. destruct (ctx_mode ctx); [by left|].
    destruct (supabaseClient ctx); [|by right].
    apply andb_false_iff in Hc as [Hc|Hc]; apply bool_decide_eq_false in Hc;
      destruct Hc; [done|by eexists]. }
  rewrite useReorderEntries_local by done.
  rewrite usePermanentDeleteCheatsheet_local by done.
  unfold useCheatsheets, useCreateCheatsheet,
    useSoftDeleteCheatsheet, useRestoreCheatsheet,
    useCheatsheet, useSyntaxEntries,
    useCreateEntry, useUpdateEntry, useDeleteEntry.
  rewrite !Hc. run_async.
  destruct (cheatsheetsDB.get id (local w)), (List.find _ _); simpl;
    (destruct Hcases as [->| ->]; [|destruct (ctx_mode ctx)]); done.
Qed.

Lemma cloud_branch_local ctx w id cid newEntry
    title description new_id created_now updated_now view :
  cloud_client ctx = true → is_Some (user ctx) →
  local (world_of (useCheatsheets supabase getTime ctx view w)) = local w ∧
  local (world_of (useCreateCheatsheet supabase ctx title description
                     new_id created_now updated_now w)) = local w ∧
  local (world_of (useCheatsheet supabase ctx id w)) = local w ∧
  local (world_of (useSyntaxEntries supabase ctx cid w)) = local w ∧
  local (world_of (useCreateEntry supabase ctx newEntry
                     new_id created_now updated_now w)) = local w.
Proof.
  intros Hc [u Hu].
  assert (ctx_mode ctx = cloud ∧ is_Some (supabaseClient ctx)) as [Hm [c Hcl]].
  { unfold cloud_client in Hc. apply andb_true_iff in Hc as [H1 H2].
    by apply bool_decide_eq_true in H1, H2. }
  unfold useCheatsheets, useCreateCheatsheet, useCheatsheet, useSyntaxEntries,
    useCreateEntry.
  rewrite !Hc, Hm, Hcl, Hu. run_async. split_and!.
  - destruct (request_local supabase (select_cheatsheets (user_id u)) w)
      as (s & resp & ->). by destruct (error resp).
  - destruct (request_local supabase
                (insert_cheatsheet title description (user_id u)) w)
      as (s & resp & ->). by destruct (error resp).
  - destruct (request_local supabase (select_cheatsheet_single id) w)
      as (s & resp & ->). by destruct (error resp).
  - destruct (request_local supabase (select_entries cid) w)
      as (s & resp & ->). by destruct (error resp).
  - destruct (request_local supabase (insert_entry newEntry) w)
      as (s & resp & ->). by destruct (error resp).
Qed.

(** X18.  Whenever [Index] shows the list or the editor, every hook is served by
    one and the same store: by the hosted backend, leaving the Local Store
    untouched, when the mode is cloud and a client exists, and by the
    Local Store, leaving the backend untouched, otherwise.  (The gate
    matters for the two hooks that also look at the signed-in user.) *)
Theorem one_store_serves_the_page ctx selectedCheatsheet w id now cid asg
    entry newEntry title description new_id created_now updated_now view :
  Index ctx selectedCheatsheet ≠ show_loading →
  Index ctx selectedCheatsheet ≠ show_auth →
  let served {A} (o : @Outcome Server A) : Prop :=
    if cloud_client ctx then local (world_of o) = local w
    else remote (world_of o) = remote w in
  served (useCheatsheets supabase getTime ctx view w) ∧
  served (useCreateCheatsheet supabase ctx title description
            new_id created_now updated_now w) ∧
  served (useSoftDeleteCheatsheet supabase ctx id now w) ∧
  served (useRestoreCheatsheet supabase ctx id w) ∧
  served (usePermanentDeleteCheatsheet supabase ctx id w) ∧
  served (useCheatsheet supabase ctx id w) ∧
  served (useSyntaxEntries supabase ctx cid w) ∧
  served (useCreateEntry supabase ctx newEntry
            new_id created_now updated_now w) ∧
  served (useUpdateEntry supabase ctx entry now w) ∧
  served (useDeleteEntry supabase ctx id cid w) ∧
  served (useReorderEntries supabase ctx cid asg w).
Proof.
  intros Hload Hauth served. subst served. cbv beta.
  destruct (cloud_client ctx) eqn:Hc.
  - assert (is_Some (user ctx)) as Hu.
    { unfold Index in Hload, Hauth. destruct (isLoading ctx); [done|].
      unfold cloud_client in Hc. apply andb_true_iff in Hc as [H1 _].
      rewrite H1 in Hauth. simpl in Hauth.
      destruct (user ctx); [by eexists|]. by rewrite bool_decide_eq_true_2 in Hauth. }
    pose proof (cloud_branch_local ctx w id cid newEntry title
                  description new_id created_now updated_now view Hc Hu)
      as (? & ? & ? & ? & ?).
    pose proof (cloud_mutations_keep_local_store supabase ctx w id now cid asg
                  entry Hc) as (? & ? & ? & ? & ? & ?).
    by split_and!.
  - by apply local_branch_remote.
Qed.
End one_store.

(** ** A reorder on the hosted database *)

Section hosted_reorder.
Context (other : SupabaseRequest → Database → Database * PostgrestResponse).
Import AppContext.
#[local] Existing Instances Async_ret Async_bind.

Lemma same_content_refl e : same_content e e.
Proof. by repeat split. Qed.

Lemma same_content_updated e e1 p now :
  same_content e e1 →
  same_content e (update_updated_at_column
                    (LocalSyntaxEntry.with_position e1 p) now).
Proof. intros H. unfold same_content in *. simpl. tauto. Qed.

Lemma hosted_reorder_loop asg local cs tbl clock served :
  (∀ k p, (k, p) ∈ asg → is_Some (tbl !! k) ∧ INTEGER p = true) →
  ∃ tbl',
    reorder_cloud (hosted other) asg
      (mkWorld local (mkDatabase cs tbl clock served))
    = Resolved (mkWorld local
                  (mkDatabase cs tbl' clock (served + length asg)%nat)) tt ∧
    ∀ k,
      match tbl !! k with
      | None => tbl' !! k = None
      | Some e =>
          ∃ e', tbl' !! k = Some e' ∧ same_content e e' ∧
                (k ∉ asg.*1 → e' = e) ∧
                (k ∈ asg.*1 →
                 ∃ pre post,
                   asg = (pre ++ (k, LocalSyntaxEntry.position e') :: post)%list
                   ∧ (k ∉ post.*1) ∧
                   LocalSyntaxEntry.updated_at e'
                   = clock (served + length pre)%nat)
      end.
Proof.
  induction asg as [|[k0 p0] asg IH] using rev_ind; intros Hasg.
  { exists tbl. split; [simpl; by rewrite Nat.add_0_r|]. intros k.
    destruct (tbl !! k) as [e|]; [|done]. exists e.
    split; [done|]. split; [apply same_content_refl|].
    split; [done|]. by intros ?%elem_of_nil. }
  destruct IH as (tbl1 & Hrun & Hinv).
  { intros k p Hkp. apply Hasg, elem_of_app. by left. }
  destruct (Hasg k0 p0) as [[e0 He0] Hp0].
  { apply elem_of_app. right. apply list_elem_of_here. }
  pose proof (Hinv k0) as Hk0. rewrite He0 in Hk0.
  destruct Hk0 as (e1 & He1 & Hsame1 & _).
  exists (<[k0 := update_updated_at_column
                    (LocalSyntaxEntry.with_position e1 p0)
                    (clock (served + length asg)%nat)]> tbl1).
  split.
  { rewrite reorder_cloud_app, Hrun. simpl. run_async.
    unfold request. simpl. rewrite He1, Hp0. simpl.
    rewrite length_app. simpl. do 3 f_equal. lia. }
  intros k. rewrite fmap_app, lookup_insert. simpl.
  specialize (Hinv k). case_decide as Hk; subst.
  - rewrite He0. eexists. split; [done|].
    split; [by apply same_content_updated|]. split.
    + intros Hnot. exfalso. apply Hnot, elem_of_app. right.
      apply list_elem_of_here.
    + intros _. exists asg, []. split; [done|].
      split; [by intros ?%elem_of_nil|done].
  - destruct (tbl !! k) as [e|]; [|done].
    destruct Hinv as (e' & He' & Hsame & Hout & Hin).
    exists e'. split; [done|]. split; [done|]. split.
    + intros Hnot. apply Hout. intros ?. apply Hnot, elem_of_app. by left.
    + intros [Hk'|Hk']%elem_of_app;
        [|by apply list_elem_of_singleton in Hk'].
      destruct (Hin Hk') as (pre & post & -> & Hpost & Hnow).
      exists pre, (post ++ [(k0, p0)])%list.
      split; [by rewrite <-app_assoc|]. split; [|done].
      rewrite fmap_app, elem_of_app. simpl. rewrite list_elem_of_singleton.
      by intros [?|?].
Qed.

(** On the hosted database a reorder of rows that are there, to positions
    that are [INTEGER]s, resolves: a listed row gets the position given for
    it (the last one), and [now()] of that update as its [updated_at], and
    keeps every other field; the other rows, the cheatsheets and the Local
    Store are left as they were. *)
Lemma hosted_reorder_keeps_content ctx cid asg (w : @World Database) :
  cloud_client ctx = true →
  (∀ k p, (k, p) ∈ asg →
     is_Some (tbl_syntax_entries (remote w) !! k) ∧ INTEGER p = true) →
  ∃ w',
    useReorderEntries (hosted other) ctx cid asg w = Resolved w' tt ∧
    local w' = local w ∧
    tbl_cheatsheets (remote w') = tbl_cheatsheets (remote w) ∧
    (∀ k e, tbl_syntax_entries (remote w) !! k = Some e → k ∈ asg.*1 →
       ∃ p e' pre post,
         asg = (pre ++ (k, p) :: post)%list ∧ (k ∉ post.*1) ∧
         tbl_syntax_entries (remote w') !! k = Some e' ∧
         LocalSyntaxEntry.position e' = p ∧
         same_content e e' ∧
         LocalSyntaxEntry.updated_at e'
         = db_clock (remote w) (db_served (remote w) + length pre)%nat) ∧
    (∀ k, k ∉ asg.*1 →
       tbl_syntax_entries (remote w') !! k = tbl_syntax_entries (remote w) !! k).
Proof.
  intros Hc Hasg. destruct w as [local [cs tbl clock served]]. simpl in *.
  destruct (hosted_reorder_loop asg local cs tbl clock served Hasg)
    as (tbl' & Hrun & Hinv).
  eexists. split; [unfold useReorderEntries; rewrite Hc; exact Hrun|].
  simpl. split; [done|]. split; [done|]. split.
  - intros k e He Hk. specialize (Hinv k). rewrite He in Hinv.
    destruct Hinv as (e' & He' & Hsame & _ & Hin).
    destruct (Hin Hk) as (pre & post & Heq & Hpost & Hnow).
    by exists (LocalSyntaxEntry.position e'), e', pre, post.
  - intros k Hk. specialize (Hinv k).
    destruct (tbl !! k) as [e|]; [|done].
    destruct Hinv as (e' & He' & _ & Hout & _). by rewrite He', (Hout Hk).
Qed.
End hosted_reorder.

(** ** A purge on the hosted database *)

(** On the hosted database, over a connection that may lose the first
    request: once the request that deletes a cheatsheet row has been
    answered, the purge resolves, and the row and every entry of the
    cheatsheet are gone, whether the entries were deleted by the first
    request or by the cascade; the other rows and the Local Store are as
    they were. *)
Lemma hosted_purge other lost ctx id (w : @World Database) :
  cloud_client ctx = true →
  is_Some (tbl_cheatsheets (remote w) !! id) →
  lost (delete_cheatsheet id) = false →
  ∃ w',
    usePermanentDeleteCheatsheet (lossy lost (hosted other)) ctx id w
      = Resolved w' tt ∧
    local w' = local w ∧
    tbl_cheatsheets (remote w') = delete id (tbl_cheatsheets (remote w)) ∧
    tbl_syntax_entries (remote w') =
      delete_entries_where_cheatsheet_id id (tbl_syntax_entries (remote w)).
Proof.
  intros Hc [c Hrow] Hsecond. unfold usePermanentDeleteCheatsheet.
  rewrite Hc. unfold mbind, Async_bind, mret, Async_ret, request, lossy.
  rewrite Hsecond. destruct w as [local [cs tbl clock served]]. simpl in *.
  destruct (lost (delete_entries_of id)); simpl; repeat (rewrite Hrow; simpl).
  - by eexists.
  - eexists. split; [done|]. split; [done|]. split; [done|]. simpl.
    unfold delete_entries_where_cheatsheet_id.
    by apply map_filter_filter_l.
Qed.

(** C8, as the code has it by design.  A reorder resolves and changes the
    entries as follows: an entry whose id is listed gets the position given
    for it (the last one given, should the id be listed twice) and keeps
    its id, its cheatsheet, its syntax, category, description, example,
    notes, display format, language and creation time; an entry whose id
    is not listed is left as it was; no entry is created; the cheatsheets
    are untouched.  This holds in guest mode on the Local Store, and in
    cloud mode on the hosted database for listed rows that are there and
    positions that are [INTEGER]s. *)
Theorem reorder_frame {Server}
    (supabase : SupabaseRequest → Server → Server * PostgrestResponse)
    (other : SupabaseRequest → Database → Database * PostgrestResponse)
    ctx cid asg (w : @World Server) (wh : @World Database) :
  (AppContext.ctx_mode ctx = AppContext.guest → wf (local w) →
   ∃ w',
     useReorderEntries supabase ctx cid asg w = Resolved w' tt ∧
     cheatsheets (local w') = cheatsheets (local w) ∧
     (∀ k e, entries (local w) !! k = Some e → k ∈ asg.*1 →
        ∃ p e',
          (∃ pre post, asg = (pre ++ (k, p) :: post)%list ∧ k ∉ post.*1) ∧
          entries (local w') !! k = Some e' ∧
          LocalSyntaxEntry.position e' = p ∧
          same_content e e') ∧
     (∀ k, k ∉ asg.*1 → entries (local w') !! k = entries (local w) !! k) ∧
     (∀ k, entries (local w) !! k = None → entries (local w') !! k = None)) ∧
  (cloud_client ctx = true →
   (∀ k p, (k, p) ∈ asg →
      is_Some (tbl_syntax_entries (remote wh) !! k) ∧ INTEGER p = true) →
   ∃ w',
     useReorderEntries (hosted other) ctx cid asg wh = Resolved w' tt ∧
     local w' = local wh ∧
     tbl_cheatsheets (remote w') = tbl_cheatsheets (remote wh) ∧
     (∀ k e, tbl_syntax_entries (remote wh) !! k = Some e → k ∈ asg.*1 →
        ∃ p e',
          (∃ pre post, asg = (pre ++ (k, p) :: post)%list ∧ k ∉ post.*1) ∧
          tbl_syntax_entries (remote w') !! k = Some e' ∧
          LocalSyntaxEntry.position e' = p ∧
          same_content e e') ∧
     (∀ k, k ∉ asg.*1 →
        tbl_syntax_entries (remote w') !! k
        = tbl_syntax_entries (remote wh) !! k) ∧
     (∀ k, tbl_syntax_entries (remote wh) !! k = None →
        tbl_syntax_entries (remote w') !! k = None)).
Proof.
  split; [apply guest_reorder_keeps_content|]. intros Hc Hasg.
  destruct (hosted_reorder_keeps_content other ctx cid asg wh Hc Hasg)
    as (w' & Hrun & Hlocal & Hcs & Hlisted & Hothers).
  exists w'. split; [done|]. split; [done|]. split; [done|].
  split; [|split; [done|]].
  - intros k e He Hk.
    destruct (Hlisted k e He Hk) as (p & e' & pre & post & ? & ? & ? & ? & ? & _).
    exists p, e'. split; [by exists pre, post|done].
  - intros k Hk. rewrite Hothers; [done|].
    intros (x & -> & Hx)%list_elem_of_fmap. destruct x as [k p].
    destruct (Hasg k p Hx) as [[e He] _]. simpl in Hk. congruence.
Qed.

Lemma reorder_frame_witness :
  (∃ w' e,
     useReorderEntries unreachable guest_ctx "c1" [("e2", 5); ("e2", 0)]
       sample_world = Resolved w' tt ∧
     entries (local w') !! "e2" = Some e ∧
     LocalSyntaxEntry.position e = 0 ∧
     LocalSyntaxEntry.syntax e = "Array.filter()" ∧
     entries (local w') !! "e1" = Some array_map ∧
     cheatsheets (local w') = cheatsheets sample_db) ∧
  (∃ w' e,
     useReorderEntries (hosted no_answer) cloud_ctx
       (LocalCheatsheet.id hosted_basics) [(LocalSyntaxEntry.id hosted_map, 1)]
       (mkWorld emptyDB hosted_db) = Resolved w' tt ∧
     tbl_syntax_entries (remote w') !! LocalSyntaxEntry.id hosted_map = Some e ∧
     LocalSyntaxEntry.position e = 1 ∧
     LocalSyntaxEntry.syntax e = "Array.map()").
Proof.
  destruct (reorder_frame unreachable no_answer guest_ctx "c1"
              [("e2", 5); ("e2", 0)] sample_world (mkWorld emptyDB hosted_db))
    as [Hguest _].
  destruct (reorder_frame (@no_answer unit) no_answer cloud_ctx
              (LocalCheatsheet.id hosted_basics)
              [(LocalSyntaxEntry.id hosted_map, 1)]
              sample_world (mkWorld emptyDB hosted_db))
    as [_ Hcloud].
  split.
  - destruct (Hguest eq_refl wf_sample_db)
      as (w' & Hrun & Hcheatsheets & Hlisted & Hothers & _).
    destruct (Hlisted "e2" array_filter) as (p & e & Hlast & He & Hp & Hsame).
    + vm_compute. reflexivity.
    + apply elem_of_cons. by left.
    + exists w', e. split; [exact Hrun|]. split; [exact He|]. split.
      * rewrite Hp. destruct Hlast as (pre & post & Heq & Hpost).
        destruct pre as [|a pre]; simpl in Heq.
        -- injection Heq as <- <-. exfalso. apply Hpost. apply elem_of_cons.
           by left.
        -- injection Heq as _ Heq. destruct pre as [|b pre]; simpl in Heq.
           ++ by injection Heq as <- _.
           ++ injection Heq as _ Heq. by destruct pre.
      * split; [apply Hsame|]. split; [|exact Hcheatsheets].
        rewrite Hothers; [vm_compute; reflexivity|].
        intros [?|[?|[]%elem_of_nil]%elem_of_cons]%elem_of_cons; done.
  - destruct Hcloud as (w' & Hrun & _ & _ & Hlisted & _).
    + reflexivity.
    + intros k p [[= -> ->]|[]%elem_of_nil]%elem_of_cons.
      split; [by eexists|reflexivity].
    + destruct (Hlisted (LocalSyntaxEntry.id hosted_map) hosted_map)
        as (p & e & Hlast & He & Hp & Hsame).
      * apply lookup_insert_eq.
      * apply elem_of_cons. by left.
      * exists w', e. split; [exact Hrun|]. split; [exact He|]. split.
        -- rewrite Hp. destruct Hlast as (pre & post & Heq & _).
           destruct pre as [|a pre]; simpl in Heq.
           ++ by injection Heq as <- _.
           ++ injection Heq as _ Heq. by destruct pre.
        -- apply Hsame.
Defined.

(** C8, as stated, fails on the hosted database: the position update fires
    the trigger of the setup script, so that the listed entry has a new
    [updated_at] besides its new position. *)
Lemma cloud_reorder_refreshes_updated_at :
  ∃ w' e,
    useReorderEntries (hosted no_answer) cloud_ctx
      (LocalCheatsheet.id hosted_basics) [(LocalSyntaxEntry.id hosted_map, 1)]
      (mkWorld emptyDB hosted_db) = Resolved w' tt ∧
    tbl_syntax_entries (remote w') !! LocalSyntaxEntry.id hosted_map = Some e ∧
    LocalSyntaxEntry.position e = 1 ∧
    same_content hosted_map e ∧
    LocalSyntaxEntry.updated_at hosted_map = "2024-01-02T00:00:00+00:00" ∧
    LocalSyntaxEntry.updated_at e = "2024-06-01T12:00:00+00:00" ∧
    LocalSyntaxEntry.updated_at e ≠ LocalSyntaxEntry.updated_at hosted_map.
Proof.
  set (e := update_updated_at_column
              (LocalSyntaxEntry.with_position hosted_map 1)
              "2024-06-01T12:00:00+00:00").
  exists (mkWorld emptyDB
            (mkDatabase (tbl_cheatsheets hosted_db)
               (<[LocalSyntaxEntry.id hosted_map := e]>
                  (tbl_syntax_entries hosted_db))
               (db_clock hosted_db) 1)), e.
  split; [by vm_compute|]. split; [apply lookup_insert_eq|].
  split; [done|]. split; [by repeat split|]. by repeat split.
Qed.

(** ** The AI response *)

Lemma str_or_nonempty x d : d ≠ "" → str_or x d ≠ "".
Proof. intros Hd. unfold str_or. by case_decide. Qed.

(** X19.  [generate] returns a result or shows a toast, never both and never
    neither.  Without a Gemini key it reports "AI not configured" whatever
    the request would have answered.  A result always names a language,
    and an error toast always carries a message. *)
Theorem generate_result_or_toast JSON_parse hasGemini params fetch :
  let '(result, toast) := AIGenerate.generate JSON_parse hasGemini params fetch in
  (hasGemini = false →
   result = None ∧
   AIGenerate.toast_title <$> toast = Some "AI not configured") ∧
  ((∃ r, result = Some r ∧ toast = None ∧ AIGenerate.r_language r ≠ "") ∨
   (∃ t, result = None ∧ toast = Some t ∧ AIGenerate.toast_description t ≠ "")).
Proof.
  assert (∀ m, str_or m "Failed to generate content" ≠ "") as Hmsg
    by (intros m; by apply str_or_nonempty).
  unfold AIGenerate.generate, AIGenerate.ai_error.
  destruct hasGemini; simpl;
    [|split; [done|]; right; eexists; split; [done|]; split; done].
  destruct fetch as [text|status message|message].
  - destruct (AIGenerate.match_braces _) as [block|].
    + destruct (JSON_parse block) as [parsed|message]; (split; [done|]).
      * left. eexists. split; [done|]. split; [done|]. simpl.
        by apply str_or_nonempty, str_or_nonempty.
      * right. eexists. split; [done|]. split; [done|]. apply Hmsg.
    + split; [done|]. left. eexists. split; [done|]. split; [done|]. simpl.
      by apply str_or_nonempty.
  - destruct (status =? 429); (split; [done|]); right; eexists;
      (split; [done|]); (split; [done|]); apply Hmsg.
  - split; [done|]. right. eexists. split; [done|]. split; [done|]. apply Hmsg.
Qed.

(** ** The greedy match *)

Lemma upto_last_close_none_iff s :
  AIGenerate.upto_last_close s = None ↔ has_char "}" s = false.
Proof.
  induction s as [|a s IH]; [done|]. simpl.
  destruct (AIGenerate.upto_last_close s) as [m|].
  - split; [done|]. intros [_ H]%orb_false_iff. apply IH in H. done.
  - destruct (decide (a = "}"%char)) as [->|Hne].
    + split; [done|]. by rewrite bool_decide_eq_true_2.
    + rewrite bool_decide_eq_false_2 by done. simpl. split; [|done].
      intros _. by apply IH.
Qed.

Lemma upto_last_close_cons a rest :
  AIGenerate.upto_last_close (String a rest) =
    match AIGenerate.upto_last_close rest with
    | Some m => Some (String a m)
    | None => if decide (a = "}"%char) then Some (String a EmptyString) else None
    end.
Proof. done. Qed.

Lemma upto_last_close_last mid suf :
  has_char "}" suf = false →
  AIGenerate.upto_last_close (mid +:+ "}" +:+ suf) = Some (mid +:+ "}").
Proof.
  intros Hsuf. induction mid as [|b mid IH].
  - change (AIGenerate.upto_last_close (String "}" suf) = Some "}").
    simpl. apply upto_last_close_none_iff in Hsuf. by rewrite Hsuf.
  - by rewrite !(append_cons b mid), upto_last_close_cons, IH.
Qed.

Lemma upto_last_close_greedy s m :
  AIGenerate.upto_last_close s = Some m ↔
    ∃ mid suf, s = mid +:+ "}" +:+ suf ∧ m = mid +:+ "}" ∧ has_char "}" suf = false.
Proof.
  split.
  - revert m. induction s as [|a s IH]; intros m; [done|]. simpl.
    destruct (AIGenerate.upto_last_close s) as [m'|] eqn:Hs.
    + intros [= <-]. destruct (IH m' eq_refl) as (mid & suf & -> & -> & Hsuf).
      exists (String a mid), suf. by rewrite !append_cons.
    + destruct (decide (a = "}"%char)) as [->|Hne]; [|done].
      intros [= <-]. exists "", s. split; [done|]. split; [done|].
      by apply upto_last_close_none_iff.
  - intros (mid & suf & -> & -> & Hsuf). by apply upto_last_close_last.
Qed.

(** X20.  [content.match(/\{[\s\S]*\}/)] is greedy: the match starts at the first
    opening brace and ends at the last closing brace of the text. *)
Theorem match_braces_greedy content block :
  AIGenerate.match_braces content = Some block ↔
    ∃ pre mid suf,
      content = pre +:+ "{" +:+ mid +:+ "}" +:+ suf ∧
      block = "{" +:+ mid +:+ "}" ∧
      has_char "{" pre = false ∧ has_char "}" suf = false.
Proof.
  split.
  - revert block. induction content as [|a s IH]; intros block; [done|]. simpl.
    destruct (decide (a = "{"%char)) as [->|Hne].
    + rewrite fmap_Some.
      intros (m & (mid & suf & -> & -> & Hsuf)%upto_last_close_greedy & ->).
      by exists "", mid, suf.
    + intros (pre & mid & suf & -> & -> & Hpre & Hsuf)%IH.
      exists (String a pre), mid, suf. rewrite append_cons. simpl.
      by rewrite bool_decide_eq_false_2.
  - intros (pre & mid & suf & -> & -> & Hpre & Hsuf).
    induction pre as [|b pre IH].
    + change (AIGenerate.match_braces (String "{" (mid +:+ "}" +:+ suf))
              = Some (String "{" (mid +:+ "}"))).
      simpl. by rewrite upto_last_close_last.
    + rewrite append_cons. simpl in *.
      apply orb_false_iff in Hpre as [Hb%bool_decide_eq_false Hpre].
      rewrite decide_False by done. by apply IH.
Qed.

(** ** Grouping by category *)

Lemma groupedEntries_snoc inherited entries x :
  groupedEntries inherited (entries ++ [x]) =
    acc ← groupedEntries inherited entries;
    let k := LocalSyntaxEntry.category x in
    match acc !! k with
    | Some group => Some (<[k := (group ++ [x])%list]> acc)
    | None => if inherited k then None else Some (<[k := [x]]> acc)
    end.
Proof. unfold groupedEntries. by rewrite foldl_app. Qed.

Lemma group_of_snoc k entries x :
  group_of k (entries ++ [x]) =
    if decide (LocalSyntaxEntry.category x = k)
    then Some (default [] (group_of k entries) ++ [x])%list
    else group_of k entries.
Proof.
  unfold group_of. rewrite filter_app, filter_cons, filter_nil.
  destruct (decide (LocalSyntaxEntry.category x = k)).
  - by destruct (filter _ entries).
  - by rewrite app_nil_r.
Qed.

(** X21.  [groupedEntries] throws exactly when some entry's category names an
    inherited property of the object literal (such as "constructor").
    Otherwise the object has one key per category in use, holding the
    entries of that category in the order of the list: every entry is in
    the group of its category and in no other. *)
Theorem groupedEntries_spec inherited entries :
  match groupedEntries inherited entries with
  | Some grouped =>
      (∀ e, e ∈ entries → inherited (LocalSyntaxEntry.category e) = false) ∧
      (∀ k, grouped !! k =
              match filter (λ e, LocalSyntaxEntry.category e = k) entries with
              | [] => None
              | group => Some group
              end)
  | None =>
      ∃ e, e ∈ entries ∧ inherited (LocalSyntaxEntry.category e) = true
  end.
Proof.
  induction entries as [|x entries IH] using rev_ind.
  { simpl. split; [by intros e ?%elem_of_nil|]. intros k. apply lookup_empty. }
  rewrite groupedEntries_snoc.
  destruct (groupedEntries inherited entries) as [acc|]; simpl.
  2:{ destruct IH as (e & He & Hi). exists e. split; [|done].
      apply elem_of_app. by left. }
  destruct IH as [Hinh Hacc]. fold (group_of) in Hacc.
  assert (∀ k, acc !! k = group_of k entries) as Hacc' by apply Hacc.
  clear Hacc.
  set (kx := LocalSyntaxEntry.category x).
  assert (∀ group', 
            (∀ k, <[kx := group']> acc !! k = group_of k (entries ++ [x])) →
            inherited kx = false →
            (∀ e, e ∈ (entries ++ [x])%list →
                  inherited (LocalSyntaxEntry.category e) = false)) as Hall.
  { intros _ _ Hkx e [He| ->%list_elem_of_singleton]%elem_of_app; [by apply Hinh|done]. }
  destruct (acc !! kx) as [group|] eqn:Hkx.
  - assert (inherited kx = false) as Hi.
    { rewrite Hacc' in Hkx. unfold group_of in Hkx.
      destruct (filter _ entries) as [|e l] eqn:Hf; [done|].
      assert (e ∈ filter (λ e, LocalSyntaxEntry.category e = kx) entries)
        as [<- He]%list_elem_of_filter by (rewrite Hf; left).
      by apply Hinh. }
    assert (∀ k, <[kx := (group ++ [x])%list]> acc !! k
                 = group_of k (entries ++ [x])) as Hnew.
    { intros k. rewrite group_of_snoc. fold kx.
      destruct (decide (kx = k)) as [<-|Hne].
      + by rewrite lookup_insert_eq, <-Hacc', Hkx.
      + by rewrite lookup_insert_ne. }
    split; [by eapply Hall|]. apply Hnew.
  - destruct (inherited kx) eqn:Hi.
    + exists x. split; [|done]. apply elem_of_app. right. left.
    + assert (∀ k, <[kx := [x]]> acc !! k = group_of k (entries ++ [x])) as Hnew.
      { intros k. rewrite group_of_snoc. fold kx.
        destruct (decide (kx = k)) as [<-|Hne].
        + by rewrite lookup_insert_eq, <-Hacc', Hkx.
        + by rewrite lookup_insert_ne. }
      split; [by eapply Hall|]. apply Hnew.
Qed.

(** A category named "constructor" makes the grouping throw. *)
Example constructor_category_throws :
  groupedEntries Object_prototype
    [LocalSyntaxEntry.mk "e9" "c1" "new Foo()" "constructor" None None None
       "card" "javascript" 0 later later]
  = None.
Proof. vm_compute. reflexivity. Qed.

(** ** The tokens of a highlighted line *)

Section token_facts.
Context {C : Type}.
Implicit Types (line : list C) (tokens : list (@Token C)).

Lemma substring_in_range line (a b : Z) :
  0 ≤ a ≤ b → b ≤ Z.of_nat (length line) →
  substring line a b = take (Z.to_nat (b - a)) (drop (Z.to_nat a) line).
Proof.
  intros Hab Hb. unfold substring. cbv zeta.
  replace (Z.max a 0 `min` Z.of_nat (length line)) with a by lia.
  replace (Z.max b 0 `min` Z.of_nat (length line)) with b by lia.
  replace (a `min` b) with a by lia. by replace (a `max` b) with b by lia.
Qed.

Lemma take_substring line (a b : Z) :
  0 ≤ a ≤ b → b ≤ Z.of_nat (length line) →
  (take (Z.to_nat a) line ++ substring line a b)%list = take (Z.to_nat b) line.
Proof.
  intros Hab Hb. rewrite substring_in_range, take_take_drop by done.
  f_equal. lia.
Qed.

Lemma concat_text_snoc tokens (t : @Token C) :
  concat (text <$> (tokens ++ [t])%list) = (concat (text <$> tokens) ++ text t)%list.
Proof. rewrite fmap_app, concat_app. simpl. by rewrite app_nil_r. Qed.

Lemma token_loop line matches tokens (from : Z) :
  0 ≤ from → separated from (Z.of_nat (length line)) matches →
  concat (text <$> tokens) = take (Z.to_nat from) line →
  let '(tokens', last) := foldl (token_step line) (tokens, from) matches in
  concat (text <$> tokens') = take (Z.to_nat last) line ∧
  from ≤ last ≤ Z.of_nat (length line).
Proof.
  revert tokens from. induction matches as [|m rest IH]; intros tokens from Hfrom Hsep Hc.
  { simpl in *. split; [done|lia]. }
  destruct Hsep as (Hidx & Hlen & Hsep).
  assert (m_index m + m_length m ≤ Z.of_nat (length line)) as Hend.
  { clear -Hsep Hlen. revert Hsep. generalize (m_index m + m_length m).
    induction rest as [|m' rest IH]; intros z; simpl; [done|].
    intros (? & ? & Hrest). apply IH in Hrest. lia. }
  change (foldl (token_step line) (tokens, from) (m :: rest))
    with (foldl (token_step line) (token_step line (tokens, from) m) rest).
  change (token_step line (tokens, from) m) with
    ((if from <? m_index m
      then (tokens ++ [mkToken (substring line from (m_index m)) tok_default])%list
      else tokens) ++
     [mkToken (substring line (m_index m) (m_index m + m_length m)) (m_type m)],
     m_index m + m_length m)%list.
  specialize (IH
    ((if from <? m_index m
      then (tokens ++ [mkToken (substring line from (m_index m)) tok_default])%list
      else tokens) ++
     [mkToken (substring line (m_index m) (m_index m + m_length m)) (m_type m)])%list
    (m_index m + m_length m)).
  destruct (foldl _ _ rest) as [tokens' last].
  destruct IH as [IH1 IH2]; [lia|done| |split; [done|lia]].
  rewrite concat_text_snoc. simpl.
  rewrite <-(take_substring line (m_index m) (m_index m + m_length m)) by lia.
  f_equal. destruct (Z.ltb_spec from (m_index m)) as [Hlt|Hge].
  - rewrite concat_text_snoc, Hc. simpl. apply take_substring; lia.
  - rewrite Hc. f_equal. lia.
Qed.

(** X22.  When the matches found in a line do not overlap, the tokens spell the
    line: their texts, concatenated in order, are the line. *)
Theorem tokens_spell_the_line line matches :
  separated 0 (Z.of_nat (length line))
            (Array_sort (λ a b, m_index a - m_index b) matches) →
  concat (text <$> buildTokens line matches) = line.
Proof.
  intros Hsep. unfold buildTokens.
  pose proof (token_loop line _ [] 0 (Z.le_refl 0) Hsep eq_refl) as Hloop.
  destruct (foldl _ _ _) as [tokens last]. destruct Hloop as [Hc Hlast].
  case_bool_decide as Hempty.
  { simpl. by rewrite app_nil_r. }
  destruct (Z.ltb_spec last (Z.of_nat (length line))) as [Hlt|Hge].
  - rewrite concat_text_snoc, Hc. simpl.
    rewrite take_substring by lia. rewrite Nat2Z.id. apply take_ge. lia.
  - rewrite Hc. apply take_ge. lia.
Qed.
End token_facts.

(** A keyword inside a comment is matched twice, and its text is then
    printed twice: the line "// return 1" is spelled "// return 1return 1". *)
Example overlapping_matches_repeat_text :
  let line := String.list_ascii_of_string "// return 1" in
  let matches := [mkMatch 3 6 tok_keyword; mkMatch 0 11 tok_comment;
                  mkMatch 10 1 tok_number] in
  String.string_of_list_ascii (concat (text <$> buildTokens line matches))
  = "// return 1return 1".
Proof. reflexivity. Qed.

(** ** The category suggestions *)

Lemma Set_new_spec (values : list string) :
  NoDup (Set_new values) ∧ ∀ x, x ∈ Set_new values ↔ x ∈ values.
Proof.
  unfold Set_new. induction values as [|v values IH] using rev_ind.
  { split; [constructor|done]. }
  rewrite foldl_app. simpl. destruct IH as [Hnd Hin].
  destruct (decide (v ∈ foldl _ [] values)) as [Hv|Hv].
  - split; [done|]. intros x. rewrite elem_of_app, list_elem_of_singleton, Hin.
    split; [tauto|]. intros [?| ->]; [done|]. by apply Hin.
  - split.
    + apply NoDup_app. split; [done|]. split; [|apply NoDup_singleton].
      intros x Hx ->%list_elem_of_singleton. done.
    + intros x. by rewrite !elem_of_app, Hin.
Qed.

(** X23.  The category suggestions hold every category in use exactly once,
    whatever the order the comparison gives them; there are none while the
    entries are not loaded. *)
Theorem existingCategories_spec compare entries :
  NoDup (existingCategories compare entries) ∧
  ∀ k, k ∈ existingCategories compare entries ↔
       ∃ e, e ∈ default [] entries ∧ LocalSyntaxEntry.category e = k.
Proof.
  unfold existingCategories.
  destruct (Set_new_spec (LocalSyntaxEntry.category <$> default [] entries))
    as [Hnd Hin].
  split; [by rewrite Array_sort_Permutation|].
  intros k. rewrite elem_of_Array_sort, Hin, list_elem_of_fmap.
  split; intros (e & ? & ?); eauto.
Qed.

(** ** The three blocks of a category *)

Lemma filter_disjoint_union {A} (P Q : A → Prop)
    `{∀ x, Decision (P x)} `{∀ x, Decision (Q x)} (l : list A) :
  (∀ x, P x → Q x → False) →
  (filter P l ++ filter Q l)%list ≡ₚ filter (λ x, P x ∨ Q x) l.
Proof.
  intros Hdisj. induction l as [|x l IH]; [done|].
  rewrite !filter_cons.
  destruct (decide (P x)) as [HP|HP], (decide (Q x)) as [HQ|HQ].
  - destruct (Hdisj x HP HQ).
  - rewrite decide_True by by left. simpl. by rewrite IH.
  - rewrite decide_True by by right. rewrite <-Permutation_middle. by rewrite IH.
  - rewrite decide_False by (by intros [?|?]). done.
Qed.

(** X24.  The three blocks of a category together hold exactly its entries whose
    display format is "card", "table", "compact" or empty (shown as a card),
    each as often as it is listed; an entry with any other format is
    rendered in none of them. *)
Theorem display_blocks categoryEntries :
  (cardEntries categoryEntries ++ tableEntries categoryEntries
     ++ compactEntries categoryEntries)%list
    ≡ₚ filter (λ e, (LocalSyntaxEntry.display_format e = "card"
                     ∨ LocalSyntaxEntry.display_format e = "")
                    ∨ LocalSyntaxEntry.display_format e = "table"
                    ∨ LocalSyntaxEntry.display_format e = "compact")
              categoryEntries ∧
  ∀ e, LocalSyntaxEntry.display_format e
         ∉ ["card"; ""; "table"; "compact"] →
       (e ∉ cardEntries categoryEntries) ∧
       (e ∉ tableEntries categoryEntries) ∧
       (e ∉ compactEntries categoryEntries).
Proof.
  unfold cardEntries, tableEntries, compactEntries. split.
  - rewrite (filter_disjoint_union
               (λ e, LocalSyntaxEntry.display_format e = "table")
               (λ e, LocalSyntaxEntry.display_format e = "compact"))
      by (intros x H1 H2; congruence).
    apply (filter_disjoint_union
             (λ e, LocalSyntaxEntry.display_format e = "card"
                   ∨ LocalSyntaxEntry.display_format e = "")
             (λ e, LocalSyntaxEntry.display_format e = "table"
                   ∨ LocalSyntaxEntry.display_format e = "compact")).
    intros x [H1|H1] [H2|H2]; congruence.
  - intros e Hfmt. rewrite !list_elem_of_filter.
    split; [|split]; intros [Hf _]; apply Hfmt; rewrite ?Hf.
    + destruct Hf as [-> | ->]; [left|right; left].
    + do 2 right. left.
    + do 3 right. left.
Qed.

(** ** Referential integrity is kept by the handlers *)

Lemma no_orphans_put_entry e db :
  no_orphans db →
  is_Some (cheatsheets db !! LocalSyntaxEntry.cheatsheet_id e) →
  no_orphans (entriesDB.put e db).
Proof.
  intros Hno Hp k x. simpl. unfold put.
  destruct (decide (LocalSyntaxEntry.id e = k)) as [<-|Hne].
  - rewrite lookup_insert_eq. by intros [= <-].
  - rewrite lookup_insert_ne by done. apply Hno.
Qed.

Lemma no_orphans_delete_entry id db :
  no_orphans db → no_orphans (entriesDB.delete id db).
Proof.
  intros Hno k x. simpl. unfold remove.
  intros [_ Hk]%lookup_delete_Some. by eapply Hno.
Qed.

Lemma no_orphans_put_cheatsheet c db :
  no_orphans db → no_orphans (cheatsheetsDB.put c db).
Proof.
  intros Hno k x Hk. simpl. unfold put.
  destruct (decide (LocalCheatsheet.id c = LocalSyntaxEntry.cheatsheet_id x))
    as [<-|Hne].
  - rewrite lookup_insert_eq. by eexists.
  - rewrite lookup_insert_ne by done. by eapply Hno.
Qed.

Lemma no_orphans_purge id db :
  wf db → no_orphans db →
  no_orphans (cheatsheetsDB.delete id (entriesDB.deleteByCheatsheetId id db)).
Proof.
  intros Hwf Hno k x. simpl. rewrite deleteByCheatsheetId_lookup by done.
  destruct (entries db !! k) as [e|] eqn:He; [|done].
  case_decide as Hc; [done|]. intros [= <-].
  unfold remove. rewrite lookup_delete_ne by done.
  unfold entriesDB.deleteByCheatsheetId. rewrite delete_each_cheatsheets.
  by eapply Hno.
Qed.

Lemma no_orphans_reorder pm db :
  wf db → no_orphans db →
  no_orphans (foldl (reorder_step pm) db (entriesDB.getAll db)).
Proof.
  intros Hwf Hno k x. rewrite reorder_loop_entries, reorder_loop_cheatsheets by done.
  rewrite lookup_fmap. destruct (entries db !! k) as [e|] eqn:He; [|done].
  simpl. intros [= <-]. rewrite cheatsheet_id_repositioned. by eapply Hno.
Qed.

Section integrity.
Context {Server : Type}.
Context (supabase : SupabaseRequest → Server → Server * PostgrestResponse).
Context (TypeError_message : string).
Import AppContext.
Implicit Types (w : @World Server) (ctx : AppContextType).
#[local] Existing Instances Async_ret Async_bind.

(** X25.  In guest mode, with the editor open on a stored cheatsheet, whatever the
    list and the editor do keeps every entry attached to a stored
    cheatsheet: creating a cheatsheet, moving one to the trash, restoring
    or purging it, and adding, editing, deleting or reordering entries. *)
Theorem guest_handlers_keep_integrity ctx w cheatsheetId
    title description new_id created_now updated_now id now
    listed form editForm asg :
  ctx_mode ctx = guest → wf (local w) → no_orphans (local w) →
  is_Some (cheatsheets (local w) !! cheatsheetId) →
  let kept {A} (o : @Outcome Server A) : Prop :=
    wf (local (world_of o)) ∧ no_orphans (local (world_of o)) in
  kept (handleCreate supabase TypeError_message ctx title description
          new_id created_now updated_now w) ∧
  kept (useSoftDeleteCheatsheet supabase ctx id now w) ∧
  kept (useRestoreCheatsheet supabase ctx id w) ∧
  kept (usePermanentDeleteCheatsheet supabase ctx id w) ∧
  kept (handleSaveEntry supabase ctx cheatsheetId listed form
          new_id created_now updated_now w) ∧
  kept (handleSaveEdit supabase ctx cheatsheetId editForm now w) ∧
  kept (handleDeleteEntry supabase ctx cheatsheetId id w) ∧
  kept (useReorderEntries supabase ctx cheatsheetId asg w).
Proof.
  intros Hm Hwf Hno Hparent kept.
  split; [|split; [|split; [|split; [|split; [|split; [|split]]]]]];
    subst kept; cbv beta.
  - unfold handleCreate. destruct (trim_empty title); [done|].
    unfold useCreateCheatsheet. rewrite Hm. run_async.
    split; [by apply wf_cheatsheets_put|by apply no_orphans_put_cheatsheet].
  - rewrite useSoftDeleteCheatsheet_guest by done.
    destruct (cheatsheetsDB.get id (local w)); [|done]. simpl.
    split; [by apply wf_cheatsheets_put|by apply no_orphans_put_cheatsheet].
  - rewrite useRestoreCheatsheet_guest by done.
    destruct (cheatsheetsDB.get id (local w)); [|done]. simpl.
    split; [by apply wf_cheatsheets_put|by apply no_orphans_put_cheatsheet].
  - rewrite usePermanentDeleteCheatsheet_local
      by by apply guest_not_cloud_client.
    simpl. split; [|by apply no_orphans_purge].
    apply wf_cheatsheets_delete. unfold entriesDB.deleteByCheatsheetId.
    by apply wf_delete_each.
  - unfold handleSaveEntry.
    destruct (trim_empty (f_syntax form) || trim_empty (f_category form)); [done|].
    unfold mbind, Async_bind. rewrite useCreateEntry_guest by done. simpl.
    split; [by apply wf_entries_put|by apply no_orphans_put_entry].
  - unfold handleSaveEdit.
    destruct (trim_empty (editSyntax editForm)
              || trim_empty (editCategory editForm)); [done|].
    unfold mbind, Async_bind. rewrite useUpdateEntry_guest by done. simpl.
    destruct (entries (local w) !! _); [|done]. simpl.
    split; [by apply wf_entries_put|by apply no_orphans_put_entry].
  - unfold handleDeleteEntry. rewrite useDeleteEntry_guest by done. simpl.
    split; [by apply wf_entries_delete|by apply no_orphans_delete_entry].
  - rewrite useReorderEntries_guest by done. simpl.
    split; [by apply wf_reorder|by apply no_orphans_reorder].
Qed.
End integrity.

Section validity.
Context {Server : Type}.
Context (supabase : SupabaseRequest → Server → Server * PostgrestResponse).
Context (TypeError_message : string).
Import AppContext.
Implicit Types (w : @World Server) (ctx : AppContextType).
#[local] Existing Instances Async_ret Async_bind.

Lemma entries_valid_put e db :
  entries_valid db →
  trim_empty (LocalSyntaxEntry.syntax e) = false →
  trim_empty (LocalSyntaxEntry.category e) = false →
  entries_valid (entriesDB.put e db).
Proof.
  intros Hv Hs Hc k x. simpl. unfold put.
  destruct (decide (LocalSyntaxEntry.id e = k)) as [<-|Hne].
  - rewrite lookup_insert_eq. by intros [= <-].
  - rewrite lookup_insert_ne by done. apply Hv.
Qed.

Lemma entries_valid_subset db db' :
  entries_valid db →
  (∀ k e, entries db' !! k = Some e → entries db !! k = Some e) →
  entries_valid db'.
Proof. intros Hv Hsub k e He. by eapply Hv, Hsub. Qed.

(** X26.  The dialogs validate what they store: in guest mode, if every stored
    entry has a syntax and a category that are not blank, this is still
    so after any handler of the list or the editor has run, whatever the
    form fields were. *)
Theorem guest_handlers_keep_entries_valid ctx w cheatsheetId
    title description new_id created_now updated_now id now
    listed form editForm asg :
  ctx_mode ctx = guest → wf (local w) → entries_valid (local w) →
  let kept {A} (o : @Outcome Server A) : Prop :=
    entries_valid (local (world_of o)) in
  kept (handleCreate supabase TypeError_message ctx title description
          new_id created_now updated_now w) ∧
  kept (useSoftDeleteCheatsheet supabase ctx id now w) ∧
  kept (useRestoreCheatsheet supabase ctx id w) ∧
  kept (usePermanentDeleteCheatsheet supabase ctx id w) ∧
  kept (handleSaveEntry supabase ctx cheatsheetId listed form
          new_id created_now updated_now w) ∧
  kept (handleSaveEdit supabase ctx cheatsheetId editForm now w) ∧
  kept (handleDeleteEntry supabase ctx cheatsheetId id w) ∧
  kept (useReorderEntries supabase ctx cheatsheetId asg w).
Proof.
  intros Hm Hwf Hv kept.
  split; [|split; [|split; [|split; [|split; [|split; [|split]]]]]];
    subst kept; cbv beta.
  - unfold handleCreate. destruct (trim_empty title); [done|].
    unfold useCreateCheatsheet. rewrite Hm. by run_async.
  - rewrite useSoftDeleteCheatsheet_guest by done.
    by destruct (cheatsheetsDB.get id (local w)).
  - rewrite useRestoreCheatsheet_guest by done.
    by destruct (cheatsheetsDB.get id (local w)).
  - rewrite usePermanentDeleteCheatsheet_guest by done. simpl.
    apply (entries_valid_subset (local w)); [done|].
    intros k e. simpl. rewrite deleteByCheatsheetId_lookup by done.
    destruct (entries (local w) !! k); [|done]. by case_decide.
  - unfold handleSaveEntry.
    destruct (trim_empty (f_syntax form)) eqn:Hs; [done|].
    destruct (trim_empty (f_category form)) eqn:Hc; [done|]. simpl.
    unfold mbind, Async_bind. rewrite useCreateEntry_guest by done. simpl.
    by apply entries_valid_put.
  - unfold handleSaveEdit.
    destruct (trim_empty (editSyntax editForm)) eqn:Hs; [done|].
    destruct (trim_empty (editCategory editForm)) eqn:Hc; [done|]. simpl.
    unfold mbind, Async_bind. rewrite useUpdateEntry_guest by done. simpl.
    destruct (entries (local w) !! _); [|done]. simpl.
    by apply entries_valid_put.
  - unfold handleDeleteEntry. rewrite useDeleteEntry_guest by done. simpl.
    apply (entries_valid_subset (local w)); [done|].
    intros k e. simpl. unfold remove. by intros [_ ?]%lookup_delete_Some.
  - rewrite useReorderEntries_guest by done. simpl.
    intros k e. rewrite reorder_loop_entries, lookup_fmap by done.
    intros (e0 & He0 & ->)%fmap_Some. unfold repositioned.
    destruct (Map_new asg !! _); simpl; exact (Hv _ _ He0).
Qed.
End validity.

Lemma sample_entries_valid : entries_valid sample_db.
Proof.
  intros k e. unfold sample_db. simpl. unfold put. intros Hk.
  apply lookup_insert_Some in Hk as [[_ <-]|[_ Hk]]; [done|].
  apply lookup_insert_Some in Hk as [[_ <-]|[_ Hk]]; [done|].
  by rewrite lookup_empty in Hk.
Qed.

Lemma guest_handlers_keep_entries_valid_witness :
  entries_valid (local (world_of
    (handleSaveEdit unreachable guest_ctx "c1" edited_map later sample_world))).
Proof.
  apply (guest_handlers_keep_entries_valid unreachable
           "Cannot read properties of null (reading 'id')"
           guest_ctx sample_world "c1" "Python" "" "c2" later later "c1" later
           (Some [array_map; array_filter]) new_entry_form edited_map
           filter_first).
  - reflexivity.
  - apply wf_sample_db.
  - apply sample_entries_valid.
Defined.

(** ** Wrapped lines *)

Section wrapping_facts.
Context {C : Type} `{EqDecision C} (space : C).
Context (too_wide : list C → bool).
Context (blank : list C → bool).
Implicit Types (s line segment : list C) (wrapped : list (list C)).

Lemma split_spec s :
  split space s ≠ [] ∧
  Forall (Forall (λ c, c ≠ space)) (split space s) ∧
  concat (split space s) = filter (λ c, c ≠ space) s.
Proof.
  induction s as [|c s (Hne & Hall & Hcat)]; simpl.
  { split; [done|]. split; [by repeat constructor|done]. }
  rewrite filter_cons. destruct (decide (c = space)) as [->|Hc].
  - rewrite decide_False by (by intros []). split; [done|].
    split; [by constructor|done].
  - rewrite decide_True by done.
    destruct (split space s) as [|segment segments]; [done|].
    split; [done|]. apply Forall_cons in Hall as [Hseg Hall].
    split; [by repeat constructor|]. simpl in *. by rewrite Hcat.
Qed.

Lemma char_loop segment wrapped charLine :
  Forall (fits too_wide) wrapped → (fits too_wide) charLine →
  let '(wrapped', charLine') :=
    foldl (char_step too_wide) (wrapped, charLine) segment in
  Forall (fits too_wide) wrapped' ∧ (fits too_wide) charLine' ∧
  (concat wrapped' ++ charLine')%list
    = (concat wrapped ++ charLine ++ segment)%list ∧
  (nonempty charLine' = false → wrapped' = wrapped ∧ segment = [] ∧ charLine = []).
Proof.
  revert wrapped charLine. induction segment as [|c segment IH];
    intros wrapped charLine Hw Hc; simpl.
  { rewrite app_nil_r. split; [done|]. split; [done|]. split; [done|].
    by destruct charLine. }
  destruct (too_wide (charLine ++ [c]) && nonempty charLine) eqn:Htest.
  - specialize (IH (wrapped ++ [charLine])%list [c]).
    destruct (foldl _ _ segment) as [wrapped' charLine'].
    destruct IH as (H1 & H2 & H3 & H4).
    + apply Forall_app. split; [done|]. by constructor.
    + right. simpl. lia.
    + split; [done|]. split; [done|]. split.
      * rewrite H3, concat_app. simpl. by rewrite app_nil_r, <-!app_assoc.
      * intros Hn. by destruct (H4 Hn) as (_ & _ & ?).
  - specialize (IH wrapped (charLine ++ [c])%list).
    destruct (foldl _ _ segment) as [wrapped' charLine'].
    destruct IH as (H1 & H2 & H3 & H4).
    + done.
    + apply andb_false_iff in Htest as [Htest|Htest]; [by left|].
      right. destruct charLine; [simpl; lia|done].
    + split; [done|]. split; [done|]. split.
      * by rewrite H3, <-!app_assoc.
      * intros Hn. destruct (H4 Hn) as (_ & _ & ?). by destruct charLine.
Qed.

Lemma nonempty_false {A} (l : list A) : nonempty l = false → l = [].
Proof. by destruct l. Qed.

Lemma segment_step_spec segment last wrapped currentLine :
  Forall (λ c, c ≠ space) segment →
  Forall (fits too_wide) wrapped → (fits too_wide) currentLine →
  let '(wrapped', currentLine') :=
    segment_step space too_wide (wrapped, currentLine) segment last in
  Forall (fits too_wide) wrapped' ∧ (fits too_wide) currentLine' ∧
  (if last then filter (λ c, c ≠ space) (concat wrapped')
   else filter (λ c, c ≠ space) (concat wrapped' ++ currentLine')%list)
  = (filter (λ c, c ≠ space) (concat wrapped ++ currentLine) ++ segment)%list.
Proof.
  intros Hseg Hw Hc.
  assert (filter (λ c, c ≠ space) segment = segment) as Hfs.
  { apply filter_all. intros x Hx. by eapply Forall_forall in Hseg. }
  assert (∀ w1 c1,
    Forall (fits too_wide) w1 → (fits too_wide) c1 →
    filter (λ c, c ≠ space) (concat w1 ++ c1)%list
      = (filter (λ c, c ≠ space) (concat wrapped ++ currentLine) ++ segment)%list →
    let '(wrapped', currentLine') :=
      if last && nonempty c1 then ((w1 ++ [c1])%list, c1) else (w1, c1) in
    Forall (fits too_wide) wrapped' ∧ (fits too_wide) currentLine' ∧
    (if last then filter (λ c, c ≠ space) (concat wrapped')
     else filter (λ c, c ≠ space) (concat wrapped' ++ currentLine')%list)
    = (filter (λ c, c ≠ space) (concat wrapped ++ currentLine) ++ segment)%list)
    as Hpush.
  { intros w1 c1 Hw1 Hc1 Heq. destruct last; simpl.
    - destruct (nonempty c1) eqn:Hn.
      + split; [apply Forall_app; split; [done|by constructor]|].
        split; [done|]. rewrite concat_app. simpl. by rewrite app_nil_r.
      + split; [done|]. split; [done|].
        apply nonempty_false in Hn. subst c1. by rewrite app_nil_r in Heq.
    - done. }
  unfold segment_step. destruct (too_wide segment) eqn:Hwide.
  - set (flushed := if nonempty currentLine
                    then ((wrapped ++ [currentLine])%list, [])
                    else (wrapped, currentLine)).
    assert (Forall (fits too_wide) flushed.1 ∧ flushed.2 = [] ∧
            concat flushed.1 = (concat wrapped ++ currentLine)%list)
      as (Hf1 & Hf2 & Hf3).
    { unfold flushed. destruct (nonempty currentLine) eqn:Hn; simpl.
      - split; [apply Forall_app; split; [done|by constructor]|].
        split; [done|]. rewrite concat_app. simpl. by rewrite app_nil_r.
      - apply nonempty_false in Hn. subst. by rewrite app_nil_r. }
    destruct flushed as [w0 c0]. simpl in Hf1, Hf2, Hf3. subst c0.
    pose proof (char_loop segment w0 [] Hf1) as Hloop.
    destruct (foldl _ _ segment) as [w1 ch].
    destruct Hloop as (H1 & H2 & H3 & H4); [right; simpl; lia|].
    assert ((if nonempty ch then ch else []) = ch) as ->.
    { destruct (nonempty ch) eqn:Hn; [done|]. by apply nonempty_false in Hn. }
    apply Hpush; [done..|].
    rewrite H3, Hf3. simpl. by rewrite !filter_app, Hfs.
  - destruct (too_wide _ && nonempty currentLine) eqn:Htest.
    + apply Hpush.
      * apply Forall_app. split; [done|by constructor].
      * by left.
      * rewrite concat_app. simpl. by rewrite app_nil_r, !filter_app, Hfs.
    + apply Hpush; [done| |].
      * apply andb_false_iff in Htest as [Htest|Htest]; [by left|].
        apply nonempty_false in Htest. subst. simpl. by left.
      * rewrite !filter_app, Hfs, <-!app_assoc. f_equal. f_equal.
        destruct (nonempty currentLine); [|done].
        rewrite filter_cons, decide_False by (intros Hs; by apply Hs). done.
Qed.

Lemma segments_loop_spec segments wrapped currentLine :
  segments ≠ [] →
  Forall (Forall (λ c, c ≠ space)) segments →
  Forall (fits too_wide) wrapped → (fits too_wide) currentLine →
  let '(wrapped', _) :=
    segments_loop space too_wide (wrapped, currentLine) segments in
  Forall (fits too_wide) wrapped' ∧
  filter (λ c, c ≠ space) (concat wrapped')
  = (filter (λ c, c ≠ space) (concat wrapped ++ currentLine)%list
       ++ concat segments)%list.
Proof.
  revert wrapped currentLine.
  induction segments as [|s1 segments IH]; intros wrapped currentLine Hne Hall Hw Hc;
    [done|].
  apply Forall_cons in Hall as [Hs1 Hall].
  destruct segments as [|s2 segments].
  - change (segments_loop space too_wide (wrapped, currentLine) [s1])
      with (segment_step space too_wide (wrapped, currentLine) s1 true).
    pose proof (segment_step_spec s1 true wrapped currentLine Hs1 Hw Hc) as H.
    destruct (segment_step _ _ _ _ _) as [w' c']. destruct H as (H1 & _ & H3).
    split; [done|]. simpl. by rewrite H3, app_nil_r.
  - change (segments_loop space too_wide (wrapped, currentLine) (s1 :: s2 :: segments))
      with (segments_loop space too_wide
              (segment_step space too_wide (wrapped, currentLine) s1 false)
              (s2 :: segments)).
    pose proof (segment_step_spec s1 false wrapped currentLine Hs1 Hw Hc) as H.
    destruct (segment_step _ _ _ _ _) as [w1 c1]. destruct H as (H1 & H2 & H3).
    specialize (IH w1 c1). destruct (segments_loop _ _ _ _) as [w' c'].
    destruct IH as [IH1 IH2]; [done..|].
    split; [done|]. rewrite IH2, H3. by rewrite <-app_assoc.
Qed.

(** X27.  Wrapping a line of code keeps its text: at least one line is drawn,
    and the drawn lines, read in order and ignoring spaces, are the line
    ignoring spaces.  Every drawn line (fits too_wide) the width, unless it is a
    single code unit that is itself too wide. *)
Theorem wrapLine_keeps_text line :
  (∀ s, Forall (λ c, c = space) s → blank s = true) →
  wrapLine space too_wide blank line ≠ [] ∧
  filter (λ c, c ≠ space) (concat (wrapLine space too_wide blank line))
    = filter (λ c, c ≠ space) line ∧
  Forall (fits too_wide) (wrapLine space too_wide blank line).
Proof.
  intros Hblank. unfold wrapLine.
  destruct (split_spec line) as (Hne & Hall & Hcat).
  pose proof (segments_loop_spec (split space line) [] [] Hne Hall
                (Forall_nil_2 _) (or_intror (Nat.le_0_l 1))) as Hloop.
  destruct (segments_loop _ _ _ _) as [wrapped c']. simpl.
  destruct Hloop as [Hfits Htext]. simpl in Htext. rewrite Hcat in Htext.
  destruct wrapped as [|l wrapped]; simpl.
  - assert (Forall (λ c, c = space) line) as Hspaces.
    { apply Forall_forall. intros c Hc.
      destruct (decide (c = space)) as [|Hns]; [done|].
      assert (c ∈ filter (λ c, c ≠ space) line) as Hin
        by by apply list_elem_of_filter.
      rewrite <-Htext in Hin. by apply elem_of_nil in Hin. }
    rewrite (Hblank line Hspaces). simpl.
    split; [done|]. split; [by rewrite <-Htext|].
    constructor; [right; simpl; lia|constructor].
  - split; [done|]. split; [done|done].
Qed.
End wrapping_facts.

Lemma ascii_blank_spaces (s : list ascii) :
  Forall (λ c, c = " "%char) s → ascii_blank s = true.
Proof.
  unfold ascii_blank. induction 1 as [|c s -> _ IH]; [done|]. simpl. apply IH.
Qed.

(** The indentation of a line is not drawn, and a long line is broken
    between words. *)
Example wrapLine_drops_indentation :
  String.string_of_list_ascii
    <$> wrapLine " "%char over_twelve ascii_blank indented_return
  = ["return total"; "+ value;"].
Proof. reflexivity. Qed.

Lemma wrapLine_keeps_text_witness :
  wrapLine " "%char over_twelve ascii_blank indented_return ≠ [] ∧
  filter (λ c, c ≠ " "%char)
         (concat (wrapLine " "%char over_twelve ascii_blank indented_return))
    = filter (λ c, c ≠ " "%char) indented_return ∧
  Forall (fits over_twelve)
         (wrapLine " "%char over_twelve ascii_blank indented_return).
Proof.
  apply (wrapLine_keeps_text " "%char over_twelve ascii_blank indented_return).
  apply ascii_blank_spaces.
Defined.

(** ** The further properties at the example *)

Lemma wf_tied_db : wf tied_db.
Proof. apply wf_entries_put, wf_cheatsheets_put, wf_sample_db. Qed.

Lemma tied_ids_ascii :
  (∀ k, is_Some (entries tied_db !! k) → ascii_id k = true) ∧
  (∀ k, is_Some (cheatsheets tied_db !! k) → ascii_id k = true).
Proof.
  unfold tied_db, sample_db. simpl. unfold put.
  split; intros k [x Hk];
    repeat (apply lookup_insert_Some in Hk as [[<- _]|[_ Hk]]; [done|]);
    by rewrite lookup_empty in Hk.
Qed.

Lemma listing_is_ordered_witness :
  ∃ listed,
    listed = [array_map; array_filter; array_reduce] ∧
    useSyntaxEntries unreachable guest_ctx "c1" tied_world
      = Resolved tied_world listed ∧
    (∀ e, e ∈ listed ↔
       entries (local tied_world) !! LocalSyntaxEntry.id e = Some e ∧
       LocalSyntaxEntry.cheatsheet_id e = "c1") ∧
    NoDup (LocalSyntaxEntry.id <$> listed) ∧
    Sorted (λ a b,
      LocalSyntaxEntry.position a < LocalSyntaxEntry.position b ∨
      LocalSyntaxEntry.position a = LocalSyntaxEntry.position b ∧
      String.le (LocalSyntaxEntry.id a) (LocalSyntaxEntry.id b)) listed.
Proof.
  destruct (listing_is_ordered unreachable guest_ctx "c1" tied_world)
    as (listed & Hread & Hrest).
  - reflexivity.
  - apply wf_tied_db.
  - apply tied_ids_ascii.
  - exists listed. split; [|by split].
    assert (useSyntaxEntries unreachable guest_ctx "c1" tied_world
            = Resolved tied_world [array_map; array_filter; array_reduce])
      as Hrun by (vm_compute; reflexivity).
    rewrite Hrun in Hread. by injection Hread as <-.
Defined.

Lemma delete_entry_listing_witness :
  ∃ w' before after,
    useSyntaxEntries unreachable guest_ctx "c1" sample_world
      = Resolved sample_world before ∧
    handleDeleteEntry unreachable guest_ctx "c1" "e1" sample_world
      = Resolved w' tt ∧
    useSyntaxEntries unreachable guest_ctx "c1" w' = Resolved w' after ∧
    after = filter (λ e, LocalSyntaxEntry.id e ≠ "e1") before ∧
    cheatsheets (local w') = cheatsheets (local sample_world) ∧
    (entries (local sample_world) !! "e1" = None →
     local w' = local sample_world).
Proof.
  apply (delete_entry_listing unreachable guest_ctx "c1" "e1" "c1" sample_world).
  - reflexivity.
  - apply wf_sample_db.
Defined.

Lemma save_edit_listing_witness :
  ∃ w',
    handleSaveEdit unreachable guest_ctx "c1" edited_map later sample_world
      = Resolved w' true ∧
    useSyntaxEntries unreachable guest_ctx "c1" w' =
      Resolved w'
        [LocalSyntaxEntry.mk "e1" "c1" "Array.prototype.map()" "Arrays"
           (Some "") (Some "") None "card" "javascript" 0
           "2024-01-02T00:00:00.000Z" later;
         array_filter].
Proof.
  destruct (save_edit_listing unreachable guest_ctx "c1" sample_world
              [array_map; array_filter] edited_map later)
    as (w' & Hsave & Hlist & _).
  - reflexivity.
  - apply wf_sample_db.
  - vm_compute. reflexivity.
  - left.
  - reflexivity.
  - reflexivity.
  - exists w'. split; [exact Hsave|]. rewrite Hlist. reflexivity.
Defined.

Lemma edit_dialog_round_trip_witness :
  ∃ w',
    handleSaveEdit unreachable guest_ctx "c1" (handleEdit array_map) later
                   sample_world = Resolved w' true ∧
    entries (local w') !! "e1" =
      Some (LocalSyntaxEntry.mk "e1" "c1" "Array.map()" "Arrays" (Some "")
              (Some "") None "card" "javascript" 0
              "2024-01-02T00:00:00.000Z" later).
Proof.
  destruct (edit_dialog_round_trip unreachable guest_ctx sample_world
              array_map later) as (w' & Hsave & Hentries & _).
  - reflexivity.
  - apply wf_sample_db.
  - vm_compute. reflexivity.
  - reflexivity.
  - reflexivity.
  - exists w'. split; [exact Hsave|]. rewrite Hentries. apply lookup_insert_eq.
Defined.

Lemma append_shows_last_witness :
  ∃ w' e,
    handleSaveEntry unreachable guest_ctx "c1" (Some [array_map; array_filter])
      new_entry_form "e3" later later sample_world = Resolved w' true ∧
    useSyntaxEntries unreachable guest_ctx "c1" w'
      = Resolved w' ([array_map; array_filter] ++ [e])%list ∧
    LocalSyntaxEntry.id e = "e3" ∧
    LocalSyntaxEntry.syntax e = "Array.reduce()" ∧
    LocalSyntaxEntry.category e = "Arrays" ∧
    (∀ x, x ∈ [array_map; array_filter] →
          LocalSyntaxEntry.position x < LocalSyntaxEntry.position e).
Proof.
  apply (append_shows_last unreachable guest_ctx "c1" sample_world
           [array_map; array_filter] new_entry_form "e3" later later).
  - reflexivity.
  - apply wf_sample_db.
  - vm_compute. reflexivity.
  - intros x [->|[->|[]%elem_of_nil]%elem_of_cons]%elem_of_cons; done.
  - reflexivity.
  - reflexivity.
  - vm_compute. reflexivity.
Defined.

Lemma drag_then_list_witness :
  ∃ updates w',
    handleDragEnd (Some [array_map; array_filter]) "e2" (Some "e1")
      = Some updates ∧
    useReorderEntries unreachable guest_ctx "c1" updates sample_world
      = Resolved w' tt ∧
    useSyntaxEntries unreachable guest_ctx "c1" w' =
      Resolved w' [LocalSyntaxEntry.with_position array_filter 0;
                   LocalSyntaxEntry.with_position array_map 1].
Proof.
  destruct (drag_then_list unreachable guest_ctx "c1" sample_world
              [array_map; array_filter] 1 0 array_filter array_map)
    as (updates & w' & Hdrag & Hreorder & Hlist & _).
  - reflexivity.
  - apply wf_sample_db.
  - vm_compute. reflexivity.
  - reflexivity.
  - reflexivity.
  - lia.
  - exists updates, w'. split; [exact Hdrag|]. split; [exact Hreorder|].
    exact Hlist.
Defined.

Lemma views_newest_first_witness :
  ∃ listed,
    listed = [js_basics; py_basics] ∧
    useCheatsheets unreachable iso_time guest_ctx active tied_world
      = Resolved tied_world listed ∧
    (∀ c, c ∈ listed ↔
       cheatsheets (local tied_world) !! LocalCheatsheet.id c = Some c ∧
       in_view active c) ∧
    NoDup (LocalCheatsheet.id <$> listed) ∧
    Sorted (newer_first iso_time) listed.
Proof.
  destruct (views_newest_first unreachable iso_time guest_ctx active tied_world)
    as (listed & Hread & Hrest).
  - reflexivity.
  - apply wf_tied_db.
  - apply tied_ids_ascii.
  - exists listed. split; [|by split].
    assert (useCheatsheets unreachable iso_time guest_ctx active tied_world
            = Resolved tied_world [js_basics; py_basics])
      as Hrun by (vm_compute; reflexivity).
    rewrite Hrun in Hread. by injection Hread as <-.
Defined.

Lemma purge_frame_witness :
  ∃ w',
    usePermanentDeleteCheatsheet unreachable guest_ctx "c2" sample_world
      = Resolved w' tt ∧
    useCheatsheet unreachable guest_ctx "c1" w' = Resolved w' (Some js_basics) ∧
    useSyntaxEntries unreachable guest_ctx "c1" w'
      = Resolved w' [array_map; array_filter].
Proof.
  destruct (purge_frame unreachable iso_time guest_ctx "c2" sample_world)
    as (w' & Hpurge & Hsheet & _ & Hentries).
  - reflexivity.
  - apply wf_sample_db.
  - exists w'. split; [exact Hpurge|]. split.
    + rewrite (Hsheet "c1") by discriminate. reflexivity.
    + apply (Hentries "c1"); [discriminate|]. vm_compute. reflexivity.
Defined.

Lemma create_opens_editor_witness :
  ∃ w' toast act,
    handleCreate unreachable "Cannot read properties of null (reading 'id')"
      guest_ctx "Python" "" "c2" later later sample_world
      = Resolved w' (Some "c2", [toast]) ∧
    (AppContext.isLoading guest_ctx = false →
     Index guest_ctx (Some "c2") = show_editor true "c2") ∧
    useCheatsheet unreachable guest_ctx "c2" w'
      = Resolved w' (Some (LocalCheatsheet.mk "c2" "Python" (Some "")
                             later later None)) ∧
    useCheatsheets unreachable iso_time guest_ctx active w' = Resolved w' act ∧
    LocalCheatsheet.mk "c2" "Python" (Some "") later later None ∈ act ∧
    useSyntaxEntries unreachable guest_ctx "c2" w' = Resolved w' [] ∧
    cheatsheets (local w') =
      <["c2" := LocalCheatsheet.mk "c2" "Python" (Some "") later later None]>
        (cheatsheets (local sample_world)) ∧
    entries (local w') = entries (local sample_world).
Proof.
  apply (create_opens_editor unreachable iso_time
           "Cannot read properties of null (reading 'id')"
           guest_ctx "Python" "" "c2" later later sample_world).
  - reflexivity.
  - apply wf_sample_db.
  - apply sample_no_orphans.
  - reflexivity.
  - discriminate.
  - vm_compute. reflexivity.
Defined.

Lemma cloud_reorder_stops_at_first_error_witness :
  useReorderEntries (flaky e2_locked) cloud_ctx "c1"
    ([("e1", 1)] ++ ("e2", 0) :: [("e3", 2)]) (mkWorld sample_db [])
  = Rejected (mkWorld sample_db [update_entry_position "e1" 1;
                                 update_entry_position "e2" 0])
             "permission denied".
Proof.
  apply (cloud_reorder_stops_at_first_error (flaky e2_locked) cloud_ctx "c1"
           [("e1", 1)] "e2" 0 [("e3", 2)] (mkWorld sample_db [])
           (mkWorld sample_db [update_entry_position "e1" 1])
           [update_entry_position "e1" 1; update_entry_position "e2" 0]
           (mkResponse null (Some "permission denied")) "permission denied").
  - reflexivity.
  - reflexivity.
  - reflexivity.
  - reflexivity.
Defined.

Lemma one_store_serves_the_page_witness :
  Index guest_ctx None ≠ show_loading ∧ Index guest_ctx None ≠ show_auth ∧
  remote (world_of (useReorderEntries unreachable guest_ctx "c1" filter_first
                      sample_world)) = remote sample_world.
Proof.
  split; [discriminate|]. split; [discriminate|].
  apply (one_store_serves_the_page unreachable iso_time guest_ctx None
           sample_world "c1" later "c1" filter_first
           (mkEntryUpdate "e1" "c1" "Array.map()" "Arrays" None None
                          "card" "javascript")
           (mkNewEntry "c1" "Array.reduce()" "Arrays" None None
                       "card" "javascript" 2)
           "Python" "" "c2" later later active); discriminate.
Defined.

Lemma tokens_spell_the_line_witness :
  concat (text <$> buildTokens const_line const_matches) = const_line.
Proof.
  apply (tokens_spell_the_line const_line const_matches).
  vm_compute. repeat split; discriminate.
Defined.

Lemma guest_handlers_keep_integrity_witness :
  no_orphans (local (world_of
    (usePermanentDeleteCheatsheet unreachable guest_ctx "c1" sample_world))).
Proof.
  apply (guest_handlers_keep_integrity unreachable
           "Cannot read properties of null (reading 'id')"
           guest_ctx sample_world "c1" "Python" "" "c2" later later "c1" later
           (Some [array_map; array_filter]) new_entry_form edited_map
           filter_first).
  - reflexivity.
  - apply wf_sample_db.
  - apply sample_no_orphans.
  - exists js_basics. vm_compute. reflexivity.
Defined.
